(** * DistributedImagingServices: the keypoint wire codec and the extractor pipeline

    A shallow embedding of
    - [src/common/Serialization.cpp] ([serialize_keypoints], [deserialize_keypoints]),
    - [include/SafeQueue.hpp] ([SafeQueue::push], [SafeQueue::pop]),
    - [src/extractor/main.cpp] (the receive loop of [main], [worker_thread], [sender_thread]),
    - the loop of the logger's [main],
    - the generator's [find_available_images] and the loop of its [main],
    with the properties the design document states about them, and more that
    the code shows: loop invariants, what happens when a call fails, and how
    the three processes fit together. *)

From Stdlib Require Import String ZArith Bool Arith Lia List.
From coqutil Require Import Byte Word.LittleEndianList.
Import ListNotations.

Local Open Scope Z_scope.

(** ** Exceptions and results of calls that may throw *)

(** The exception classes the three programs throw or catch.  All of them derive
    from [std::exception]; [zmq::error_t] is also caught on its own. *)
Inductive exception : Type :=
| runtime_error (what : string)
| cv_Exception (what : string)
| zmq_error_t (what : string).

Definition what (e : exception) : string :=
  match e with
  | runtime_error w => w
  | cv_Exception w => w
  | zmq_error_t w => w
  end.

Inductive outcome (A : Type) : Type :=
| Returns (a : A)
| Throws (e : exception).
Arguments Returns {A} a.
Arguments Throws {A} e.

(** ** Object representations

    [std::memcpy] moves the object representation of a [float] or an [int]:
    [sizeof] bytes in the byte order of the machine.  A [float] is modelled by
    the 32 bits of its IEEE-754 single-precision representation (an unsigned
    [Z]), an [int] by its signed value. *)

Inductive endianness : Type := LittleEndian | BigEndian.

Definition sizeof_float : nat := 4.
Definition sizeof_int : nat := 4.

Definition float32 : Type := Z.

Definition float32_ok (f : float32) : Prop := 0 <= f < 2 ^ 32.
Definition int_ok (i : Z) : Prop := - 2 ^ 31 <= i < 2 ^ 31.

(** The signed value of a 32-bit pattern (two's complement). *)
Definition int_of_bits (u : Z) : Z :=
  if u <? 2 ^ 31 then u else u - 2 ^ 32.

(** [n] bytes of the two's-complement pattern of [v], lowest address first. *)
Definition object_bytes (bo : endianness) (n : nat) (v : Z) : list byte :=
  match bo with
  | LittleEndian => le_split n v
  | BigEndian => rev (le_split n v)
  end.

(** The unsigned pattern stored in a run of bytes. *)
Definition object_bits (bo : endianness) (bs : list byte) : Z :=
  match bo with
  | LittleEndian => le_combine bs
  | BigEndian => le_combine (rev bs)
  end.

(** [std::memcpy(dst + ptr, src, length src)] on a buffer held as a list.  A
    write that would run past the end of the buffer is undefined in the source;
    here it is cut at the end of the buffer, and [serialize_in_bounds] below shows
    that the encoder never gets there. *)
Definition memcpy (dst : list byte) (ptr : nat) (src : list byte) : list byte :=
  firstn ptr dst ++ firstn (length dst - ptr) src ++ skipn (ptr + length src) dst.

(** The [n] bytes that [std::memcpy(&field, data + ptr, n)] reads. *)
Definition read_bytes (data : list byte) (ptr n : nat) : list byte :=
  firstn n (skipn ptr data).

(** ** [cv::KeyPoint] *)

Module cv.

Record Point2f : Type := mkPoint2f { x : float32; y : float32 }.

Record KeyPoint : Type := mkKeyPoint {
  pt : Point2f;
  size : float32;
  angle : float32;
  response : float32;
  octave : Z;
  class_id : Z
}.

(** [KeyPoint()]: [pt(0,0), size(0), angle(-1), response(0), octave(0), class_id(-1)];
    [0xBF800000] is [-1.0f]. *)
Definition KeyPoint_default : KeyPoint :=
  mkKeyPoint (mkPoint2f 0 0) 0 0xBF800000 0 0 (-1).

Definition set_pt_x (v : float32) (kp : KeyPoint) : KeyPoint :=
  mkKeyPoint (mkPoint2f v (y (pt kp))) (size kp) (angle kp) (response kp) (octave kp) (class_id kp).
Definition set_pt_y (v : float32) (kp : KeyPoint) : KeyPoint :=
  mkKeyPoint (mkPoint2f (x (pt kp)) v) (size kp) (angle kp) (response kp) (octave kp) (class_id kp).
Definition set_size (v : float32) (kp : KeyPoint) : KeyPoint :=
  mkKeyPoint (pt kp) v (angle kp) (response kp) (octave kp) (class_id kp).
Definition set_angle (v : float32) (kp : KeyPoint) : KeyPoint :=
  mkKeyPoint (pt kp) (size kp) v (response kp) (octave kp) (class_id kp).
Definition set_response (v : float32) (kp : KeyPoint) : KeyPoint :=
  mkKeyPoint (pt kp) (size kp) (angle kp) v (octave kp) (class_id kp).
Definition set_octave (v : Z) (kp : KeyPoint) : KeyPoint :=
  mkKeyPoint (pt kp) (size kp) (angle kp) (response kp) v (class_id kp).
Definition set_class_id (v : Z) (kp : KeyPoint) : KeyPoint :=
  mkKeyPoint (pt kp) (size kp) (angle kp) (response kp) (octave kp) v.

(** The values a [cv::KeyPoint] object can hold. *)
Definition KeyPoint_ok (kp : KeyPoint) : Prop :=
  float32_ok (x (pt kp)) /\ float32_ok (y (pt kp)) /\ float32_ok (size kp) /\
  float32_ok (angle kp) /\ float32_ok (response kp) /\
  int_ok (octave kp) /\ int_ok (class_id kp).

End cv.

(** ** Serialization.cpp *)

(** [const size_t SIZEOF_SERIALIZED_KEYPOINT = (5 * sizeof(float)) + (2 * sizeof(int));] *)
Definition SIZEOF_SERIALIZED_KEYPOINT : nat :=
  (5 * sizeof_float + 2 * sizeof_int)%nat.

(** [keypoints[i].field = v] through a reference into the vector. *)
Definition modify_at {A : Type} (i : nat) (f : A -> A) (v : list A) : list A :=
  match nth_error v i with
  | Some a => firstn i v ++ f a :: skipn (S i) v
  | None => v
  end.

Section Codec.

Variable target : endianness.

Definition store_float (f : float32) : list byte := object_bytes target sizeof_float f.
Definition store_int (i : Z) : list byte := object_bytes target sizeof_int i.
Definition load_float (bs : list byte) : float32 := object_bits target bs.
Definition load_int (bs : list byte) : Z := int_of_bits (object_bits target bs).

(** One iteration of the [for (const auto& kp : keypoints)] loop; the state is
    the buffer and the offset of [ptr] from [buffer.data()]. *)
Definition serialize_step (st : list byte * nat) (kp : cv.KeyPoint) : list byte * nat :=
  let '(buffer, ptr) := st in
  let buffer := memcpy buffer ptr (store_float (cv.x (cv.pt kp))) in
  let ptr := (ptr + sizeof_float)%nat in
  let buffer := memcpy buffer ptr (store_float (cv.y (cv.pt kp))) in
  let ptr := (ptr + sizeof_float)%nat in
  let buffer := memcpy buffer ptr (store_float (cv.size kp)) in
  let ptr := (ptr + sizeof_float)%nat in
  let buffer := memcpy buffer ptr (store_float (cv.angle kp)) in
  let ptr := (ptr + sizeof_float)%nat in
  let buffer := memcpy buffer ptr (store_float (cv.response kp)) in
  let ptr := (ptr + sizeof_float)%nat in
  let buffer := memcpy buffer ptr (store_int (cv.octave kp)) in
  let ptr := (ptr + sizeof_int)%nat in
  let buffer := memcpy buffer ptr (store_int (cv.class_id kp)) in
  let ptr := (ptr + sizeof_int)%nat in
  (buffer, ptr).

Definition serialize_keypoints (keypoints : list cv.KeyPoint) : list byte :=
  let buffer := repeat Byte.x00 (length keypoints * SIZEOF_SERIALIZED_KEYPOINT) in
  fst (fold_left serialize_step keypoints (buffer, 0%nat)).

(** One iteration of the [for (size_t i = 0; i < num_keypoints; ++i)] loop. *)
Definition deserialize_step (data : list byte)
    (st : list cv.KeyPoint * nat) (i : nat) : list cv.KeyPoint * nat :=
  let '(keypoints, ptr) := st in
  let keypoints := modify_at i (cv.set_pt_x (load_float (read_bytes data ptr sizeof_float))) keypoints in
  let ptr := (ptr + sizeof_float)%nat in
  let keypoints := modify_at i (cv.set_pt_y (load_float (read_bytes data ptr sizeof_float))) keypoints in
  let ptr := (ptr + sizeof_float)%nat in
  let keypoints := modify_at i (cv.set_size (load_float (read_bytes data ptr sizeof_float))) keypoints in
  let ptr := (ptr + sizeof_float)%nat in
  let keypoints := modify_at i (cv.set_angle (load_float (read_bytes data ptr sizeof_float))) keypoints in
  let ptr := (ptr + sizeof_float)%nat in
  let keypoints := modify_at i (cv.set_response (load_float (read_bytes data ptr sizeof_float))) keypoints in
  let ptr := (ptr + sizeof_float)%nat in
  let keypoints := modify_at i (cv.set_octave (load_int (read_bytes data ptr sizeof_int))) keypoints in
  let ptr := (ptr + sizeof_int)%nat in
  let keypoints := modify_at i (cv.set_class_id (load_int (read_bytes data ptr sizeof_int))) keypoints in
  let ptr := (ptr + sizeof_int)%nat in
  (keypoints, ptr).

Definition deserialize_keypoints (data : list byte) : outcome (list cv.KeyPoint) :=
  if negb (length data mod SIZEOF_SERIALIZED_KEYPOINT =? 0)%nat then
    Throws (runtime_error "Invalid data size for keypoint deserialization.")
  else
    let num_keypoints := (length data / SIZEOF_SERIALIZED_KEYPOINT)%nat in
    let keypoints := repeat cv.KeyPoint_default num_keypoints in
    Returns (fst (fold_left (deserialize_step data) (seq 0 num_keypoints) (keypoints, 0%nat))).

End Codec.

(** The wire layout of one record, as the header documents it: [pt.x], [pt.y],
    [size], [angle], [response] (floats), then [octave], [class_id] (ints). *)
Definition keypoint_layout (target : endianness) (kp : cv.KeyPoint) : list byte :=
  store_float target (cv.x (cv.pt kp)) ++
  store_float target (cv.y (cv.pt kp)) ++
  store_float target (cv.size kp) ++
  store_float target (cv.angle kp) ++
  store_float target (cv.response kp) ++
  store_int target (cv.octave kp) ++
  store_int target (cv.class_id kp).

(** The record whose seven fields are the objects stored in [data] from offset
    [off] on, in the order of the layout. *)
Definition keypoint_at (target : endianness) (data : list byte) (off : nat) : cv.KeyPoint :=
  cv.mkKeyPoint
    (cv.mkPoint2f (load_float target (read_bytes data off 4))
                  (load_float target (read_bytes data (off + 4) 4)))
    (load_float target (read_bytes data (off + 8) 4))
    (load_float target (read_bytes data (off + 12) 4))
    (load_float target (read_bytes data (off + 16) 4))
    (load_int target (read_bytes data (off + 20) 4))
    (load_int target (read_bytes data (off + 24) 4)).

(** ** SafeQueue.hpp

    Threads that call [push] and [pop] on one queue, interleaved statement by
    statement.  The state has the three members of the class; a thread is at
    one of the statements of the two member functions, and a step runs that one
    statement.  [cond_] is the set of threads asleep in [cond_.wait]. *)

Module SafeQueue.

Section WithT.

Variable T : Type.

Inductive call : Type :=
| Push (value : T)
| Pop.

(** The statement a thread is at. *)
Inductive pc : Type :=
| idle                       (* between two calls *)
| push_lock (value : T)      (* [std::lock_guard<std::mutex> lock(mutex_);] *)
| push_queue (value : T)     (* [queue_.push(std::move(value));] *)
| push_unlock                (* the closing brace of the block: [~lock_guard] *)
| push_notify                (* [cond_.notify_one();] *)
| pop_lock                   (* [std::unique_lock<std::mutex> lock(mutex_);] *)
| pop_wait_test              (* [cond_.wait]: the predicate [!queue_.empty()] *)
| pop_wait_sleep             (* [cond_.wait]: asleep, the lock released *)
| pop_wait_relock            (* [cond_.wait]: woken up, taking the lock again *)
| pop_front                  (* [value = std::move(queue_.front());] *)
| pop_pop (value : T)        (* [queue_.pop();] *)
| pop_return (value : T).    (* [return true;] and [~unique_lock] *)

Record thread : Type := mkThread {
  at_pc : pc;
  calls : list call;         (* the calls it still has to make *)
  popped : list T            (* what its calls of [pop] have returned, oldest first *)
}.

(** What has happened to the queue, for the statements of the properties. *)
Inductive event : Type :=
| Enqueued (t : nat) (value : T)      (* thread [t] ran [queue_.push] *)
| Dequeued (t : nat) (value : T)      (* thread [t] ran [queue_.pop] *)
| Pop_returned (t : nat) (value : T). (* a call of [pop] by [t] returned *)

Record state : Type := mkState {
  queue_ : list T;           (* [std::queue<T>], front first *)
  mutex_ : option nat;       (* the thread that holds [std::mutex], if any *)
  threads : list thread;
  history : list event       (* oldest first *)
}.

Fixpoint update {A : Type} (l : list A) (i : nat) (a : A) : list A :=
  match l, i with
  | [], _ => []
  | _ :: l, O => a :: l
  | b :: l, S i => b :: update l i a
  end.

Definition asleep (th : thread) : bool :=
  match at_pc th with pop_wait_sleep => true | _ => false end.

(** The statements that run with the mutex held. *)
Definition holds_lock (p : pc) : bool :=
  match p with
  | push_queue _ | push_unlock | pop_wait_test | pop_front | pop_pop _ | pop_return _ => true
  | _ => false
  end.

Definition is_free (m : option nat) : bool :=
  match m with None => true | Some _ => false end.

Definition move_to (th : thread) (p : pc) : thread :=
  mkThread p (calls th) (popped th).

(** A thread woken out of [cond_.wait] goes for the lock again. *)
Definition wake (th : thread) : thread :=
  if asleep th then move_to th pop_wait_relock else th.

(** Thread [t] runs the statement it is at; [w] is the sleeper that
    [notify_one] picks when there are several.  [None]: the thread cannot move
    (the mutex is taken, it is asleep, it has no call left, there is no such
    thread), or the statement has no defined behaviour ([front] or [pop] of an
    empty [std::queue]). *)
Definition run (t w : nat) (s : state) : option state :=
  match nth_error (threads s) t with
  | None => None
  | Some th =>
    let goto p := update (threads s) t (move_to th p) in
    match at_pc th with
    | idle =>
      match calls th with
      | [] => None
      | Push value :: rest =>
        Some (mkState (queue_ s) (mutex_ s)
                (update (threads s) t (mkThread (push_lock value) rest (popped th)))
                (history s))
      | Pop :: rest =>
        Some (mkState (queue_ s) (mutex_ s)
                (update (threads s) t (mkThread pop_lock rest (popped th)))
                (history s))
      end
    | push_lock value =>
      if is_free (mutex_ s)
      then Some (mkState (queue_ s) (Some t) (goto (push_queue value)) (history s))
      else None
    | push_queue value =>
      Some (mkState (queue_ s ++ [value]) (mutex_ s) (goto push_unlock)
              (history s ++ [Enqueued t value]))
    | push_unlock =>
      Some (mkState (queue_ s) None (goto push_notify) (history s))
    | push_notify =>
      match nth_error (threads s) w with
      | Some sleeper =>
        if asleep sleeper
        then Some (mkState (queue_ s) (mutex_ s)
                     (update (goto idle) w (wake sleeper)) (history s))
        else if existsb asleep (threads s) then None
        else Some (mkState (queue_ s) (mutex_ s) (goto idle) (history s))
      | None =>
        if existsb asleep (threads s) then None
        else Some (mkState (queue_ s) (mutex_ s) (goto idle) (history s))
      end
    | pop_lock =>
      if is_free (mutex_ s)
      then Some (mkState (queue_ s) (Some t) (goto pop_wait_test) (history s))
      else None
    | pop_wait_test =>
      match queue_ s with
      | [] => Some (mkState (queue_ s) None (goto pop_wait_sleep) (history s))
      | _ :: _ => Some (mkState (queue_ s) (mutex_ s) (goto pop_front) (history s))
      end
    | pop_wait_sleep => None
    | pop_wait_relock =>
      if is_free (mutex_ s)
      then Some (mkState (queue_ s) (Some t) (goto pop_wait_test) (history s))
      else None
    | pop_front =>
      match queue_ s with
      | [] => None
      | value :: _ => Some (mkState (queue_ s) (mutex_ s) (goto (pop_pop value)) (history s))
      end
    | pop_pop value =>
      match queue_ s with
      | [] => None
      | _ :: rest =>
        Some (mkState rest (mutex_ s) (goto (pop_return value))
                (history s ++ [Dequeued t value]))
      end
    | pop_return value =>
      Some (mkState (queue_ s) None
              (update (threads s) t (mkThread idle (calls th) (popped th ++ [value])))
              (history s ++ [Pop_returned t value]))
    end
  end.

(** A sleeper may also wake up with no [notify_one] at all. *)
Definition spurious_wakeup (t : nat) (s : state) : option state :=
  match nth_error (threads s) t with
  | Some th =>
    if asleep th
    then Some (mkState (queue_ s) (mutex_ s) (update (threads s) t (wake th)) (history s))
    else None
  | None => None
  end.

Inductive label : Type :=
| Run (t w : nat)
| Spurious (t : nat).

Definition step (l : label) (s : state) : option state :=
  match l with
  | Run t w => run t w s
  | Spurious t => spurious_wakeup t s
  end.

(** A schedule, followed from [s]; [None] when one of its steps cannot be taken. *)
Fixpoint exec (schedule : list label) (s : state) : option state :=
  match schedule with
  | [] => Some s
  | l :: schedule =>
    match step l s with
    | Some s' => exec schedule s'
    | None => None
    end
  end.

(** Every thread with its calls before it, the queue empty, the mutex free. *)
Definition init (programs : list (list call)) : state :=
  mkState [] None (map (fun cs => mkThread idle cs []) programs) [].

(** No thread can run a statement: each one has returned from its last call,
    or sleeps in [cond_.wait]. *)
Definition quiescent (s : state) : Prop :=
  forall t w, run t w s = None.

Definition is_run (l : label) : bool :=
  match l with Run _ _ => true | Spurious _ => false end.

(** *** Reading the history *)

Definition enqueued (h : list event) : list (nat * T) :=
  flat_map (fun e => match e with Enqueued t v => [(t, v)] | _ => [] end) h.

Definition dequeued (h : list event) : list (nat * T) :=
  flat_map (fun e => match e with Dequeued t v => [(t, v)] | _ => [] end) h.

Definition returned (h : list event) : list (nat * T) :=
  flat_map (fun e => match e with Pop_returned t v => [(t, v)] | _ => [] end) h.

(** The values that thread [t] put into the queue, or took out of it. *)
Definition by_thread (t : nat) (l : list (nat * T)) : list T :=
  map snd (filter (fun p => Nat.eqb (fst p) t) l).

Definition pushes (cs : list call) : list T :=
  flat_map (fun c => match c with Push v => [v] | Pop => [] end) cs.

(** The value taken off the queue by a call of [pop] that has not returned yet. *)
Definition in_flight (s : state) : list T :=
  match mutex_ s with
  | Some t =>
    match nth_error (threads s) t with
    | Some th => match at_pc th with pop_return v => [v] | _ => [] end
    | None => []
    end
  | None => []
  end.

(** The statements of [pop] up to the end of [cond_.wait]: a thread at one of
    them is inside [pop] and has not looked at the front of the queue yet. *)
Definition waiting (p : pc) : bool :=
  match p with
  | pop_lock | pop_wait_test | pop_wait_sleep | pop_wait_relock => true
  | _ => false
  end.

Definition values (l : list (nat * T)) : list T := map snd l.

(** The value that a call of [push] has taken in and not yet put in the queue. *)
Definition pending_push (p : pc) : list T :=
  match p with
  | push_lock v | push_queue v => [v]
  | _ => []
  end.

(** *** What holds in every state that the threads can reach *)

(** The mutex is held by the thread that is at a statement under the lock, and
    by no other. *)
Record mutex_ok (s : state) : Prop := {
  holder_is_owner :
    forall t th, nth_error (threads s) t = Some th ->
                 holds_lock (at_pc th) = true -> mutex_ s = Some t;
  owner_is_holder :
    forall t, mutex_ s = Some t ->
              exists th, nth_error (threads s) t = Some th /\ holds_lock (at_pc th) = true
}.

(** [front] and [pop] find the item that the predicate of [cond_.wait] saw. *)
Definition front_ready (s : state) : Prop :=
  forall t th, nth_error (threads s) t = Some th ->
    match at_pc th with
    | pop_front => queue_ s <> []
    | pop_pop v => exists q, queue_ s = v :: q
    | _ => True
    end.

(** What went into the queue is what came out of it, in the same order,
    followed by what is still in it. *)
Definition conserved (s : state) : Prop :=
  values (enqueued (history s)) = values (dequeued (history s)) ++ queue_ s.

(** What came out of the queue has been returned, but for the one item that
    the thread under the lock is about to return. *)
Definition handed_over (s : state) : Prop :=
  values (dequeued (history s)) = values (returned (history s)) ++ in_flight s.

(** The pushes of a thread's program: those it has made, in the order of the
    program, the one it is making, those it has not come to. *)
Definition in_program_order (programs : list (list call)) (s : state) : Prop :=
  forall t th, nth_error (threads s) t = Some th ->
    exists cs, nth_error programs t = Some cs /\
      pushes cs = by_thread t (enqueued (history s))
                    ++ pending_push (at_pc th) ++ pushes (calls th).

Definition results_logged (s : state) : Prop :=
  forall t th, nth_error (threads s) t = Some th ->
    popped th = by_thread t (returned (history s)).

(** A thread that will look at the queue, or wake a sleeper, without being
    woken itself. *)
Definition owes (th : thread) : nat :=
  match at_pc th with
  | push_unlock | push_notify | pop_wait_test | pop_wait_relock | pop_front | pop_pop _ => 1
  | _ => 0
  end.

Definition sleeping (th : thread) : nat := if asleep th then 1 else 0.

(** While a thread sleeps, every item in the queue has a thread that will come
    for it or wake a sleeper for it. *)
Definition wakeups_pending (s : state) : Prop :=
  (0 < list_sum (map sleeping (threads s)) ->
   length (queue_ s) <= list_sum (map owes (threads s)))%nat.

Record sound (programs : list (list call)) (s : state) : Prop := {
  sound_mutex : mutex_ok s;
  sound_front : front_ready s;
  sound_conserved : conserved s;
  sound_handed_over : handed_over s;
  sound_order : in_program_order programs s;
  sound_results : results_logged s;
  sound_wakeups : wakeups_pending s
}.

(** The cost of what a thread still has to run, counted in statements; a
    statement that wakes a sleeper also pays for the sleeper's way back to
    sleep. *)
Definition pc_weight (p : pc) : nat :=
  match p with
  | idle => 0
  | push_lock _ => 9
  | push_queue _ => 8
  | push_unlock => 7
  | push_notify => 6
  | pop_lock => 5
  | pop_wait_test => 4
  | pop_wait_sleep => 0
  | pop_wait_relock => 5
  | pop_front => 3
  | pop_pop _ => 2
  | pop_return _ => 1
  end.

Definition call_weight (c : call) : nat :=
  match c with Push _ => 10 | Pop => 6 end.

Definition thread_weight (th : thread) : nat :=
  pc_weight (at_pc th) + list_sum (map call_weight (calls th)).

Definition weight (s : state) : nat :=
  list_sum (map thread_weight (threads s)).

End WithT.

Arguments Push {T} value.
Arguments Pop {T}.
Arguments idle {T}.
Arguments push_lock {T} value.
Arguments push_queue {T} value.
Arguments push_unlock {T}.
Arguments push_notify {T}.
Arguments pop_lock {T}.
Arguments pop_wait_test {T}.
Arguments pop_wait_sleep {T}.
Arguments pop_wait_relock {T}.
Arguments pop_front {T}.
Arguments pop_pop {T} value.
Arguments pop_return {T} value.
Arguments mkThread {T} at_pc calls popped.
Arguments at_pc {T} t.
Arguments calls {T} t.
Arguments popped {T} t.
Arguments Enqueued {T} t value.
Arguments Dequeued {T} t value.
Arguments Pop_returned {T} t value.
Arguments mkState {T} queue_ mutex_ threads history.
Arguments queue_ {T} s.
Arguments mutex_ {T} s.
Arguments threads {T} s.
Arguments history {T} s.
Arguments asleep {T} th.
Arguments holds_lock {T} p.
Arguments move_to {T} th p.
Arguments wake {T} th.
Arguments run {T} t w s.
Arguments spurious_wakeup {T} t s.
Arguments step {T} l s.
Arguments exec {T} schedule s.
Arguments init {T} programs.
Arguments quiescent {T} s.
Arguments enqueued {T} h.
Arguments dequeued {T} h.
Arguments returned {T} h.
Arguments by_thread {T} t l.
Arguments pushes {T} cs.
Arguments in_flight {T} s.
Arguments waiting {T} p.
Arguments values {T} l.
Arguments pending_push {T} p.
Arguments mutex_ok {T} s.
Arguments holder_is_owner {T}.
Arguments owner_is_holder {T}.
Arguments front_ready {T} s.
Arguments conserved {T} s.
Arguments handed_over {T} s.
Arguments in_program_order {T} programs s.
Arguments results_logged {T} s.
Arguments owes {T} th.
Arguments sleeping {T} th.
Arguments wakeups_pending {T} s.
Arguments sound {T} programs s.
Arguments sound_mutex {T}.
Arguments sound_front {T}.
Arguments sound_conserved {T}.
Arguments sound_handed_over {T}.
Arguments sound_order {T}.
Arguments sound_results {T}.
Arguments sound_wakeups {T}.
Arguments pc_weight {T} p.
Arguments call_weight {T} c.
Arguments thread_weight {T} th.
Arguments weight {T} s.

End SafeQueue.

(** ** extractor/main.cpp: data *)

(** A [std::string] and a [zmq::message_t] both hold a run of bytes; building
    the one from the other ([to_string], the iterator-range constructor) copies
    the bytes, so both are lists of bytes here. *)
Definition bytes : Type := list byte.

(** [struct ImageTask]; its members are [filename] and [img_buffer] in the
    source, like those of [ProcessedTask]. *)
Record ImageTask : Type := mkImageTask {
  task_filename : bytes;
  task_img_buffer : bytes
}.

Record ProcessedTask : Type := mkProcessedTask {
  filename : bytes;
  img_buffer : bytes;
  keypoints_buffer : bytes
}.

(** The lines written to [std::cerr] and [std::cout], by their content.  The
    line that a worker prints after a push names [result.filename], a string
    that has been moved from by then; the name is left out of that line. *)
Inductive log_line : Type :=
| Worker_failed_to_decode (id : Z) (name : bytes)
| Worker_error (id : Z) (what : string)
| Worker_processed (id : Z) (num_keypoints : nat)
| Extractor_expected_2_parts_got_1
| Extractor_received_more_than_2_parts
| Sender_publishing
| Sender_error_binding (what : string)
| Sender_zmq_error (what : string)
| Sender_error (what : string).

(** ** extractor/main.cpp: the receive loop of [main] *)

(** What one call of [subscriber.recv] finds on the wire: a frame with its
    more-frames flag, or nothing (the call returns an empty optional). *)
Inductive delivery : Type :=
| Frame (data : bytes) (more : bool)
| NoFrame.

(** The subscriber socket: the deliveries still to come and the [rcvmore]
    option, which is the flag of the last frame received. *)
Record socket : Type := mkSocket {
  incoming : list delivery;
  rcvmore : bool
}.

(** [subscriber.recv(msg)]: [None] when nothing is left to come (the call
    blocks for good); otherwise the optional result and the socket after it. *)
Definition recv (s : socket) : option (option bytes * socket) :=
  match incoming s with
  | [] => None
  | Frame data more :: rest => Some (Some data, mkSocket rest more)
  | NoFrame :: rest => Some (None, mkSocket rest (rcvmore s))
  end.

(** The wire form of a multipart message: every frame but the last carries the
    more-frames flag. *)
Fixpoint wire (frames : list bytes) : list delivery :=
  match frames with
  | [] => []
  | [f] => [Frame f false]
  | f :: rest => Frame f true :: wire rest
  end.

Record receiver : Type := mkReceiver {
  subscriber : socket;
  work_queue : list ImageTask;   (* pushed so far, oldest first *)
  receiver_cerr : list log_line
}.

(** How a pass through a loop body ends: at the closing brace or a [continue]
    ([Continue]), or inside a call that never returns ([Blocked]). *)
Inductive pass : Type := Continue | Blocked.

(** [while (subscriber.get(zmq::sockopt::rcvmore)) { subscriber.recv(temp); }] *)
Fixpoint flush_extras (incoming : list delivery) (rcvmore : bool) : socket * pass :=
  if rcvmore then
    match incoming with
    | [] => (mkSocket [] rcvmore, Blocked)
    | Frame _ more :: rest => flush_extras rest more
    | NoFrame :: rest => flush_extras rest rcvmore
    end
  else (mkSocket incoming rcvmore, Continue).

(** One pass through the body of [while (true)] in [main]. *)
Definition receive_pass (r : receiver) : receiver * pass :=
  match recv (subscriber r) with
  | None => (r, Blocked)
  | Some (None, s) => (mkReceiver s (work_queue r) (receiver_cerr r), Continue)
  | Some (Some name_msg, s) =>
    if negb (rcvmore s) then
      (mkReceiver s (work_queue r) (receiver_cerr r ++ [Extractor_expected_2_parts_got_1]),
       Continue)
    else
      match recv s with
      | None => (mkReceiver s (work_queue r) (receiver_cerr r), Blocked)
      | Some (None, s) => (mkReceiver s (work_queue r) (receiver_cerr r), Continue)
      | Some (Some img_msg, s) =>
        if rcvmore s then
          let cerr := receiver_cerr r ++ [Extractor_received_more_than_2_parts] in
          let '(s, p) := flush_extras (incoming s) (rcvmore s) in
          (mkReceiver s (work_queue r) cerr, p)
        else
          let task := mkImageTask name_msg img_msg in
          (mkReceiver s (work_queue r ++ [task]) (receiver_cerr r), Continue)
      end
  end.

(** [passes] passes through the loop, stopping early when a call blocks. *)
Fixpoint receive_loop (passes : nat) (r : receiver) : receiver * pass :=
  match passes with
  | O => (r, Continue)
  | S n =>
    match receive_pass r with
    | (r', Continue) => receive_loop n r'
    | (r', Blocked) => (r', Blocked)
    end
  end.

(** The work items and the warning that one inbound message gives rise to. *)
Definition tasks_of_message (frames : list bytes) : list ImageTask :=
  match frames with
  | [name; img] => [mkImageTask name img]
  | _ => []
  end.

Definition warnings_of_message (frames : list bytes) : list log_line :=
  match frames with
  | [] => []
  | [_] => [Extractor_expected_2_parts_got_1]
  | [_; _] => []
  | _ :: _ :: _ :: _ => [Extractor_received_more_than_2_parts]
  end.

(** ** extractor/main.cpp: [worker_thread] *)

Inductive thread_status : Type :=
| Blocked_in_pop     (* inside [work_queue.pop(task)], waiting for the next item *)
| Returned.          (* the thread function has returned *)

Record worker : Type := mkWorker {
  result_queue : list ProcessedTask;   (* pushed so far, oldest first *)
  worker_cerr : list log_line;
  worker_cout : list log_line;
  popped : nat;                        (* items taken from the work queue *)
  status : thread_status
}.

(** OpenCV, as far as [worker_thread] uses it.  Every call may throw. *)
Record OpenCV : Type := mkOpenCV {
  Mat : Type;
  Mat_empty : Mat -> bool;                              (* [image.empty()] *)
  SIFT : Type;
  SIFT_create : outcome SIFT;                           (* [cv::SIFT::create()] *)
  imdecode : bytes -> outcome Mat;                      (* [cv::imdecode(buf, IMREAD_COLOR)] *)
  cvtColor : Mat -> outcome Mat;                        (* [cv::cvtColor(image, gray, COLOR_BGR2GRAY)] *)
  detect : SIFT -> Mat -> outcome (list cv.KeyPoint)    (* [sift->detect(gray, keypoints)] *)
}.

Section Extractor.

Variable target : endianness.
Variable opencv : OpenCV.

(** What the body of [while (work_queue.pop(task))] does with one item. *)
Inductive item_result : Type :=
| Decode_failed                       (* [image.empty()]: log, [continue] *)
| Pushed (result : ProcessedTask) (num_keypoints : nat)
| Thrown (e : exception).             (* leaves the loop for the handler *)

Definition process_item (sift : SIFT opencv) (task : ImageTask) : item_result :=
  match imdecode opencv (task_img_buffer task) with
  | Throws e => Thrown e
  | Returns image =>
    if Mat_empty opencv image then Decode_failed
    else
      match cvtColor opencv image with
      | Throws e => Thrown e
      | Returns gray =>
        match detect opencv sift gray with
        | Throws e => Thrown e
        | Returns keypoints =>
          let kps_buffer := serialize_keypoints target keypoints in
          Pushed (mkProcessedTask (task_filename task) (task_img_buffer task) kps_buffer)
                 (length keypoints)
        end
      end
  end.

(** The [catch (const std::exception& e)] clause that closes [worker_thread]:
    one line on [std::cerr], then the function returns. *)
Definition worker_catch (id : Z) (w : worker) (e : exception) : worker :=
  mkWorker (result_queue w) (worker_cerr w ++ [Worker_error id (what e)])
           (worker_cout w) (popped w) Returned.

(** The [while] loop, run on the items that the successive calls of
    [work_queue.pop(task)] return. *)
Fixpoint worker_loop (id : Z) (sift : SIFT opencv) (tasks : list ImageTask) (w : worker) : worker :=
  match tasks with
  | [] => w
  | task :: rest =>
    let w := mkWorker (result_queue w) (worker_cerr w) (worker_cout w)
                      (S (popped w)) (status w) in
    match process_item sift task with
    | Decode_failed =>
      worker_loop id sift rest
        (mkWorker (result_queue w)
                  (worker_cerr w ++ [Worker_failed_to_decode id (task_filename task)])
                  (worker_cout w) (popped w) (status w))
    | Pushed result n =>
      worker_loop id sift rest
        (mkWorker (result_queue w ++ [result]) (worker_cerr w)
                  (worker_cout w ++ [Worker_processed id n]) (popped w) (status w))
    | Thrown e => worker_catch id w e
    end
  end.

Definition worker_start : worker := mkWorker [] [] [] 0 Blocked_in_pop.

Definition worker_thread (id : Z) (tasks : list ImageTask) : worker :=
  match SIFT_create opencv with
  | Throws e => worker_catch id worker_start e
  | Returns sift => worker_loop id sift tasks worker_start
  end.

(** What the loop pushes and prints on [std::cout], and whether it is still
    running. *)
Definition same_output (w1 w2 : worker) : Prop :=
  result_queue w1 = result_queue w2 /\ worker_cout w1 = worker_cout w2 /\
  status w1 = status w2.

(** [result] carries the name and the image bytes of one of [tasks], next to
    the encoding of some keypoints. *)
Definition forwards (tasks : list ImageTask) (result : ProcessedTask) : Prop :=
  exists task keypoints,
    In task tasks /\
    result = mkProcessedTask (task_filename task) (task_img_buffer task)
                             (serialize_keypoints target keypoints).

End Extractor.

(** ** extractor/main.cpp: [sender_thread] *)

Inductive send_flags : Type := sndmore | none.

Record sender : Type := mkSender {
  published : list (bytes * send_flags);   (* frames sent, oldest first *)
  sender_cout : list log_line;
  sender_cerr : list log_line;
  sender_status : thread_status
}.

(** The three frames of the message that carries one result. *)
Definition frames_of_result (result : ProcessedTask) : list (bytes * send_flags) :=
  [(filename result, sndmore); (img_buffer result, sndmore); (keypoints_buffer result, none)].

Section Sender.

(** Whether a call of [publisher.send] throws is not up to the program:
    [send_error n] is the exception that the call made after [n] frames have
    gone out throws, if it throws. *)
Variable send_error : nat -> option exception.

(** [publisher.send(msg, flags)] *)
Definition send (msg : bytes) (flags : send_flags) (s : sender) : outcome sender :=
  match send_error (length (published s)) with
  | Some e => Throws e
  | None =>
    Returns (mkSender (published s ++ [(msg, flags)])
                      (sender_cout s) (sender_cerr s) (sender_status s))
  end.

(** The body of [while (result_queue.pop(result))]: three messages built from
    the three members, three sends.  The result is the sender as the last send
    that returned left it, and the exception of the one that threw, if any. *)
Definition send_result (result : ProcessedTask) (s : sender) : sender * option exception :=
  let name_msg := filename result in
  let img_msg := img_buffer result in
  let kps_msg := keypoints_buffer result in
  match send name_msg sndmore s with
  | Throws e => (s, Some e)
  | Returns s =>
    match send img_msg sndmore s with
    | Throws e => (s, Some e)
    | Returns s =>
      match send kps_msg none s with
      | Throws e => (s, Some e)
      | Returns s => (s, None)
      end
    end
  end.

(** The two [catch] clauses behind the loop: [zmq::error_t] first, then any
    other [std::exception]; one line on [std::cerr], and the function returns. *)
Definition sender_catch (s : sender) (e : exception) : sender :=
  let line := match e with
              | zmq_error_t w => Sender_zmq_error w
              | _ => Sender_error (what e)
              end in
  mkSender (published s) (sender_cout s) (sender_cerr s ++ [line]) Returned.

(** The [while] loop, run on the items that the successive calls of
    [result_queue.pop(result)] return. *)
Fixpoint sender_loop (results : list ProcessedTask) (s : sender) : sender :=
  match results with
  | [] => s
  | result :: rest =>
    match send_result result s with
    | (s, None) => sender_loop rest s
    | (s, Some e) => sender_catch s e
    end
  end.

(** [sender_thread], run on the outcome of [publisher.bind]. *)
Definition sender_thread (bind : outcome unit) (results : list ProcessedTask) : sender :=
  match bind with
  | Throws e => mkSender [] [] [Sender_error_binding (what e)] Returned
  | Returns _ => sender_loop results (mkSender [] [Sender_publishing] [] Blocked_in_pop)
  end.

End Sender.

(** A publisher whose sends all return. *)
Definition sends_return : nat -> option exception := fun _ => None.

(** Sample data for the examples. *)
Definition kp1 : cv.KeyPoint :=
  cv.mkKeyPoint (cv.mkPoint2f 0x3F800000 0x40000000) 0x40400000 0xBF800000 0x7FC00001 (-3) 258.

(** 28 bytes that no encoder call produced: all of them [0xff], so the floats
    are NaNs with a payload and the ints are [-1]. *)
Definition sample_buffer : list byte := repeat Byte.xff 28.

Definition name_a : bytes := [Byte.x61; Byte.x2e; Byte.x6a; Byte.x70; Byte.x67].   (* "a.jpg" *)
Definition jpeg_a : bytes := [Byte.xff; Byte.xd8; Byte.xff; Byte.xe0].
Definition jpeg_b : bytes := [Byte.x00; Byte.x01].

(** A stand-in for OpenCV: a buffer decodes to an image when it starts with the
    JPEG marker [ff d8], and to an empty image otherwise; the detector throws on
    a two-byte image and finds one keypoint in every other. *)
Definition demo_opencv : OpenCV :=
  mkOpenCV bytes
    (fun image => match image with [] => true | _ => false end)
    unit
    (Returns tt)
    (fun buf => match buf with Byte.xff :: Byte.xd8 :: _ => Returns buf | _ => Returns [] end)
    (fun image => Returns image)
    (fun _ gray => match gray with
                   | [_; _] => Throws (cv_Exception "detect")
                   | _ => Returns [kp1]
                   end).

Definition good_task : ImageTask := mkImageTask name_a jpeg_a.
Definition corrupt_task : ImageTask := mkImageTask name_a jpeg_b.
Definition poison_task : ImageTask := mkImageTask name_a [Byte.xff; Byte.xd8].

(** One producer and two consumers.  Thread 1 finds the queue empty and goes to
    sleep; thread 0 pushes 10 and wakes it; thread 2 comes in first and takes
    the item; thread 1 finds the queue empty again and goes back to sleep. *)
Definition two_consumers : list (list (SafeQueue.call nat)) :=
  [[SafeQueue.Push 10%nat; SafeQueue.Push 11%nat]; [SafeQueue.Pop]; [SafeQueue.Pop]].

Definition two_consumers_schedule : list SafeQueue.label :=
  map (fun t => SafeQueue.Run t 1) [1; 1; 1;  0; 0; 0; 0; 0;  2; 2; 2; 2; 2; 2;  1; 1]%nat.

Definition two_consumers_state : SafeQueue.state nat :=
  SafeQueue.mkState [] None
    [SafeQueue.mkThread SafeQueue.idle [SafeQueue.Push 11%nat] [];
     SafeQueue.mkThread SafeQueue.pop_wait_sleep [] [];
     SafeQueue.mkThread SafeQueue.idle [] [10%nat]]
    [SafeQueue.Enqueued 0 10%nat; SafeQueue.Dequeued 2 10%nat;
     SafeQueue.Pop_returned 2 10%nat].

(** ** From a PUB socket to a SUB socket

    What a subscriber finds on the wire when every frame that the publisher
    sent reaches it: the frames in the order of the sends, each with the
    more-frames flag it was sent with. *)
Definition on_wire (sent : list (bytes * send_flags)) : list delivery :=
  map (fun frame => Frame (fst frame)
                          (match snd frame with sndmore => true | none => false end))
      sent.

(** ** The logger: [main]

    The loop of the data logger, which receives the messages of the sender and
    stores them in the table [processed_images]. *)

Module Logger.

(** A row of the table, by the three columns that the [INSERT] statement
    names; SQLite fills in [id] and [timestamp]. *)
Record row : Type := mkRow {
  row_filename : bytes;      (* [filename TEXT NOT NULL] *)
  image_blob : bytes;
  keypoints_blob : bytes
}.

Inductive line : Type :=
| Warning_expected_3_parts_got_1
| Warning_expected_3_parts_got_2
| Warning_received_more_than_3_parts
| SQLite_bind_error_filename
| SQLite_bind_error_image_blob
| SQLite_bind_error_keypoints_blob
| Error_inserting_data
| Logged_image (filename : bytes) (kilobytes : nat) (keypoint_count : nat).

(** The calls into SQLite that a pass makes once it has a whole message. *)
Inductive sqlite_call : Type :=
| bind_filename          (* [sqlite3_bind_text(stmt, 1, ...)] *)
| bind_image_blob        (* [sqlite3_bind_blob(stmt, 2, ...)] *)
| bind_keypoints_blob    (* [sqlite3_bind_blob(stmt, 3, ...)] *)
| step_insert.           (* [sqlite3_step(stmt)] *)

Record logger : Type := mkLogger {
  subscriber : socket;
  table : list row;          (* rows inserted so far, oldest first *)
  cerr : list line;
  cout : list line;
  resets : nat               (* calls of [sqlite3_reset] so far *)
}.

(** [sqlite3_bind_text] is given [filename.c_str()] and the length [-1]: the
    text is what stands before the first zero byte. *)
Fixpoint up_to_nul (s : bytes) : bytes :=
  match s with
  | [] => []
  | b :: rest => if Byte.eqb b Byte.x00 then [] else b :: up_to_nul rest
  end.

(** [sqlite3_bind_blob] takes the length of the blob as an [int], and the
    program gives it [size()], a [size_t]: the conversion keeps the low 32
    bits, read as a two's-complement number. *)
Definition int_of_size (size : nat) : Z := int_of_bits (Z.of_nat size mod 2 ^ 32).

Section Main.

Variable target : endianness.

(** Whether a call into SQLite succeeds is not up to the program:
    [sqlite_ok n c] tells whether call [c] does, in the pass that has made the
    [n]-th call of [sqlite3_reset]. *)
Variable sqlite_ok : nat -> sqlite_call -> bool.

(** Nor is what [sqlite3_bind_blob] keeps of a buffer when the length it is
    given is negative: the documentation of SQLite leaves that open. *)
Variable kept_of_negative_length : nat -> sqlite_call -> bytes -> bytes.

(** What [sqlite3_bind_blob(stmt, i, msg.data(), msg.size(), SQLITE_TRANSIENT)]
    binds: the first bytes of the message, as many as the length says.  A
    message of [2^31] bytes or more is not bound whole. *)
Definition bound_blob (n : nat) (c : sqlite_call) (msg : bytes) : bytes :=
  let length_given := int_of_size (length msg) in
  if length_given <? 0 then kept_of_negative_length n c msg
  else firstn (Z.to_nat length_given) msg.

(** [keypoint_count]: the size of what [deserialize_keypoints] returns, and
    [0] when it throws ([catch (...)]). *)
Definition keypoint_count (kps_vec : bytes) : nat :=
  match deserialize_keypoints target kps_vec with
  | Returns keypoints => length keypoints
  | Throws _ => 0%nat
  end.

(** From [std::string filename = name_msg.to_string();] to the end of the
    loop body. *)
Definition insert (name_msg img_msg kps_msg : bytes) (s : socket) (l : logger) : logger :=
  let filename := name_msg in
  let n := resets l in
  let failed line := mkLogger s (table l) (cerr l ++ [line]) (cout l) (S n) in
  if negb (sqlite_ok n bind_filename) then failed SQLite_bind_error_filename
  else if negb (sqlite_ok n bind_image_blob) then failed SQLite_bind_error_image_blob
  else if negb (sqlite_ok n bind_keypoints_blob) then failed SQLite_bind_error_keypoints_blob
  else if negb (sqlite_ok n step_insert) then failed Error_inserting_data
  else
    mkLogger s
      (table l ++ [mkRow (up_to_nul filename)
                         (bound_blob n bind_image_blob img_msg)
                         (bound_blob n bind_keypoints_blob kps_msg)])
      (cerr l)
      (cout l ++ [Logged_image filename (length img_msg / 1024) (keypoint_count kps_msg)])
      (S n).

Definition warn (line : line) (s : socket) (l : logger) : logger :=
  mkLogger s (table l) (cerr l ++ [line]) (cout l) (resets l).

Definition moved_on (s : socket) (l : logger) : logger :=
  mkLogger s (table l) (cerr l) (cout l) (resets l).

(** One pass through the body of [while (true)]. *)
Definition logger_pass (l : logger) : logger * pass :=
  match recv (subscriber l) with
  | None => (l, Blocked)
  | Some (None, s) => (moved_on s l, Continue)
  | Some (Some name_msg, s) =>
    if negb (rcvmore s) then (warn Warning_expected_3_parts_got_1 s l, Continue)
    else
      match recv s with
      | None => (moved_on s l, Blocked)
      | Some (None, s) => (moved_on s l, Continue)
      | Some (Some img_msg, s) =>
        if negb (rcvmore s) then (warn Warning_expected_3_parts_got_2 s l, Continue)
        else
          match recv s with
          | None => (moved_on s l, Blocked)
          | Some (None, s) => (moved_on s l, Continue)
          | Some (Some kps_msg, s) =>
            if rcvmore s then
              let '(s, p) := flush_extras (incoming s) (rcvmore s) in
              (warn Warning_received_more_than_3_parts s l, p)
            else (insert name_msg img_msg kps_msg s l, Continue)
          end
      end
  end.

(** [passes] passes through the loop, stopping early when a call blocks. *)
Fixpoint logger_loop (passes : nat) (l : logger) : logger * pass :=
  match passes with
  | O => (l, Continue)
  | S n =>
    match logger_pass l with
    | (l', Continue) => logger_loop n l'
    | (l', Blocked) => (l', Blocked)
    end
  end.

End Main.

(** The logger when its loop starts, with [wire] still to come. *)
Definition start (wire : list delivery) : logger :=
  mkLogger (mkSocket wire false) [] [] [] 0.

(** A message that [sqlite3_bind_blob] binds whole. *)
Definition fits_int (msg : bytes) : Prop := Z.of_nat (length msg) < 2 ^ 31.

(** The row and the line that one inbound message gives rise to when SQLite
    takes it and its frames are bound whole. *)
Definition rows_of_message (frames : list bytes) : list row :=
  match frames with
  | [name; img; kps] => [mkRow (up_to_nul name) img kps]
  | _ => []
  end.

Definition warnings_of_message (frames : list bytes) : list line :=
  match frames with
  | [] => []
  | [_] => [Warning_expected_3_parts_got_1]
  | [_; _] => [Warning_expected_3_parts_got_2]
  | [_; _; _] => []
  | _ :: _ :: _ :: _ :: _ => [Warning_received_more_than_3_parts]
  end.

Definition printed_of_message (target : endianness) (frames : list bytes) : list line :=
  match frames with
  | [name; img; kps] => [Logged_image name (length img / 1024) (keypoint_count target kps)]
  | _ => []
  end.

Definition row_of_result (result : ProcessedTask) : row :=
  mkRow (up_to_nul (filename result)) (img_buffer result) (keypoints_buffer result).

(** An SQLite whose calls all succeed, and which keeps nothing of a buffer
    given with a negative length. *)
Definition sqlite_works : nat -> sqlite_call -> bool := fun _ _ => true.
Definition keeps_nothing : nat -> sqlite_call -> bytes -> bytes := fun _ _ _ => [].

End Logger.

(** ** The generator: [find_available_images] and [main]

    The generator scans a directory over and over and publishes every image
    it can read as a message of two frames.  What stands before the loop of
    [main] (the check of the directory, the bind of the publisher) is left
    out, and so are the calls of [sleep_for]. *)

Module Generator.

(** [::tolower], in the C locale: a capital letter becomes the small one, and
    every other character code up to 127 is left as it is.  A byte above 127
    is left as it is here too. *)
Definition tolower (c : byte) : byte :=
  if (0x41 <=? byte.unsigned c) && (byte.unsigned c <=? 0x5a)
  then byte.of_Z (byte.unsigned c + 0x20)
  else c.

Definition dot_jpg : bytes := [Byte.x2e; Byte.x6a; Byte.x70; Byte.x67].
Definition dot_jpeg : bytes := [Byte.x2e; Byte.x6a; Byte.x70; Byte.x65; Byte.x67].
Definition dot_png : bytes := [Byte.x2e; Byte.x70; Byte.x6e; Byte.x67].

Definition string_eqb (a b : bytes) : bool :=
  if list_eq_dec Byte.byte_eq_dec a b then true else false.

(** What [entry.is_regular_file()] gives: [true], [false], or, when the file
    system fails on the entry, a [fs::filesystem_error]. *)
Inductive file_status : Type :=
| Regular_file
| Other_file
| Status_error (what : string).

(** An entry of the directory, as [fs::directory_iterator] gives it. *)
Record entry : Type := mkEntry {
  is_regular_file : file_status;
  path : bytes                 (* [entry.path().string()] *)
}.

(** An entry on which [is_regular_file] returns. *)
Definition status_known (e : entry) : Prop :=
  match is_regular_file e with
  | Status_error _ => False
  | _ => True
  end.

(** What a scan meets at [dir_path].  [fs::exists], [fs::is_directory], the
    constructor of [fs::directory_iterator] and its increment ask the file
    system, and throw [fs::filesystem_error] when that fails.  The class is
    derived from [std::runtime_error], as which [main] catches it: such an
    exception is a [runtime_error] here, with its [what()]. *)
Inductive directory : Type :=
| Missing                        (* [fs::exists] returns [false] *)
| Not_a_directory                (* [fs::is_directory] returns [false] *)
| Cannot_scan (what : string)    (* one of the calls before the first entry throws *)
| Listing (entries : list entry) (broken : option string).
    (* the entries that the iterator gives, and what its increment throws
       after the last of them, if it throws *)

(** [frame_count] is an [int]. *)
Definition INT_MAX : Z := 2 ^ 31 - 1.

(** How a run of the loop stands: the loop goes on; or a call has thrown an
    exception that nothing catches, and the process has ended; or
    [frame_count++] has met [INT_MAX], from where on the program has no defined
    behaviour. *)
Inductive ending : Type :=
| Running
| Uncaught (e : exception)
| Overflow.

Inductive line : Type :=
| Scan_error (what : string)
| Waiting_for_images
| Warning_could_not_read (full_path : bytes)
| Sent_image (filename_only : bytes) (frame_count : Z) (kilobytes : nat).

Record generator : Type := mkGenerator {
  published : list (bytes * send_flags);   (* frames sent, oldest first *)
  cout : list line;
  cerr : list line;
  frame_count : Z
}.

(** OpenCV, as far as the generator uses it.  Every call may throw. *)
Record Imgcodecs : Type := mkImgcodecs {
  Mat : Type;
  Mat_empty : Mat -> bool;                        (* [image.empty()] *)
  imread : bytes -> outcome Mat;                  (* [cv::imread(full_path, IMREAD_COLOR)] *)
  imencode : bytes -> Mat -> outcome bytes        (* [cv::imencode(extension, image, img_buffer)] *)
}.

Section Main.

(** [fs::path(p).extension().string()] and [fs::path(p).filename().string()],
    which are the standard library's. *)
Variable extension : bytes -> bytes.
Variable filename : bytes -> bytes.

Variable dir_path : string.
Variable imgcodecs : Imgcodecs.

(** As in the sender: the exception that the send made after [n] frames have
    gone out throws, if it throws. *)
Variable send_error : nat -> option exception.

(** [extension == ".jpg" || extension == ".jpeg" || extension == ".png"], on
    the extension in small letters. *)
Definition is_image_path (path_str : bytes) : bool :=
  let extension := map tolower (extension path_str) in
  string_eqb extension dot_jpg || string_eqb extension dot_jpeg
  || string_eqb extension dot_png.

(** The [for] loop over the directory, with [image_paths] as filled so far. *)
Fixpoint scan_entries (entries : list entry) (broken : option string)
    (image_paths : list bytes) : outcome (list bytes) :=
  match entries with
  | [] =>
    match broken with
    | Some what => Throws (runtime_error what)
    | None => Returns image_paths
    end
  | e :: rest =>
    match is_regular_file e with
    | Status_error what => Throws (runtime_error what)
    | Regular_file =>
      if is_image_path (path e)
      then scan_entries rest broken (image_paths ++ [path e])
      else scan_entries rest broken image_paths
    | Other_file => scan_entries rest broken image_paths
    end
  end.

(** The entries whose path the loop keeps. *)
Definition is_image (e : entry) : bool :=
  match is_regular_file e with
  | Regular_file => is_image_path (path e)
  | _ => false
  end.

Definition find_available_images (dir : directory) : outcome (list bytes) :=
  match dir with
  | Missing | Not_a_directory =>
    Throws (runtime_error ("Demo directory not found: " ++ dir_path))
  | Cannot_scan what => Throws (runtime_error what)
  | Listing entries broken => scan_entries entries broken []
  end.

(** [publisher.send(msg, flags)] *)
Definition send (msg : bytes) (flags : send_flags) (g : generator) : outcome generator :=
  match send_error (length (published g)) with
  | Some e => Throws e
  | None =>
    Returns (mkGenerator (published g ++ [(msg, flags)]) (cout g) (cerr g) (frame_count g))
  end.

(** The body of [for (const std::string& full_path : image_paths)].  No
    handler is around it: an exception that a call throws ends the process,
    and is returned next to the generator as the throwing call found it.
    [frame_count++] comes first; at [INT_MAX] the increment of the [int] has
    no defined behaviour, and the generator is returned as it stood. *)
Definition publish_image (g : generator) (full_path : bytes) : generator * ending :=
  if INT_MAX <=? frame_count g then (g, Overflow)
  else
  let g := mkGenerator (published g) (cout g) (cerr g) (frame_count g + 1) in
  match imread imgcodecs full_path with
  | Throws e => (g, Uncaught e)
  | Returns image =>
    if Mat_empty imgcodecs image then
      (mkGenerator (published g) (cout g) (cerr g ++ [Warning_could_not_read full_path])
                   (frame_count g), Running)
    else
      match imencode imgcodecs (extension full_path) image with
      | Throws e => (g, Uncaught e)
      | Returns img_buffer =>
        let filename_only := filename full_path in
        match send filename_only sndmore g with
        | Throws e => (g, Uncaught e)
        | Returns g =>
          match send img_buffer none g with
          | Throws e => (g, Uncaught e)
          | Returns g =>
            (mkGenerator (published g)
               (cout g ++ [Sent_image filename_only (frame_count g)
                             (length img_buffer / 1024)])
               (cerr g) (frame_count g), Running)
          end
        end
      end
  end.

Fixpoint publish_batch (image_paths : list bytes) (g : generator) : generator * ending :=
  match image_paths with
  | [] => (g, Running)
  | full_path :: rest =>
    match publish_image g full_path with
    | (g, Running) => publish_batch rest g
    | (g, ended) => (g, ended)
    end
  end.

(** One pass through the body of [while (true)], on what the scan of the
    directory meets this time.  The handler around the scan is for
    [std::runtime_error]. *)
Definition scan_pass (dir : directory) (g : generator) : generator * ending :=
  match find_available_images dir with
  | Throws (runtime_error what) =>
    (mkGenerator (published g) (cout g) (cerr g ++ [Scan_error what]) (frame_count g),
     Running)
  | Throws e => (g, Uncaught e)
  | Returns [] =>
    (mkGenerator (published g) (cout g ++ [Waiting_for_images]) (cerr g) (frame_count g),
     Running)
  | Returns image_paths => publish_batch image_paths g
  end.

(** The passes of the loop, one for each scan, for as long as it goes on. *)
Fixpoint scan_loop (scans : list directory) (g : generator) : generator * ending :=
  match scans with
  | [] => (g, Running)
  | dir :: rest =>
    match scan_pass dir g with
    | (g, Running) => scan_loop rest g
    | (g, ended) => (g, ended)
    end
  end.

(** The image that the generator reads at [full_path] and the buffer it
    encodes it to, when it sends one. *)
Definition encoded (full_path : bytes) : option bytes :=
  match imread imgcodecs full_path with
  | Returns image =>
    if Mat_empty imgcodecs image then None
    else match imencode imgcodecs (extension full_path) image with
         | Returns img_buffer => Some img_buffer
         | Throws _ => None
         end
  | Throws _ => None
  end.

(** The paths that a scan hands to the loop over [image_paths]: none when it
    throws. *)
Definition found (dir : directory) : list bytes :=
  match find_available_images dir with
  | Returns image_paths => image_paths
  | Throws _ => []
  end.

(** Whether the calls made for [full_path] all return. *)
Definition returns (full_path : bytes) : bool :=
  match imread imgcodecs full_path with
  | Returns image =>
    Mat_empty imgcodecs image ||
    match imencode imgcodecs (extension full_path) image with
    | Returns _ => true
    | Throws _ => false
    end
  | Throws _ => false
  end.

(** The frames that go out for [full_path], and the work item that the
    extractor makes of them. *)
Definition frames_of_image (full_path : bytes) : list (bytes * send_flags) :=
  match encoded full_path with
  | Some img_buffer => [(filename full_path, sndmore); (img_buffer, none)]
  | None => []
  end.

Definition task_of_image (full_path : bytes) : list ImageTask :=
  match encoded full_path with
  | Some img_buffer => [mkImageTask (filename full_path) img_buffer]
  | None => []
  end.

End Main.

(** Two characters that [::tolower] makes equal, the second being no capital
    letter. *)
Definition same_letter (a b : byte) : Prop :=
  a = b \/ (0x41 <= byte.unsigned a <= 0x5a /\ byte.unsigned b = byte.unsigned a + 0x20).

(** The generator when its loop starts. *)
Definition start : generator := mkGenerator [] [] [] 0.

End Generator.


(** Sample data for the generator and the logger: a codec that reads the
    bytes [ff d8 ff e0] at the path [a.jpg] and nothing elsewhere, and encodes
    an image to the bytes it was read from; the extension of every path is
    [.jpg] and its file name the whole of it. *)
Definition demo_imgcodecs : Generator.Imgcodecs :=
  Generator.mkImgcodecs bytes
    (fun image => match image with [] => true | _ => false end)
    (fun full_path => if Generator.string_eqb full_path name_a
                      then Returns jpeg_a else Returns [])
    (fun _ image => Returns image).

Definition demo_extension : bytes -> bytes := fun _ => Generator.dot_jpg.
Definition demo_filename : bytes -> bytes := fun full_path => full_path.

(** Three scans: no directory; a directory with two regular files and an
    entry that is none; a directory in which the file system fails on the
    second entry. *)
Definition demo_scans : list Generator.directory :=
  [Generator.Missing;
   Generator.Listing [Generator.mkEntry Generator.Regular_file name_a;
                      Generator.mkEntry Generator.Other_file name_a;
                      Generator.mkEntry Generator.Regular_file jpeg_b] None;
   Generator.Listing [Generator.mkEntry Generator.Regular_file name_a;
                      Generator.mkEntry (Generator.Status_error "filesystem error") jpeg_b]
                     None].

Definition name_with_nul : bytes := [Byte.x61; Byte.x00; Byte.x62].

(* ================================================================== *)
(** * Proofs *)

(** ** Lists as buffers *)

Lemma memcpy_at_end (done todo src : list byte) :
  (length src <= length todo)%nat ->
  memcpy (done ++ todo) (length done) src = (done ++ src) ++ skipn (length src) todo.
Proof.
  intros Hlen. unfold memcpy.
  rewrite firstn_app, firstn_all, Nat.sub_diag, firstn_O, app_nil_r.
  rewrite length_app.
  replace (length done + length todo - length done)%nat with (length todo) by lia.
  rewrite firstn_all2 by exact Hlen.
  rewrite skipn_app, skipn_all2 by lia.
  replace (length done + length src - length done)%nat with (length src) by lia.
  rewrite <- app_assoc. reflexivity.
Qed.

Lemma read_bytes_middle (pre s post : list byte) (off n : nat) :
  length pre = off -> length s = n -> read_bytes (pre ++ s ++ post) off n = s.
Proof.
  intros <- <-. unfold read_bytes.
  rewrite skipn_app, skipn_all, Nat.sub_diag. cbn [skipn app].
  rewrite firstn_app, firstn_all, Nat.sub_diag, firstn_O, app_nil_r. reflexivity.
Qed.

Lemma read_bytes_length (data : list byte) (off n : nat) :
  (off + n <= length data)%nat -> length (read_bytes data off n) = n.
Proof.
  intros H. unfold read_bytes. rewrite length_firstn, length_skipn. lia.
Qed.

Lemma read_bytes_split (data : list byte) (off n m : nat) :
  read_bytes data off (n + m) = read_bytes data off n ++ read_bytes data (off + n) m.
Proof.
  unfold read_bytes. rewrite (Nat.add_comm off n), <- skipn_skipn.
  generalize (skipn off data) as l. clear.
  induction n as [|n IH]; intros l; [reflexivity|].
  destruct l as [|b l]; cbn [Nat.add firstn skipn app].
  - rewrite firstn_nil. reflexivity.
  - rewrite IH. reflexivity.
Qed.

Lemma modify_at_middle {A : Type} (f : A -> A) (pre : list A) (a : A) (post : list A) :
  modify_at (length pre) f (pre ++ a :: post) = pre ++ f a :: post.
Proof.
  unfold modify_at.
  rewrite nth_error_app2, Nat.sub_diag by lia. cbn [nth_error].
  rewrite firstn_app, firstn_all, Nat.sub_diag, firstn_O, app_nil_r.
  replace (S (length pre)) with (1 + length pre)%nat by lia.
  rewrite <- skipn_skipn.
  rewrite skipn_app, skipn_all, Nat.sub_diag. reflexivity.
Qed.

(** ** Object representations round-trip *)

Lemma length_object_bytes (bo : endianness) (n : nat) (v : Z) :
  length (object_bytes bo n v) = n.
Proof.
  destruct bo; cbn [object_bytes]; rewrite ?length_rev; apply length_le_split.
Qed.

Lemma object_bits_bytes (bo : endianness) (n : nat) (v : Z) :
  object_bits bo (object_bytes bo n v) = v mod 2 ^ (Z.of_nat n * 8).
Proof.
  destruct bo; cbn [object_bits object_bytes]; rewrite ?rev_involutive;
    apply le_combine_split.
Qed.

Lemma object_bytes_bits (bo : endianness) (bs : list byte) :
  object_bytes bo (length bs) (object_bits bo bs) = bs.
Proof.
  destruct bo; cbn [object_bits object_bytes].
  - apply split_le_combine.
  - rewrite <- (length_rev bs), split_le_combine. apply rev_involutive.
Qed.

Lemma object_bytes_mod (bo : endianness) (n : nat) (v : Z) :
  object_bytes bo n (v mod 2 ^ (Z.of_nat n * 8)) = object_bytes bo n v.
Proof.
  destruct bo; cbn [object_bytes]; rewrite <- le_split_mod; reflexivity.
Qed.

Lemma object_bits_range (bo : endianness) (bs : list byte) :
  0 <= object_bits bo bs < 2 ^ (8 * Z.of_nat (length bs)).
Proof.
  destruct bo; cbn [object_bits].
  - apply le_combine_bound.
  - rewrite <- (length_rev bs). apply le_combine_bound.
Qed.

Lemma int_of_bits_mod (u : Z) :
  0 <= u < 2 ^ 32 -> int_of_bits u mod 2 ^ 32 = u.
Proof.
  intros Hu. unfold int_of_bits. destruct (u <? 2 ^ 31) eqn:E.
  - apply Z.mod_small. exact Hu.
  - replace (u - 2 ^ 32) with (u + (-1) * 2 ^ 32) by ring.
    rewrite Z_mod_plus_full. apply Z.mod_small. exact Hu.
Qed.

Lemma int_of_bits_signed (i : Z) :
  int_ok i -> int_of_bits (i mod 2 ^ 32) = i.
Proof.
  unfold int_ok, int_of_bits. intros Hi.
  destruct (Z.neg_nonneg_cases i) as [Hneg|Hpos].
  - replace (i mod 2 ^ 32) with (i + 2 ^ 32).
    + destruct (i + 2 ^ 32 <? 2 ^ 31) eqn:E; [apply Z.ltb_lt in E|]; lia.
    + apply Z.mod_unique with (q := -1); lia.
  - rewrite Z.mod_small by lia.
    destruct (i <? 2 ^ 31) eqn:E; [reflexivity|apply Z.ltb_ge in E; lia].
Qed.

Section CodecFacts.

Variable target : endianness.

Lemma length_store_float (f : float32) : length (store_float target f) = 4%nat.
Proof. apply length_object_bytes. Qed.

Lemma length_store_int (i : Z) : length (store_int target i) = 4%nat.
Proof. apply length_object_bytes. Qed.

Lemma load_store_float (f : float32) :
  float32_ok f -> load_float target (store_float target f) = f.
Proof.
  intros Hf. unfold load_float, store_float. rewrite object_bits_bytes.
  apply Z.mod_small. exact Hf.
Qed.

Lemma load_store_int (i : Z) :
  int_ok i -> load_int target (store_int target i) = i.
Proof.
  intros Hi. unfold load_int, store_int. rewrite object_bits_bytes.
  apply int_of_bits_signed. exact Hi.
Qed.

Lemma store_load_float (bs : list byte) :
  length bs = 4%nat -> store_float target (load_float target bs) = bs.
Proof.
  intros Hlen. unfold load_float, store_float, sizeof_float.
  rewrite <- Hlen. apply object_bytes_bits.
Qed.

Lemma store_load_int (bs : list byte) :
  length bs = 4%nat -> store_int target (load_int target bs) = bs.
Proof.
  intros Hlen. unfold load_int, store_int, sizeof_int.
  rewrite <- (object_bytes_mod target 4).
  change (2 ^ (Z.of_nat 4 * 8)) with (2 ^ 32).
  rewrite int_of_bits_mod.
  - rewrite <- Hlen. apply object_bytes_bits.
  - pose proof (object_bits_range target bs) as Hr. rewrite Hlen in Hr. exact Hr.
Qed.

Lemma length_keypoint_layout (kp : cv.KeyPoint) :
  length (keypoint_layout target kp) = SIZEOF_SERIALIZED_KEYPOINT.
Proof.
  unfold keypoint_layout.
  rewrite !length_app, ?length_store_float, ?length_store_int. reflexivity.
Qed.

Lemma length_flat_layout (kps : list cv.KeyPoint) :
  length (flat_map (keypoint_layout target) kps)
  = (length kps * SIZEOF_SERIALIZED_KEYPOINT)%nat.
Proof.
  induction kps as [|kp kps IH]; [reflexivity|].
  cbn [flat_map length]. rewrite length_app, length_keypoint_layout, IH. lia.
Qed.

End CodecFacts.

(** ** The encoder loop *)

Ltac size_lia :=
  unfold SIZEOF_SERIALIZED_KEYPOINT, sizeof_float, sizeof_int in *; lia.

Lemma memcpy_next (done todo src : list byte) (ptr : nat) :
  ptr = length done -> (length src <= length todo)%nat ->
  memcpy (done ++ todo) ptr src = (done ++ src) ++ skipn (length src) todo.
Proof. intros ->. apply memcpy_at_end. Qed.

Section EncoderLoop.

Variable target : endianness.

Ltac store_lengths :=
  rewrite ?length_app, ?length_skipn, ?length_store_float, ?length_store_int;
  unfold SIZEOF_SERIALIZED_KEYPOINT, sizeof_float, sizeof_int in *; lia.

Lemma serialize_step_spec (done todo : list byte) (kp : cv.KeyPoint) :
  (SIZEOF_SERIALIZED_KEYPOINT <= length todo)%nat ->
  serialize_step target (done ++ todo, length done) kp
  = ((done ++ keypoint_layout target kp) ++ skipn SIZEOF_SERIALIZED_KEYPOINT todo,
     (length done + SIZEOF_SERIALIZED_KEYPOINT)%nat).
Proof.
  intros Hroom. unfold serialize_step.
  rewrite (memcpy_next done) by store_lengths.
  do 6 (erewrite memcpy_next by store_lengths).
  rewrite ?length_store_float, ?length_store_int, !skipn_skipn.
  unfold keypoint_layout. rewrite <- !app_assoc.
  f_equal. unfold SIZEOF_SERIALIZED_KEYPOINT, sizeof_float, sizeof_int. lia.
Qed.

Lemma serialize_loop_spec (kps : list cv.KeyPoint) :
  forall done todo : list byte,
  (length kps * SIZEOF_SERIALIZED_KEYPOINT <= length todo)%nat ->
  fold_left (serialize_step target) kps (done ++ todo, length done)
  = ((done ++ flat_map (keypoint_layout target) kps)
       ++ skipn (length kps * SIZEOF_SERIALIZED_KEYPOINT) todo,
     (length done + length kps * SIZEOF_SERIALIZED_KEYPOINT)%nat).
Proof.
  induction kps as [|kp kps IH]; intros done todo Hroom.
  - cbn. rewrite app_nil_r, Nat.add_0_r. reflexivity.
  - cbn [fold_left flat_map length] in *.
    rewrite serialize_step_spec by size_lia.
    replace (length done + SIZEOF_SERIALIZED_KEYPOINT)%nat
      with (length (done ++ keypoint_layout target kp))
      by (rewrite length_app, length_keypoint_layout; reflexivity).
    rewrite IH by (rewrite length_skipn; size_lia).
    rewrite skipn_skipn, length_app, length_keypoint_layout, <- !app_assoc.
    replace (length kps * SIZEOF_SERIALIZED_KEYPOINT + SIZEOF_SERIALIZED_KEYPOINT)%nat
      with (S (length kps) * SIZEOF_SERIALIZED_KEYPOINT)%nat by size_lia.
    f_equal. size_lia.
Qed.

(** The buffer the encoder returns is the concatenation of the records'
    layouts: every byte of the pre-allocated buffer has been overwritten. *)
Lemma serialize_keypoints_flat (kps : list cv.KeyPoint) :
  serialize_keypoints target kps = flat_map (keypoint_layout target) kps.
Proof.
  unfold serialize_keypoints.
  pose proof (serialize_loop_spec kps []
                (repeat Byte.x00 (length kps * SIZEOF_SERIALIZED_KEYPOINT))) as Hloop.
  cbn [app length] in Hloop.
  rewrite Hloop by (rewrite repeat_length; lia).
  cbn [fst]. rewrite skipn_all2 by (rewrite repeat_length; lia).
  apply app_nil_r.
Qed.

(** Every [memcpy] of the encoder lands inside the buffer: when the loop
    reaches a record, its 28 bytes are still free behind [ptr]. *)
Lemma serialize_in_bounds (pre post : list cv.KeyPoint) (kp : cv.KeyPoint) :
  let buffer := repeat Byte.x00 (length (pre ++ kp :: post) * SIZEOF_SERIALIZED_KEYPOINT) in
  let st := fold_left (serialize_step target) pre (buffer, 0%nat) in
  (snd st + SIZEOF_SERIALIZED_KEYPOINT <= length (fst st))%nat.
Proof.
  cbv zeta. rewrite length_app. cbn [length].
  pose proof (serialize_loop_spec pre []
                (repeat Byte.x00 ((length pre + S (length post))
                                  * SIZEOF_SERIALIZED_KEYPOINT))) as Hloop.
  cbn [app length] in Hloop.
  rewrite Hloop by (rewrite repeat_length; size_lia).
  cbn [fst snd].
  rewrite length_app, length_flat_layout, length_skipn, repeat_length. size_lia.
Qed.

End EncoderLoop.

(** ** The decoder loop *)

Section DecoderLoop.

Variable target : endianness.

Lemma deserialize_step_spec (data : list byte) (pre post : list cv.KeyPoint)
    (kp0 : cv.KeyPoint) (off : nat) :
  deserialize_step target data (pre ++ kp0 :: post, off) (length pre)
  = (pre ++ keypoint_at target data off :: post, (off + SIZEOF_SERIALIZED_KEYPOINT)%nat).
Proof.
  unfold deserialize_step. rewrite !modify_at_middle.
  unfold keypoint_at, cv.set_pt_x, cv.set_pt_y, cv.set_size, cv.set_angle,
    cv.set_response, cv.set_octave, cv.set_class_id. cbn [cv.pt cv.x cv.y cv.size
    cv.angle cv.response cv.octave cv.class_id].
  rewrite <- !Nat.add_assoc. reflexivity.
Qed.

Lemma deserialize_loop_spec (data : list byte) (m : nat) :
  forall (pre : list cv.KeyPoint) (off : nat),
  fold_left (deserialize_step target data) (seq (length pre) m)
    (pre ++ repeat cv.KeyPoint_default m, off)
  = (pre ++ map (fun j => keypoint_at target data (off + j * SIZEOF_SERIALIZED_KEYPOINT)) (seq 0 m),
     (off + m * SIZEOF_SERIALIZED_KEYPOINT)%nat).
Proof.
  induction m as [|m IH]; intros pre off.
  - cbn. rewrite Nat.add_0_r. reflexivity.
  - cbn [seq fold_left repeat map].
    rewrite deserialize_step_spec.
    replace (S (length pre)) with (length (pre ++ [keypoint_at target data off]))
      by (rewrite length_app; cbn; lia).
    replace (pre ++ keypoint_at target data off :: repeat cv.KeyPoint_default m)
      with ((pre ++ [keypoint_at target data off]) ++ repeat cv.KeyPoint_default m)
      by (rewrite <- app_assoc; reflexivity).
    rewrite IH, <- app_assoc. cbn [app].
    rewrite <- seq_shift, map_map.
    f_equal; [|size_lia].
    f_equal. rewrite Nat.mul_0_l, Nat.add_0_r. f_equal.
    apply map_ext. intros j. f_equal. size_lia.
Qed.

(** On a well-sized buffer the decoder returns, record by record, what is
    stored at offsets 0, 28, 56, ... *)
Lemma deserialize_keypoints_spec (data : list byte) :
  (length data mod SIZEOF_SERIALIZED_KEYPOINT = 0)%nat ->
  deserialize_keypoints target data
  = Returns (map (fun j => keypoint_at target data (j * SIZEOF_SERIALIZED_KEYPOINT))
                 (seq 0 (length data / SIZEOF_SERIALIZED_KEYPOINT))).
Proof.
  intros Hmod. unfold deserialize_keypoints.
  rewrite Hmod. cbn [Nat.eqb negb].
  pose proof (deserialize_loop_spec data
                (length data / SIZEOF_SERIALIZED_KEYPOINT) [] 0) as Hloop.
  cbn [app length Nat.add] in Hloop. rewrite Hloop. reflexivity.
Qed.

Lemma deserialize_keypoints_throws (data : list byte) :
  (length data mod SIZEOF_SERIALIZED_KEYPOINT <> 0)%nat ->
  deserialize_keypoints target data
  = Throws (runtime_error "Invalid data size for keypoint deserialization.").
Proof.
  intros Hmod. unfold deserialize_keypoints.
  apply Nat.eqb_neq in Hmod. rewrite Hmod. reflexivity.
Qed.

End DecoderLoop.

(** ** Decoding what the encoder wrote, and encoding what the decoder read *)

Lemma list_of_length_4 {A : Type} (l : list A) :
  length l = 4%nat -> exists a b c d, l = [a; b; c; d].
Proof.
  destruct l as [|a [|b [|c [|d [|e l]]]]]; cbn; intros H; try discriminate.
  exists a, b, c, d. reflexivity.
Qed.

Lemma read_bytes_shift (pre l : list byte) (off n : nat) :
  read_bytes (pre ++ l) (length pre + off) n = read_bytes l off n.
Proof.
  unfold read_bytes. rewrite (Nat.add_comm (length pre) off), <- skipn_skipn.
  rewrite skipn_app, skipn_all, Nat.sub_diag. reflexivity.
Qed.

Lemma read_bytes_from_0 (data : list byte) (n : nat) :
  read_bytes data 0 n = firstn n data.
Proof. reflexivity. Qed.

Section RoundTrip.

Variable target : endianness.

Lemma keypoint_at_shift (pre l : list byte) (off : nat) :
  keypoint_at target (pre ++ l) (length pre + off) = keypoint_at target l off.
Proof.
  unfold keypoint_at. rewrite <- !Nat.add_assoc, !read_bytes_shift. reflexivity.
Qed.

Lemma keypoint_at_layout (kp : cv.KeyPoint) (rest : list byte) :
  cv.KeyPoint_ok kp -> keypoint_at target (keypoint_layout target kp ++ rest) 0 = kp.
Proof.
  intros (Hx & Hy & Hsize & Hangle & Hresponse & Hoctave & Hclass).
  unfold keypoint_at, keypoint_layout.
  destruct (list_of_length_4 _ (length_store_float target (cv.x (cv.pt kp))))
    as (x0 & x1 & x2 & x3 & Ex).
  destruct (list_of_length_4 _ (length_store_float target (cv.y (cv.pt kp))))
    as (y0 & y1 & y2 & y3 & Ey).
  destruct (list_of_length_4 _ (length_store_float target (cv.size kp)))
    as (s0 & s1 & s2 & s3 & Es).
  destruct (list_of_length_4 _ (length_store_float target (cv.angle kp)))
    as (a0 & a1 & a2 & a3 & Ea).
  destruct (list_of_length_4 _ (length_store_float target (cv.response kp)))
    as (r0 & r1 & r2 & r3 & Er).
  destruct (list_of_length_4 _ (length_store_int target (cv.octave kp)))
    as (o0 & o1 & o2 & o3 & Eo).
  destruct (list_of_length_4 _ (length_store_int target (cv.class_id kp)))
    as (c0 & c1 & c2 & c3 & Ec).
  rewrite Ex, Ey, Es, Ea, Er, Eo, Ec.
  cbn [read_bytes app skipn firstn Nat.add].
  rewrite <- Ex, <- Ey, <- Es, <- Ea, <- Er, <- Eo, <- Ec.
  rewrite !load_store_float, !load_store_int by assumption.
  destruct kp as [[? ?] ? ? ? ? ?]. reflexivity.
Qed.

Lemma decode_flat_layout (kps : list cv.KeyPoint) :
  forall pre rest : list byte,
  Forall cv.KeyPoint_ok kps ->
  map (fun j => keypoint_at target
                  (pre ++ flat_map (keypoint_layout target) kps ++ rest)
                  (length pre + j * SIZEOF_SERIALIZED_KEYPOINT))
      (seq 0 (length kps))
  = kps.
Proof.
  induction kps as [|kp kps IH]; intros pre rest Hok; [reflexivity|].
  inversion Hok as [|? ? Hkp Hkps]; subst.
  cbn [length seq map flat_map]. f_equal.
  - rewrite keypoint_at_shift, <- app_assoc. apply keypoint_at_layout. exact Hkp.
  - rewrite <- seq_shift, map_map.
    rewrite <- (IH (pre ++ keypoint_layout target kp) rest Hkps) at 2.
    apply map_ext. intros j. rewrite <- !app_assoc. f_equal.
    rewrite length_app, length_keypoint_layout. size_lia.
Qed.

Lemma layout_keypoint_at (data : list byte) (off : nat) :
  (off + SIZEOF_SERIALIZED_KEYPOINT <= length data)%nat ->
  keypoint_layout target (keypoint_at target data off)
  = read_bytes data off SIZEOF_SERIALIZED_KEYPOINT.
Proof.
  intros Hroom. unfold keypoint_layout, keypoint_at.
  cbn [cv.pt cv.x cv.y cv.size cv.angle cv.response cv.octave cv.class_id].
  rewrite !store_load_float, !store_load_int
    by (apply read_bytes_length; size_lia).
  change SIZEOF_SERIALIZED_KEYPOINT with (4 + (4 + (4 + (4 + (4 + (4 + 4))))))%nat.
  rewrite !read_bytes_split, <- !Nat.add_assoc. reflexivity.
Qed.

Lemma encode_decoded_prefix (data : list byte) (n : nat) :
  (n * SIZEOF_SERIALIZED_KEYPOINT <= length data)%nat ->
  flat_map (keypoint_layout target)
    (map (fun j => keypoint_at target data (j * SIZEOF_SERIALIZED_KEYPOINT)) (seq 0 n))
  = firstn (n * SIZEOF_SERIALIZED_KEYPOINT) data.
Proof.
  induction n as [|n IH]; intros Hroom; [reflexivity|].
  rewrite seq_S, map_app, flat_map_app, IH by size_lia.
  cbn [Nat.add map flat_map]. rewrite app_nil_r, layout_keypoint_at by size_lia.
  replace (S n * SIZEOF_SERIALIZED_KEYPOINT)%nat
    with (n * SIZEOF_SERIALIZED_KEYPOINT + SIZEOF_SERIALIZED_KEYPOINT)%nat by size_lia.
  rewrite <- !read_bytes_from_0, read_bytes_split. reflexivity.
Qed.

End RoundTrip.

(** ** The codec's contract *)

Lemma read_layout_at (target : endianness) (keypoints : list cv.KeyPoint)
    (i : nat) (kp : cv.KeyPoint) :
  nth_error keypoints i = Some kp ->
  read_bytes (flat_map (keypoint_layout target) keypoints)
             (i * SIZEOF_SERIALIZED_KEYPOINT) SIZEOF_SERIALIZED_KEYPOINT
  = keypoint_layout target kp.
Proof.
  intros Hnth. apply nth_error_split in Hnth.
  destruct Hnth as (before & after & -> & <-).
  rewrite flat_map_app. cbn [flat_map].
  apply read_bytes_middle.
  - apply length_flat_layout.
  - apply length_keypoint_layout.
Qed.

(** C6: the encoder returns exactly 28 bytes per record, the records in input
    order, each laid out as five 4-byte floats ([pt.x], [pt.y], [size], [angle],
    [response]) followed by two 4-byte ints ([octave], [class_id]); nothing comes
    before, between or after the records, and no records give no bytes. *)
Theorem serialize_keypoints_layout (target : endianness) (keypoints : list cv.KeyPoint) :
  length (serialize_keypoints target keypoints) = (28 * length keypoints)%nat /\
  serialize_keypoints target keypoints = flat_map (keypoint_layout target) keypoints /\
  (forall i kp, nth_error keypoints i = Some kp ->
     read_bytes (serialize_keypoints target keypoints) (28 * i) 28
     = store_float target (cv.x (cv.pt kp)) ++ store_float target (cv.y (cv.pt kp)) ++
       store_float target (cv.size kp) ++ store_float target (cv.angle kp) ++
       store_float target (cv.response kp) ++
       store_int target (cv.octave kp) ++ store_int target (cv.class_id kp)) /\
  (forall f : float32, length (store_float target f) = 4%nat) /\
  (forall i : Z, length (store_int target i) = 4%nat) /\
  serialize_keypoints target [] = [].
Proof.
  split; [|split; [|split; [|split; [|split]]]].
  - rewrite serialize_keypoints_flat, length_flat_layout. size_lia.
  - apply serialize_keypoints_flat.
  - intros i kp Hnth. rewrite serialize_keypoints_flat, (Nat.mul_comm 28 i).
    apply (read_layout_at target keypoints i kp Hnth).
  - apply length_store_float.
  - apply length_store_int.
  - reflexivity.
Qed.

Lemma serialize_keypoints_layout_witness :
  nth_error [cv.KeyPoint_default; kp1] 1 = Some kp1 /\
  read_bytes (serialize_keypoints BigEndian [cv.KeyPoint_default; kp1]) (28 * 1) 28
  = store_float BigEndian (cv.x (cv.pt kp1)) ++ store_float BigEndian (cv.y (cv.pt kp1)) ++
    store_float BigEndian (cv.size kp1) ++ store_float BigEndian (cv.angle kp1) ++
    store_float BigEndian (cv.response kp1) ++
    store_int BigEndian (cv.octave kp1) ++ store_int BigEndian (cv.class_id kp1).
Proof.
  split; [reflexivity|].
  apply (proj1 (proj2 (proj2 (serialize_keypoints_layout BigEndian
                                [cv.KeyPoint_default; kp1])))).
  reflexivity.
Defined.

(** C10: encoding a concatenation gives the concatenation of the encodings. *)
Theorem serialize_keypoints_app (target : endianness) (xs ys : list cv.KeyPoint) :
  serialize_keypoints target (xs ++ ys)
  = serialize_keypoints target xs ++ serialize_keypoints target ys.
Proof.
  rewrite !serialize_keypoints_flat. apply flat_map_app.
Qed.

(** C1: decoding an encoded sequence returns the very same sequence, field by
    field (floats compared by their 32-bit representation). *)
Theorem deserialize_serialize_keypoints (target : endianness) (keypoints : list cv.KeyPoint) :
  Forall cv.KeyPoint_ok keypoints ->
  deserialize_keypoints target (serialize_keypoints target keypoints) = Returns keypoints.
Proof.
  intros Hok. rewrite serialize_keypoints_flat.
  rewrite deserialize_keypoints_spec
    by (rewrite length_flat_layout; apply Nat.Div0.mod_mul).
  rewrite length_flat_layout, Nat.div_mul by discriminate.
  f_equal.
  pose proof (decode_flat_layout target keypoints [] [] Hok) as Hdec.
  cbn [app length Nat.add] in Hdec. rewrite app_nil_r in Hdec. exact Hdec.
Qed.

Lemma deserialize_serialize_keypoints_witness :
  Forall cv.KeyPoint_ok [kp1; cv.KeyPoint_default] /\
  deserialize_keypoints BigEndian (serialize_keypoints BigEndian [kp1; cv.KeyPoint_default])
  = Returns [kp1; cv.KeyPoint_default].
Proof.
  assert (Hok : Forall cv.KeyPoint_ok [kp1; cv.KeyPoint_default]).
  { repeat constructor; cbn; unfold float32_ok, int_ok; lia. }
  split; [exact Hok | exact (deserialize_serialize_keypoints BigEndian _ Hok)].
Defined.

(** C5: the decoder throws (its [std::runtime_error]) exactly on the buffers whose
    length is not a multiple of 28; on the others it returns [length / 28]
    records, the [i]-th one read from the 28 bytes at offset [28 * i]. *)
Theorem deserialize_keypoints_contract (target : endianness) (data : list byte) :
  (deserialize_keypoints target data
     = Throws (runtime_error "Invalid data size for keypoint deserialization.")
   <-> (length data mod 28 <> 0)%nat) /\
  ((length data mod 28 = 0)%nat ->
   exists keypoints,
     deserialize_keypoints target data = Returns keypoints /\
     length keypoints = (length data / 28)%nat /\
     forall i, (i < length data / 28)%nat ->
       nth_error keypoints i = Some (keypoint_at target data (28 * i))).
Proof.
  split; [split|].
  - intros Hthrow Hmod.
    rewrite deserialize_keypoints_spec in Hthrow by exact Hmod. discriminate.
  - apply deserialize_keypoints_throws.
  - intros Hmod. eexists. split; [apply deserialize_keypoints_spec; exact Hmod|].
    split.
    + rewrite length_map, length_seq. reflexivity.
    + intros i Hi.
      rewrite nth_error_map, nth_error_seq.
      change SIZEOF_SERIALIZED_KEYPOINT with 28%nat.
      apply Nat.ltb_lt in Hi. rewrite Hi. cbn [option_map Nat.add].
      rewrite (Nat.mul_comm i 28). reflexivity.
Qed.

Lemma deserialize_keypoints_contract_witness :
  (length (serialize_keypoints LittleEndian [kp1]) mod 28 = 0)%nat /\
  exists keypoints,
    deserialize_keypoints LittleEndian (serialize_keypoints LittleEndian [kp1])
      = Returns keypoints /\
    length keypoints = (length (serialize_keypoints LittleEndian [kp1]) / 28)%nat /\
    forall i, (i < length (serialize_keypoints LittleEndian [kp1]) / 28)%nat ->
      nth_error keypoints i
      = Some (keypoint_at LittleEndian (serialize_keypoints LittleEndian [kp1]) (28 * i)).
Proof.
  split; [reflexivity|].
  apply (proj2 (deserialize_keypoints_contract LittleEndian
                  (serialize_keypoints LittleEndian [kp1]))).
  reflexivity.
Defined.

(** C9: a buffer whose length is a multiple of 28 is decoded, and encoding the
    decoded records gives the buffer back byte for byte. *)
Theorem serialize_deserialize_keypoints (target : endianness) (data : list byte) :
  (length data mod 28 = 0)%nat ->
  exists keypoints,
    deserialize_keypoints target data = Returns keypoints /\
    serialize_keypoints target keypoints = data.
Proof.
  intros Hmod. eexists. split; [apply deserialize_keypoints_spec; exact Hmod|].
  pose proof (Nat.div_mod_eq (length data) 28) as Hlen. rewrite Hmod in Hlen.
  change SIZEOF_SERIALIZED_KEYPOINT with 28%nat.
  rewrite serialize_keypoints_flat, encode_decoded_prefix by size_lia.
  apply firstn_all2. size_lia.
Qed.

Lemma serialize_deserialize_keypoints_witness :
  (length sample_buffer mod 28 = 0)%nat /\
  exists keypoints,
    deserialize_keypoints LittleEndian sample_buffer = Returns keypoints /\
    serialize_keypoints LittleEndian keypoints = sample_buffer.
Proof.
  split; [reflexivity|].
  apply (serialize_deserialize_keypoints LittleEndian sample_buffer). reflexivity.
Defined.

(** ** The codec on sample data *)

Example serialize_kp1_little_endian :
  serialize_keypoints LittleEndian [kp1]
  = [Byte.x00; Byte.x00; Byte.x80; Byte.x3f;    (* pt.x = 1.0f *)
     Byte.x00; Byte.x00; Byte.x00; Byte.x40;    (* pt.y = 2.0f *)
     Byte.x00; Byte.x00; Byte.x40; Byte.x40;    (* size = 3.0f *)
     Byte.x00; Byte.x00; Byte.x80; Byte.xbf;    (* angle = -1.0f *)
     Byte.x01; Byte.x00; Byte.xc0; Byte.x7f;    (* response: a NaN *)
     Byte.xfd; Byte.xff; Byte.xff; Byte.xff;    (* octave = -3 *)
     Byte.x02; Byte.x01; Byte.x00; Byte.x00].   (* class_id = 258 *)
Proof. reflexivity. Qed.

Example serialize_kp1_big_endian :
  serialize_keypoints BigEndian [kp1]
  = [Byte.x3f; Byte.x80; Byte.x00; Byte.x00;
     Byte.x40; Byte.x00; Byte.x00; Byte.x00;
     Byte.x40; Byte.x40; Byte.x00; Byte.x00;
     Byte.xbf; Byte.x80; Byte.x00; Byte.x00;
     Byte.x7f; Byte.xc0; Byte.x00; Byte.x01;
     Byte.xff; Byte.xff; Byte.xff; Byte.xfd;
     Byte.x00; Byte.x00; Byte.x01; Byte.x02].
Proof. reflexivity. Qed.

Example deserialize_27_bytes :
  deserialize_keypoints LittleEndian (repeat Byte.x00 27)
  = Throws (runtime_error "Invalid data size for keypoint deserialization.").
Proof. reflexivity. Qed.

Example deserialize_sample_buffer :
  deserialize_keypoints LittleEndian sample_buffer
  = Returns [cv.mkKeyPoint (cv.mkPoint2f 0xFFFFFFFF 0xFFFFFFFF)
                           0xFFFFFFFF 0xFFFFFFFF 0xFFFFFFFF (-1) (-1)].
Proof. reflexivity. Qed.

(** ** More about the codec *)


Lemma int_of_bits_range (u : Z) : 0 <= u < 2 ^ 32 -> int_ok (int_of_bits u).
Proof.
  unfold int_ok, int_of_bits. intros Hu.
  destruct (u <? 2 ^ 31) eqn:E; [apply Z.ltb_lt in E | apply Z.ltb_ge in E]; lia.
Qed.

Lemma load_float_ok (target : endianness) (bs : list byte) :
  length bs = 4%nat -> float32_ok (load_float target bs).
Proof.
  intros Hlen. unfold float32_ok, load_float.
  pose proof (object_bits_range target bs) as Hr. rewrite Hlen in Hr. exact Hr.
Qed.

Lemma load_int_ok (target : endianness) (bs : list byte) :
  length bs = 4%nat -> int_ok (load_int target bs).
Proof.
  intros Hlen. unfold load_int. apply int_of_bits_range.
  pose proof (object_bits_range target bs) as Hr. rewrite Hlen in Hr. exact Hr.
Qed.

Lemma keypoint_at_ok (target : endianness) (data : list byte) (off : nat) :
  (off + SIZEOF_SERIALIZED_KEYPOINT <= length data)%nat ->
  cv.KeyPoint_ok (keypoint_at target data off).
Proof.
  intros Hroom. unfold cv.KeyPoint_ok, keypoint_at.
  cbn [cv.pt cv.x cv.y cv.size cv.angle cv.response cv.octave cv.class_id].
  repeat split;
    first [apply load_float_ok | apply load_int_ok];
    apply read_bytes_length; size_lia.
Qed.

Lemma deserialize_keypoints_returns (target : endianness) (data : list byte)
    (keypoints : list cv.KeyPoint) :
  deserialize_keypoints target data = Returns keypoints ->
  (length data mod SIZEOF_SERIALIZED_KEYPOINT = 0)%nat /\
  keypoints = map (fun j => keypoint_at target data (j * SIZEOF_SERIALIZED_KEYPOINT))
                  (seq 0 (length data / SIZEOF_SERIALIZED_KEYPOINT)).
Proof.
  intros Hret.
  destruct (Nat.eq_dec (length data mod SIZEOF_SERIALIZED_KEYPOINT) 0) as [Hmod|Hmod].
  - split; [exact Hmod|].
    rewrite (deserialize_keypoints_spec target data Hmod) in Hret.
    injection Hret as <-. reflexivity.
  - rewrite (deserialize_keypoints_throws target data Hmod) in Hret. discriminate.
Qed.

(** What the decoder returns can be held by [cv::KeyPoint] objects, and encodes
    back to the buffer it was read from. *)
Lemma deserialize_keypoints_sound (target : endianness) (data : list byte)
    (keypoints : list cv.KeyPoint) :
  deserialize_keypoints target data = Returns keypoints ->
  Forall cv.KeyPoint_ok keypoints /\
  flat_map (keypoint_layout target) keypoints = data.
Proof.
  intros Hret. destruct (deserialize_keypoints_returns _ _ _ Hret) as [Hmod ->].
  pose proof (Nat.div_mod_eq (length data) SIZEOF_SERIALIZED_KEYPOINT) as Hlen.
  rewrite Hmod in Hlen. split.
  - apply Forall_forall. intros kp Hin. apply in_map_iff in Hin.
    destruct Hin as (j & <- & Hj). apply in_seq in Hj.
    apply keypoint_at_ok.
    assert (S j <= length data / SIZEOF_SERIALIZED_KEYPOINT)%nat by lia.
    assert (S j * SIZEOF_SERIALIZED_KEYPOINT
            <= length data / SIZEOF_SERIALIZED_KEYPOINT * SIZEOF_SERIALIZED_KEYPOINT)%nat
      by (apply Nat.mul_le_mono_r; assumption).
    lia.
  - rewrite encode_decoded_prefix by lia. apply firstn_all2. lia.
Qed.

(** A sequence that encodes to a buffer is what the decoder reads from it. *)
Lemma deserialize_flat_layout (target : endianness) (keypoints : list cv.KeyPoint) :
  Forall cv.KeyPoint_ok keypoints ->
  deserialize_keypoints target (flat_map (keypoint_layout target) keypoints)
  = Returns keypoints.
Proof.
  intros Hok.
  rewrite deserialize_keypoints_spec
    by (rewrite length_flat_layout; apply Nat.Div0.mod_mul).
  rewrite length_flat_layout, Nat.div_mul by discriminate.
  f_equal.
  pose proof (decode_flat_layout target keypoints [] [] Hok) as Hdec.
  cbn [app length Nat.add] in Hdec. rewrite app_nil_r in Hdec. exact Hdec.
Qed.

(** X1: two sequences of records with the same encoding are the same sequence. *)
Theorem serialize_keypoints_injective (target : endianness) (xs ys : list cv.KeyPoint) :
  Forall cv.KeyPoint_ok xs -> Forall cv.KeyPoint_ok ys ->
  serialize_keypoints target xs = serialize_keypoints target ys -> xs = ys.
Proof.
  intros Hxs Hys Heq. rewrite !serialize_keypoints_flat in Heq.
  pose proof (deserialize_flat_layout target xs Hxs) as Hx.
  pose proof (deserialize_flat_layout target ys Hys) as Hy.
  rewrite Heq in Hx. congruence.
Qed.

(** X2: the decoder takes the concatenation of two buffers that it decodes to
    the concatenation of what it reads from each. *)
Theorem deserialize_keypoints_app (target : endianness) (a b : list byte)
    (ka kb : list cv.KeyPoint) :
  deserialize_keypoints target a = Returns ka ->
  deserialize_keypoints target b = Returns kb ->
  deserialize_keypoints target (a ++ b) = Returns (ka ++ kb).
Proof.
  intros Ha Hb.
  destruct (deserialize_keypoints_sound _ _ _ Ha) as [Hoka <-].
  destruct (deserialize_keypoints_sound _ _ _ Hb) as [Hokb <-].
  rewrite <- flat_map_app. apply deserialize_flat_layout.
  apply Forall_app. split; assumption.
Qed.

(** X3: the encoder's loop invariant.  When the loop has written the records
    [pre] and [post] are still to come, the buffer holds the layouts of [pre]
    followed by the zero bytes it was allocated with, its size is unchanged, and
    [ptr] stands at the first of those zero bytes. *)
Theorem serialize_loop_invariant (target : endianness) (pre post : list cv.KeyPoint) :
  let buffer := repeat Byte.x00 (length (pre ++ post) * SIZEOF_SERIALIZED_KEYPOINT) in
  let st := fold_left (serialize_step target) pre (buffer, 0%nat) in
  fst st = flat_map (keypoint_layout target) pre
             ++ repeat Byte.x00 (length post * SIZEOF_SERIALIZED_KEYPOINT) /\
  snd st = (length pre * SIZEOF_SERIALIZED_KEYPOINT)%nat /\
  length (fst st) = length buffer.
Proof.
  cbv zeta. rewrite length_app.
  pose proof (serialize_loop_spec target pre []
                (repeat Byte.x00 ((length pre + length post)
                                  * SIZEOF_SERIALIZED_KEYPOINT))) as Hloop.
  cbn [app length Nat.add] in Hloop.
  rewrite Hloop by (rewrite repeat_length; size_lia).
  cbn [fst snd].
  assert (Hrest : skipn (length pre * SIZEOF_SERIALIZED_KEYPOINT)
                    (repeat Byte.x00 ((length pre + length post)
                                      * SIZEOF_SERIALIZED_KEYPOINT))
                  = repeat Byte.x00 (length post * SIZEOF_SERIALIZED_KEYPOINT)).
  { rewrite Nat.mul_add_distr_r, repeat_app, skipn_app, repeat_length, Nat.sub_diag.
    rewrite skipn_all2 by (rewrite repeat_length; lia). reflexivity. }
  rewrite Hrest. repeat split.
  rewrite length_app, length_flat_layout, !repeat_length. lia.
Qed.

Lemma deserialize_loop_prefix (target : endianness) (data : list byte) (m : nat) :
  forall (pre post : list cv.KeyPoint) (off : nat),
  fold_left (deserialize_step target data) (seq (length pre) m)
    (pre ++ repeat cv.KeyPoint_default m ++ post, off)
  = (pre ++ map (fun j => keypoint_at target data (off + j * SIZEOF_SERIALIZED_KEYPOINT))
                (seq 0 m) ++ post,
     (off + m * SIZEOF_SERIALIZED_KEYPOINT)%nat).
Proof.
  induction m as [|m IH]; intros pre post off.
  - cbn. rewrite Nat.add_0_r. reflexivity.
  - cbn [seq fold_left repeat map app].
    rewrite deserialize_step_spec.
    replace (S (length pre)) with (length (pre ++ [keypoint_at target data off]))
      by (rewrite length_app; cbn; lia).
    replace (pre ++ keypoint_at target data off :: repeat cv.KeyPoint_default m ++ post)
      with ((pre ++ [keypoint_at target data off]) ++ repeat cv.KeyPoint_default m ++ post)
      by (rewrite <- app_assoc; reflexivity).
    rewrite IH, <- app_assoc. cbn [app].
    rewrite <- seq_shift, map_map.
    f_equal; [|size_lia].
    f_equal. rewrite Nat.mul_0_l, Nat.add_0_r. f_equal. f_equal.
    apply map_ext. intros j. f_equal. size_lia.
Qed.

(** X4: the decoder's loop invariant.  When the loop comes to record [i], the
    records before it have been read from the offsets 0, 28, ..., the others
    still are default-constructed, [ptr] is [28 * i], and the 28 bytes that the
    iteration reads lie inside the buffer. *)
Theorem deserialize_loop_invariant (target : endianness) (data : list byte) (i : nat) :
  (i < length data / SIZEOF_SERIALIZED_KEYPOINT)%nat ->
  let num_keypoints := (length data / SIZEOF_SERIALIZED_KEYPOINT)%nat in
  let st := fold_left (deserialize_step target data) (seq 0 i)
              (repeat cv.KeyPoint_default num_keypoints, 0%nat) in
  fst st = map (fun j => keypoint_at target data (j * SIZEOF_SERIALIZED_KEYPOINT)) (seq 0 i)
             ++ repeat cv.KeyPoint_default (num_keypoints - i) /\
  snd st = (i * SIZEOF_SERIALIZED_KEYPOINT)%nat /\
  (snd st + SIZEOF_SERIALIZED_KEYPOINT <= length data)%nat /\
  (i < length (fst st))%nat.
Proof.
  intros Hi. cbv zeta.
  set (num := (length data / SIZEOF_SERIALIZED_KEYPOINT)%nat) in *.
  pose proof (deserialize_loop_prefix target data i []
                (repeat cv.KeyPoint_default (num - i)) 0) as Hloop.
  cbn [app length Nat.add] in Hloop.
  rewrite <- repeat_app in Hloop.
  replace (i + (num - i))%nat with num in Hloop by lia.
  rewrite Hloop. cbn [fst snd].
  repeat split.
  - pose proof (Nat.Div0.mul_div_le (length data) SIZEOF_SERIALIZED_KEYPOINT) as Hlen.
    fold num in Hlen.
    assert (S i * SIZEOF_SERIALIZED_KEYPOINT <= num * SIZEOF_SERIALIZED_KEYPOINT)%nat
      by (apply Nat.mul_le_mono_r; lia).
    clearbody num. size_lia.
  - rewrite length_app, length_map, length_seq, repeat_length. lia.
Qed.

(** A buffer that the encoder wrote is taken by the decoder, whatever the
    byte orders and the field values, and holds as many records as were
    encoded. *)
Lemma deserialize_serialized_length (writer reader : endianness)
    (keypoints : list cv.KeyPoint) :
  exists decoded,
    deserialize_keypoints reader (serialize_keypoints writer keypoints) = Returns decoded /\
    length decoded = length keypoints.
Proof.
  eexists. rewrite serialize_keypoints_flat.
  rewrite deserialize_keypoints_spec
    by (rewrite length_flat_layout; apply Nat.Div0.mod_mul).
  rewrite length_flat_layout, Nat.div_mul by discriminate.
  split; [reflexivity|]. rewrite length_map, length_seq. reflexivity.
Qed.

(** X5: the buffer carries no mark of the byte order it was written in: a
    decoder for the other byte order takes it without an error and returns as
    many records as were encoded. *)
Theorem deserialize_other_byte_order (writer reader : endianness)
    (keypoints : list cv.KeyPoint) :
  exists decoded,
    deserialize_keypoints reader (serialize_keypoints writer keypoints) = Returns decoded /\
    length decoded = length keypoints /\
    Forall cv.KeyPoint_ok decoded.
Proof.
  eexists. rewrite serialize_keypoints_flat.
  assert (Hspec : deserialize_keypoints reader (flat_map (keypoint_layout writer) keypoints)
                  = Returns (map (fun j => keypoint_at reader
                                    (flat_map (keypoint_layout writer) keypoints)
                                    (j * SIZEOF_SERIALIZED_KEYPOINT))
                                 (seq 0 (length keypoints)))).
  { rewrite deserialize_keypoints_spec
      by (rewrite length_flat_layout; apply Nat.Div0.mod_mul).
    rewrite length_flat_layout, Nat.div_mul by discriminate. reflexivity. }
  split; [exact Hspec|]. split.
  - rewrite length_map, length_seq. reflexivity.
  - apply (deserialize_keypoints_sound _ _ _ Hspec).
Qed.

Lemma serialize_keypoints_injective_witness :
  Forall cv.KeyPoint_ok [kp1] /\ Forall cv.KeyPoint_ok [kp1] /\
  serialize_keypoints LittleEndian [kp1] = serialize_keypoints LittleEndian [kp1] /\
  [kp1] = [kp1].
Proof.
  assert (Hok : Forall cv.KeyPoint_ok [kp1]).
  { constructor; [|constructor]. unfold cv.KeyPoint_ok, float32_ok, int_ok. cbn. lia. }
  split; [exact Hok|]. split; [exact Hok|]. split; [reflexivity|].
  exact (serialize_keypoints_injective LittleEndian [kp1] [kp1] Hok Hok eq_refl).
Defined.

Lemma deserialize_keypoints_app_witness :
  deserialize_keypoints BigEndian sample_buffer
  = Returns [keypoint_at BigEndian sample_buffer 0] /\
  deserialize_keypoints BigEndian (serialize_keypoints BigEndian [kp1; kp1])
  = Returns [kp1; kp1] /\
  deserialize_keypoints BigEndian (sample_buffer ++ serialize_keypoints BigEndian [kp1; kp1])
  = Returns ([keypoint_at BigEndian sample_buffer 0] ++ [kp1; kp1]).
Proof.
  assert (Ha : deserialize_keypoints BigEndian sample_buffer
               = Returns [keypoint_at BigEndian sample_buffer 0]) by reflexivity.
  assert (Hb : deserialize_keypoints BigEndian (serialize_keypoints BigEndian [kp1; kp1])
               = Returns [kp1; kp1]) by (vm_compute; reflexivity).
  split; [exact Ha|]. split; [exact Hb|].
  exact (deserialize_keypoints_app BigEndian sample_buffer
           (serialize_keypoints BigEndian [kp1; kp1]) _ _ Ha Hb).
Defined.

Lemma deserialize_loop_invariant_witness :
  let data := sample_buffer ++ serialize_keypoints LittleEndian [kp1; kp1] in
  let num_keypoints := (length data / SIZEOF_SERIALIZED_KEYPOINT)%nat in
  let st := fold_left (deserialize_step LittleEndian data) (seq 0 2)
              (repeat cv.KeyPoint_default num_keypoints, 0%nat) in
  (2 < length data / SIZEOF_SERIALIZED_KEYPOINT)%nat /\
  fst st = map (fun j => keypoint_at LittleEndian data (j * SIZEOF_SERIALIZED_KEYPOINT))
               (seq 0 2)
             ++ repeat cv.KeyPoint_default (num_keypoints - 2) /\
  snd st = (2 * SIZEOF_SERIALIZED_KEYPOINT)%nat /\
  (snd st + SIZEOF_SERIALIZED_KEYPOINT <= length data)%nat /\
  (2 < length (fst st))%nat.
Proof.
  cbv zeta.
  assert (H2 : (2 < length (sample_buffer ++ serialize_keypoints LittleEndian [kp1; kp1])
                    / SIZEOF_SERIALIZED_KEYPOINT)%nat)
    by (vm_compute; lia).
  split; [exact H2|].
  exact (deserialize_loop_invariant LittleEndian
           (sample_buffer ++ serialize_keypoints LittleEndian [kp1; kp1]) 2 H2).
Defined.

(** ** The receive loop *)

Lemma flush_extras_done (incoming : list delivery) :
  flush_extras incoming false = (mkSocket incoming false, Continue).
Proof. destruct incoming; reflexivity. Qed.

Lemma flush_extras_wire (frames : list bytes) :
  forall (f : bytes) (rest : list delivery),
  flush_extras (wire (f :: frames) ++ rest) true = (mkSocket rest false, Continue).
Proof.
  induction frames as [|g frames IH]; intros f rest.
  - cbn. apply flush_extras_done.
  - change (wire (f :: g :: frames)) with (Frame f true :: wire (g :: frames)).
    cbn [app flush_extras]. apply IH.
Qed.

Lemma receive_pass_message (frame1 : bytes) (more_frames : list bytes)
    (rest : list delivery) (stale : bool) (queue : list ImageTask) (cerr : list log_line) :
  receive_pass (mkReceiver (mkSocket (wire (frame1 :: more_frames) ++ rest) stale) queue cerr)
  = (mkReceiver (mkSocket rest false)
       (queue ++ tasks_of_message (frame1 :: more_frames))
       (cerr ++ warnings_of_message (frame1 :: more_frames)),
     Continue).
Proof.
  destruct more_frames as [|frame2 [|frame3 extras]].
  - cbn. rewrite app_nil_r. reflexivity.
  - cbn. rewrite app_nil_r. reflexivity.
  - change (wire (frame1 :: frame2 :: frame3 :: extras))
      with (Frame frame1 true :: Frame frame2 true :: wire (frame3 :: extras)).
    unfold receive_pass, recv.
    cbn [subscriber incoming rcvmore app negb work_queue receiver_cerr].
    rewrite flush_extras_wire.
    cbn [tasks_of_message warnings_of_message]. rewrite app_nil_r. reflexivity.
Qed.

(** Message after message: as many passes as there are messages take all of
    them off the wire, and the loop is still running. *)
Lemma receive_loop_messages (messages : list (list bytes)) :
  forall (stale : bool) (queue : list ImageTask) (cerr : list log_line),
  Forall (fun frames => frames <> []) messages ->
  exists last_flag,
    receive_loop (length messages)
      (mkReceiver (mkSocket (flat_map wire messages) stale) queue cerr)
    = (mkReceiver (mkSocket [] last_flag)
         (queue ++ flat_map tasks_of_message messages)
         (cerr ++ flat_map warnings_of_message messages),
       Continue).
Proof.
  induction messages as [|frames messages IH]; intros stale queue cerr Hne.
  - exists stale. cbn. rewrite !app_nil_r. reflexivity.
  - inversion Hne as [|? ? Hframes Hrest]; subst.
    destruct frames as [|frame1 more_frames]; [contradiction|].
    cbn [length receive_loop flat_map].
    rewrite receive_pass_message.
    destruct (IH false (queue ++ tasks_of_message (frame1 :: more_frames))
                (cerr ++ warnings_of_message (frame1 :: more_frames)) Hrest)
      as [last_flag Hloop].
    exists last_flag. rewrite Hloop, <- !app_assoc. reflexivity.
Qed.

(** C3: a message of exactly two frames puts exactly one work item, made of its
    two frames, on the work queue; a message of one frame is logged and dropped;
    a message of three or more frames is logged, drained to its last frame and
    dropped; in every case the pass ends with the socket at the next message and
    the loop goes on. *)
Theorem receive_pass_framing (frame1 : bytes) (more_frames : list bytes)
    (rest : list delivery) (stale : bool) (queue : list ImageTask) (cerr : list log_line) :
  let frames := frame1 :: more_frames in
  let r := mkReceiver (mkSocket (wire frames ++ rest) stale) queue cerr in
  exists produced logged,
    receive_pass r = (mkReceiver (mkSocket rest false) (queue ++ produced) (cerr ++ logged),
                      Continue) /\
    (length produced = 1%nat <-> length frames = 2%nat) /\
    (length frames <> 2%nat -> produced = []) /\
    (length frames = 1%nat -> logged = [Extractor_expected_2_parts_got_1]) /\
    (forall frame2, more_frames = [frame2] ->
       produced = [mkImageTask frame1 frame2] /\ logged = []) /\
    (3 <= length frames -> logged = [Extractor_received_more_than_2_parts])%nat.
Proof.
  cbv zeta.
  exists (tasks_of_message (frame1 :: more_frames)),
         (warnings_of_message (frame1 :: more_frames)).
  split; [apply receive_pass_message|].
  destruct more_frames as [|frame2 [|frame3 extras]];
    cbn [tasks_of_message warnings_of_message length];
    repeat split; try discriminate; try reflexivity; try lia; congruence.
Qed.

Lemma receive_pass_framing_witness :
  exists produced logged,
    receive_pass (mkReceiver (mkSocket (wire [name_a; jpeg_a; jpeg_b] ++ wire [name_a; jpeg_a])
                                       false) [] [])
    = (mkReceiver (mkSocket (wire [name_a; jpeg_a]) false) ([] ++ produced) ([] ++ logged),
       Continue) /\
    (length produced = 1%nat <-> length [name_a; jpeg_a; jpeg_b] = 2%nat) /\
    (length [name_a; jpeg_a; jpeg_b] <> 2%nat -> produced = []) /\
    (length [name_a; jpeg_a; jpeg_b] = 1%nat -> logged = [Extractor_expected_2_parts_got_1]) /\
    (forall frame2, [jpeg_a; jpeg_b] = [frame2] ->
       produced = [mkImageTask name_a frame2] /\ logged = []) /\
    (3 <= length [name_a; jpeg_a; jpeg_b] -> logged = [Extractor_received_more_than_2_parts])%nat.
Proof.
  exact (receive_pass_framing name_a [jpeg_a; jpeg_b] (wire [name_a; jpeg_a]) false [] []).
Defined.

(** ** More about the receive loop *)

Lemma receive_pass_drained (stale : bool) (queue : list ImageTask) (cerr : list log_line) :
  receive_pass (mkReceiver (mkSocket [] stale) queue cerr)
  = (mkReceiver (mkSocket [] stale) queue cerr, Blocked).
Proof. reflexivity. Qed.

Lemma receive_loop_passes (messages : list (list bytes)) :
  Forall (fun frames => frames <> []) messages ->
  forall (passes : nat) (stale : bool) (queue : list ImageTask) (cerr : list log_line),
  exists last_flag,
    receive_loop passes (mkReceiver (mkSocket (flat_map wire messages) stale) queue cerr)
    = (mkReceiver (mkSocket (flat_map wire (skipn passes messages)) last_flag)
         (queue ++ flat_map tasks_of_message (firstn passes messages))
         (cerr ++ flat_map warnings_of_message (firstn passes messages)),
       if (length messages <? passes)%nat then Blocked else Continue).
Proof.
  induction 1 as [|frames messages Hframes Hrest IH]; intros passes stale queue cerr.
  - exists stale. destruct passes; cbn; rewrite !app_nil_r; reflexivity.
  - destruct passes as [|passes].
    + exists stale. cbn [receive_loop firstn skipn flat_map]. rewrite !app_nil_r. reflexivity.
    + destruct frames as [|frame1 more_frames]; [contradiction|].
      cbn [receive_loop flat_map firstn skipn length].
      rewrite receive_pass_message.
      destruct (IH passes false (queue ++ tasks_of_message (frame1 :: more_frames))
                  (cerr ++ warnings_of_message (frame1 :: more_frames)))
        as [last_flag Hloop].
      exists last_flag. rewrite Hloop, <- !app_assoc. reflexivity.
Qed.

Lemma tasks_of_message_two (frames : list bytes) :
  tasks_of_message frames
  = if (length frames =? 2)%nat
    then [mkImageTask (nth 0 frames []) (nth 1 frames [])] else [].
Proof. destruct frames as [|f1 [|f2 [|f3 frames]]]; reflexivity. Qed.

Lemma warnings_of_message_length (frames : list bytes) :
  frames <> [] ->
  length (warnings_of_message frames) = if (length frames =? 2)%nat then 0%nat else 1%nat.
Proof. destruct frames as [|f1 [|f2 [|f3 frames]]]; [contradiction| | |]; reflexivity. Qed.

Lemma flat_map_tasks_of_message (messages : list (list bytes)) :
  flat_map tasks_of_message messages
  = map (fun frames => mkImageTask (nth 0 frames []) (nth 1 frames []))
        (filter (fun frames => (length frames =? 2)%nat) messages).
Proof.
  induction messages as [|frames messages IH]; [reflexivity|].
  cbn [flat_map filter]. rewrite tasks_of_message_two, IH.
  destruct (length frames =? 2)%nat; reflexivity.
Qed.

Lemma flat_map_warnings_of_message (messages : list (list bytes)) :
  Forall (fun frames => frames <> []) messages ->
  length (flat_map warnings_of_message messages)
  = length (filter (fun frames => negb (length frames =? 2)%nat) messages).
Proof.
  induction 1 as [|frames messages Hframes Hrest IH]; [reflexivity|].
  cbn [flat_map filter]. rewrite length_app, warnings_of_message_length, IH by assumption.
  destruct (length frames =? 2)%nat; reflexivity.
Qed.

(** X6: the receive loop on a stream of messages.  After any number of passes
    the work queue holds one item for each two-frame message among the messages
    taken off the wire so far, in the order of arrival and made of its two
    frames; [std::cerr] has one line for each of the other messages; the
    messages not yet taken are still on the wire; and the loop is blocked in
    [recv] exactly when it has made more passes than there were messages. *)
Theorem receive_loop_stream (messages : list (list bytes)) (passes : nat) (stale : bool) :
  Forall (fun frames => frames <> []) messages ->
  let taken := firstn passes messages in
  let two_frames := fun frames : list bytes => (length frames =? 2)%nat in
  exists r p,
    receive_loop passes (mkReceiver (mkSocket (flat_map wire messages) stale) [] [])
    = (r, p) /\
    work_queue r = map (fun frames => mkImageTask (nth 0 frames []) (nth 1 frames []))
                       (filter two_frames taken) /\
    length (receiver_cerr r) = length (filter (fun frames => negb (two_frames frames)) taken) /\
    incoming (subscriber r) = flat_map wire (skipn passes messages) /\
    (p = Blocked <-> (length messages < passes)%nat).
Proof.
  intros Hne. cbv zeta.
  destruct (receive_loop_passes messages Hne passes stale [] []) as [last_flag Hloop].
  eexists. eexists. split; [exact Hloop|].
  cbn [work_queue receiver_cerr subscriber incoming app].
  split; [apply flat_map_tasks_of_message|].
  split.
  { apply flat_map_warnings_of_message.
    apply Forall_forall. intros frames Hin. apply (proj1 (Forall_forall _ _) Hne).
    rewrite <- (firstn_skipn passes messages). apply in_or_app. left. exact Hin. }
  split; [reflexivity|].
  destruct (length messages <? passes)%nat eqn:E;
    [apply Nat.ltb_lt in E | apply Nat.ltb_ge in E]; split; intros H;
    try reflexivity; try discriminate; try assumption; lia.
Qed.

Lemma receive_loop_stream_witness :
  Forall (fun frames : list bytes => frames <> []) [[name_a; jpeg_a]; [name_a]] /\
  exists r p,
    receive_loop 3 (mkReceiver (mkSocket (flat_map wire [[name_a; jpeg_a]; [name_a]]) false)
                      [] [])
    = (r, p) /\
    work_queue r = [mkImageTask name_a jpeg_a] /\
    length (receiver_cerr r) = 1%nat /\
    incoming (subscriber r) = [] /\
    (p = Blocked <-> (2 < 3)%nat).
Proof.
  assert (Hne : Forall (fun frames : list bytes => frames <> []) [[name_a; jpeg_a]; [name_a]])
    by (repeat constructor; discriminate).
  split; [exact Hne|].
  exact (receive_loop_stream [[name_a; jpeg_a]; [name_a]] 3 false Hne).
Defined.

(** X7: one pass of the receive loop, whatever is on the wire (frames with any
    flags, calls of [recv] that return nothing, a wire that runs dry halfway).
    The pass leaves what was queued and logged in place, adds at most one item
    or one line but never both, and an item it adds is made of the first two
    frames that the pass received, of which the first had the more-frames flag
    and the second had not. *)
Theorem receive_pass_any_wire (r : receiver) :
  let '(r', p) := receive_pass r in
  exists produced logged,
    work_queue r' = work_queue r ++ produced /\
    receiver_cerr r' = receiver_cerr r ++ logged /\
    (length produced + length logged <= 1)%nat /\
    (forall task, produced = [task] ->
       p = Continue /\
       exists rest,
         incoming (subscriber r)
         = Frame (task_filename task) true :: Frame (task_img_buffer task) false :: rest /\
         incoming (subscriber r') = rest).
Proof.
  destruct r as [[deliveries stale] queue cerr].
  unfold receive_pass, recv. cbn [subscriber incoming rcvmore work_queue receiver_cerr].
  destruct deliveries as [|[name_msg [|]|] [|[img_msg [|]|] rest2]];
    cbn [rcvmore incoming negb subscriber work_queue receiver_cerr];
    try destruct (flush_extras rest2 true) as [s p];
    cbn [rcvmore incoming negb subscriber work_queue receiver_cerr];
    lazymatch goal with
    | |- context [mkImageTask ?name ?img] =>
      exists [mkImageTask name img], [];
      rewrite !app_nil_r; split; [reflexivity|]; split; [reflexivity|];
      split; [cbn; lia|];
      intros task Htask; injection Htask as <-; split; [reflexivity|];
      eexists; split; reflexivity
    | |- context [_ ++ [?line]] =>
      exists [], [line];
      rewrite !app_nil_r; split; [reflexivity|]; split; [reflexivity|];
      split; [cbn; lia|]; intros task Htask; discriminate Htask
    | |- _ =>
      exists [], [];
      rewrite !app_nil_r; split; [reflexivity|]; split; [reflexivity|];
      split; [cbn; lia|]; intros task Htask; discriminate Htask
    end.
Qed.

(** ** The worker *)

Section WorkerFacts.

Variable target : endianness.
Variable opencv : OpenCV.

Lemma process_item_decode_failed (sift : SIFT opencv) (task : ImageTask) (image : Mat opencv) :
  imdecode opencv (task_img_buffer task) = Returns image -> Mat_empty opencv image = true ->
  process_item target opencv sift task = Decode_failed.
Proof. intros Hdec Hempty. unfold process_item. rewrite Hdec, Hempty. reflexivity. Qed.

(** What the loop pushes and prints on [std::cout], and whether it is still
    running, does not depend on what was logged or counted before. *)
Lemma worker_loop_same_output (id : Z) (sift : SIFT opencv) (tasks : list ImageTask) :
  forall w1 w2, same_output w1 w2 ->
  same_output (worker_loop target opencv id sift tasks w1)
              (worker_loop target opencv id sift tasks w2).
Proof.
  induction tasks as [|task tasks IH]; intros w1 w2 (Hq & Hout & Hst); cbn [worker_loop].
  - repeat split; assumption.
  - destruct (process_item target opencv sift task) as [|result n|e].
    + apply IH. repeat split; cbn; assumption.
    + apply IH. repeat split; cbn; congruence.
    + repeat split; cbn; assumption.
Qed.

Lemma worker_loop_drop_item (id : Z) (sift : SIFT opencv) (task : ImageTask)
    (rest : list ImageTask) :
  process_item target opencv sift task = Decode_failed ->
  forall (before : list ImageTask) (w : worker),
  same_output (worker_loop target opencv id sift (before ++ task :: rest) w)
              (worker_loop target opencv id sift (before ++ rest) w).
Proof.
  intros Hfail. induction before as [|t before IH]; intros w.
  - cbn [app worker_loop]. rewrite Hfail.
    apply worker_loop_same_output. repeat split; reflexivity.
  - cbn [app worker_loop].
    destruct (process_item target opencv sift t) as [|result n|e].
    + apply IH.
    + apply IH.
    + repeat split; reflexivity.
Qed.

Lemma process_item_pushed (sift : SIFT opencv) (task : ImageTask)
    (result : ProcessedTask) (n : nat) :
  process_item target opencv sift task = Pushed result n ->
  exists keypoints,
    result = mkProcessedTask (task_filename task) (task_img_buffer task)
                             (serialize_keypoints target keypoints).
Proof.
  unfold process_item.
  destruct (imdecode opencv (task_img_buffer task)) as [image|e]; [|discriminate].
  destruct (Mat_empty opencv image); [discriminate|].
  destruct (cvtColor opencv image) as [gray|e]; [|discriminate].
  destruct (detect opencv sift gray) as [keypoints|e]; [|discriminate].
  intros Heq. injection Heq as <- _. exists keypoints. reflexivity.
Qed.

Lemma worker_loop_forwards (id : Z) (sift : SIFT opencv) (tasks : list ImageTask) :
  forall w, Forall (forwards target tasks) (result_queue w) ->
  Forall (forwards target tasks) (result_queue (worker_loop target opencv id sift tasks w)).
Proof.
  assert (Hgen : forall todo w,
             incl todo tasks -> Forall (forwards target tasks) (result_queue w) ->
             Forall (forwards target tasks)
                    (result_queue (worker_loop target opencv id sift todo w))).
  { induction todo as [|task todo IH]; intros w Hincl Hw; cbn [worker_loop].
    - exact Hw.
    - assert (Htodo : incl todo tasks) by (intros t Ht; apply Hincl; right; exact Ht).
      destruct (process_item target opencv sift task) as [|result n|e] eqn:Hitem.
      + apply IH; [exact Htodo | exact Hw].
      + apply IH; [exact Htodo|]. cbn [result_queue].
        apply Forall_app. split; [exact Hw|]. constructor; [|constructor].
        destruct (process_item_pushed _ _ _ _ Hitem) as [keypoints ->].
        exists task, keypoints. split; [apply Hincl; left; reflexivity | reflexivity].
      + exact Hw. }
  intros w. apply Hgen. apply incl_refl.
Qed.

Lemma worker_thread_forwards (id : Z) (tasks : list ImageTask) :
  Forall (forwards target tasks) (result_queue (worker_thread target opencv id tasks)).
Proof.
  unfold worker_thread. destruct (SIFT_create opencv) as [sift|e].
  - apply worker_loop_forwards. constructor.
  - constructor.
Qed.

End WorkerFacts.

(** C7: an item whose payload decodes to an empty image is logged on
    [std::cerr] and dropped, and the loop goes on with the next item: nothing is
    pushed for it, and what the worker pushes is what it would push had the item
    never been in the queue. *)
Theorem worker_discards_undecodable_item (target : endianness) (opencv : OpenCV)
    (id : Z) (sift : SIFT opencv) (task : ImageTask) (image : Mat opencv)
    (before rest : list ImageTask) (w : worker) :
  imdecode opencv (task_img_buffer task) = Returns image ->
  Mat_empty opencv image = true ->
  worker_loop target opencv id sift (task :: rest) w
  = worker_loop target opencv id sift rest
      (mkWorker (result_queue w)
                (worker_cerr w ++ [Worker_failed_to_decode id (task_filename task)])
                (worker_cout w) (S (popped w)) (status w)) /\
  worker_loop target opencv id sift [task] w
  = mkWorker (result_queue w)
             (worker_cerr w ++ [Worker_failed_to_decode id (task_filename task)])
             (worker_cout w) (S (popped w)) (status w) /\
  same_output (worker_loop target opencv id sift (before ++ task :: rest) w)
              (worker_loop target opencv id sift (before ++ rest) w).
Proof.
  intros Hdec Hempty.
  pose proof (process_item_decode_failed target opencv sift task image Hdec Hempty) as Hfail.
  split; [|split].
  - cbn [worker_loop]. rewrite Hfail. reflexivity.
  - cbn [worker_loop]. rewrite Hfail. reflexivity.
  - apply worker_loop_drop_item. exact Hfail.
Qed.

Lemma worker_discards_undecodable_item_witness :
  imdecode demo_opencv (task_img_buffer corrupt_task) = Returns [] /\
  Mat_empty demo_opencv [] = true /\
  same_output
    (worker_loop LittleEndian demo_opencv 7 tt ([good_task] ++ corrupt_task :: [good_task])
                 worker_start)
    (worker_loop LittleEndian demo_opencv 7 tt ([good_task] ++ [good_task]) worker_start).
Proof.
  split; [reflexivity|]. split; [reflexivity|].
  apply (worker_discards_undecodable_item LittleEndian demo_opencv 7 tt corrupt_task []
           [good_task] [good_task] worker_start); reflexivity.
Defined.

(** C2, as the code has it: an exception thrown while an item is processed
    leaves the loop for the handler that closes [worker_thread]; the handler
    logs it with the worker's id and the thread function returns, so the items
    behind the bad one are never taken by this worker. *)
Theorem worker_exception_ends_worker (target : endianness) (opencv : OpenCV)
    (id : Z) (sift : SIFT opencv) (task : ImageTask) (rest : list ImageTask)
    (w : worker) (e : exception) :
  process_item target opencv sift task = Thrown e ->
  worker_loop target opencv id sift (task :: rest) w
  = mkWorker (result_queue w) (worker_cerr w ++ [Worker_error id (what e)])
             (worker_cout w) (S (popped w)) Returned.
Proof.
  intros Hthrow. cbn [worker_loop]. rewrite Hthrow. reflexivity.
Qed.

Lemma worker_exception_ends_worker_witness :
  process_item LittleEndian demo_opencv tt poison_task = Thrown (cv_Exception "detect") /\
  worker_loop LittleEndian demo_opencv 7 tt [poison_task; good_task] worker_start
  = mkWorker [] [Worker_error 7 "detect"] [] 1 Returned.
Proof.
  split; [reflexivity|].
  apply (worker_exception_ends_worker LittleEndian demo_opencv 7 tt poison_task [good_task]
           worker_start (cv_Exception "detect")).
  reflexivity.
Defined.

(** C2, as the design document has it, fails: the worker below takes an item on
    which the detector throws; it never takes the next one, which it would have
    processed, and its thread function has returned. *)
Lemma worker_resumes_after_exception_counterexample :
  process_item LittleEndian demo_opencv tt poison_task = Thrown (cv_Exception "detect") /\
  result_queue (worker_thread LittleEndian demo_opencv 7 [good_task])
    = [mkProcessedTask name_a jpeg_a (serialize_keypoints LittleEndian [kp1])] /\
  status (worker_thread LittleEndian demo_opencv 7 [good_task]) = Blocked_in_pop /\
  status (worker_thread LittleEndian demo_opencv 7 [poison_task; good_task]) = Returned /\
  popped (worker_thread LittleEndian demo_opencv 7 [poison_task; good_task]) = 1%nat /\
  result_queue (worker_thread LittleEndian demo_opencv 7 [poison_task; good_task]) = [] /\
  worker_cerr (worker_thread LittleEndian demo_opencv 7 [poison_task; good_task])
    = [Worker_error 7 "detect"].
Proof. repeat split. Qed.


(** ** More about the worker *)

Section WorkerTrace.

Variable target : endianness.
Variable opencv : OpenCV.
Variable id : Z.
Variable sift : SIFT opencv.

Lemma process_item_pushed_count (task : ImageTask) (result : ProcessedTask) (n : nat) :
  process_item target opencv sift task = Pushed result n ->
  exists keypoints,
    result = mkProcessedTask (task_filename task) (task_img_buffer task)
                             (serialize_keypoints target keypoints) /\
    n = length keypoints.
Proof.
  unfold process_item.
  destruct (imdecode opencv (task_img_buffer task)) as [image|e]; [|discriminate].
  destruct (Mat_empty opencv image); [discriminate|].
  destruct (cvtColor opencv image) as [gray|e]; [|discriminate].
  destruct (detect opencv sift gray) as [keypoints|e]; [|discriminate].
  intros Heq. injection Heq as <- <-. exists keypoints. split; reflexivity.
Qed.

(** The loop, seen from outside: it takes the first [k] items, pushes the
    results of those that gave one, in their order, and writes one line for
    each item taken. *)
Lemma worker_loop_trace (tasks : list ImageTask) :
  forall w,
  let w' := worker_loop target opencv id sift tasks w in
  exists k,
    (k <= length tasks)%nat /\
    popped w' = (popped w + k)%nat /\
    result_queue w'
    = result_queue w
      ++ flat_map (fun task => match process_item target opencv sift task with
                               | Pushed result _ => [result]
                               | _ => []
                               end) (firstn k tasks) /\
    (length (result_queue w') + length (worker_cerr w')
     = length (result_queue w) + length (worker_cerr w) + k)%nat /\
    (length (worker_cout w') + length (result_queue w)
     = length (worker_cout w) + length (result_queue w'))%nat /\
    ((status w' = status w /\ k = length tasks) \/
     (status w' = Returned /\ (0 < k)%nat /\
      exists task e, nth_error tasks (k - 1) = Some task /\
                     process_item target opencv sift task = Thrown e)).
Proof.
  induction tasks as [|task tasks IH]; intros w; cbv zeta.
  - exists 0%nat. cbn. rewrite app_nil_r. repeat split; try lia. left. split; reflexivity.
  - cbn [worker_loop].
    destruct (process_item target opencv sift task) as [|result n|e] eqn:Hitem.
    + match goal with |- context [worker_loop _ _ _ _ tasks ?w0] =>
        destruct (IH w0) as (k & Hk & Hpop & Hq & Hlen & Hout & Hst) end.
      cbn [popped result_queue worker_cerr worker_cout status] in *.
      exists (S k). cbn [firstn flat_map length]. rewrite Hitem. cbn [app].
      rewrite length_app in Hlen. cbn [length] in Hlen.
      repeat split; try lia; try assumption.
      destruct Hst as [[Hs ->]|(Hs & Hpos & task' & e & Hnth & Hthrown)].
      * left. split; [exact Hs | reflexivity].
      * right. split; [exact Hs|]. split; [lia|]. exists task', e.
        split; [|exact Hthrown].
        replace (S k - 1)%nat with (S (k - 1)) by lia. exact Hnth.
    + match goal with |- context [worker_loop _ _ _ _ tasks ?w0] =>
        destruct (IH w0) as (k & Hk & Hpop & Hq & Hlen & Hout & Hst) end.
      cbn [popped result_queue worker_cerr worker_cout status] in *.
      exists (S k). cbn [firstn flat_map length]. rewrite Hitem.
      rewrite !length_app in Hlen. do 2 rewrite ?length_app in Hout.
      cbn [length] in Hlen, Hout.
      split; [lia|]. split; [lia|].
      split; [rewrite Hq, <- app_assoc; reflexivity|].
      split; [lia|]. split; [lia|].
      destruct Hst as [[Hs ->]|(Hs & Hpos & task' & e & Hnth & Hthrown)].
      * left. split; [exact Hs | reflexivity].
      * right. split; [exact Hs|]. split; [lia|]. exists task', e.
        split; [|exact Hthrown].
        replace (S k - 1)%nat with (S (k - 1)) by lia. exact Hnth.
    + exists 1%nat. cbn [firstn flat_map length worker_catch popped result_queue
                        worker_cerr worker_cout status Nat.sub nth_error].
      rewrite Hitem, length_app. cbn [app length]. rewrite app_nil_r.
      repeat split; try lia.
      right. split; [reflexivity|]. split; [lia|]. exists task, e. split; [reflexivity|exact Hitem].
Qed.

Lemma worker_loop_decodable (tasks : list ImageTask) :
  forall w,
  Forall2 (fun result line =>
             exists keypoints,
               deserialize_keypoints target (keypoints_buffer result) = Returns keypoints /\
               line = Worker_processed id (length keypoints))
          (result_queue w) (worker_cout w) ->
  Forall2 (fun result line =>
             exists keypoints,
               deserialize_keypoints target (keypoints_buffer result) = Returns keypoints /\
               line = Worker_processed id (length keypoints))
          (result_queue (worker_loop target opencv id sift tasks w))
          (worker_cout (worker_loop target opencv id sift tasks w)).
Proof.
  induction tasks as [|task tasks IH]; intros w Hw; cbn [worker_loop].
  - exact Hw.
  - destruct (process_item target opencv sift task) as [|result n|e] eqn:Hitem.
    + apply IH. exact Hw.
    + apply IH. cbn [result_queue worker_cout].
      apply Forall2_app; [exact Hw|]. constructor; [|constructor].
      destruct (process_item_pushed_count _ _ _ Hitem) as (keypoints & -> & ->).
      cbn [keypoints_buffer].
      destruct (deserialize_serialized_length target target keypoints)
        as (decoded & Hdec & Hlen).
      exists decoded. rewrite Hlen. split; [exact Hdec | reflexivity].
    + exact Hw.
Qed.

End WorkerTrace.

(** X8: what the worker pushes.  Of the items it has taken off the work queue,
    those that gave a result have their results on the result queue, one each
    and in the order the items were taken; the worker takes items in the order
    of the queue and none twice. *)
Theorem worker_thread_results (target : endianness) (opencv : OpenCV) (id : Z)
    (sift : SIFT opencv) (tasks : list ImageTask) :
  SIFT_create opencv = Returns sift ->
  let w := worker_thread target opencv id tasks in
  (popped w <= length tasks)%nat /\
  result_queue w
  = flat_map (fun task => match process_item target opencv sift task with
                          | Pushed result _ => [result]
                          | _ => []
                          end) (firstn (popped w) tasks).
Proof.
  intros Hsift. cbv zeta. unfold worker_thread. rewrite Hsift.
  destruct (worker_loop_trace target opencv id sift tasks worker_start)
    as (k & Hk & Hpop & Hq & _).
  cbn [worker_start popped result_queue Nat.add app] in Hpop, Hq.
  rewrite Hpop. split; [exact Hk | exact Hq].
Qed.


Lemma worker_thread_decodable (target : endianness) (opencv : OpenCV) (id : Z)
    (tasks : list ImageTask) :
  Forall2 (fun result line =>
             exists keypoints,
               deserialize_keypoints target (keypoints_buffer result) = Returns keypoints /\
               line = Worker_processed id (length keypoints))
          (result_queue (worker_thread target opencv id tasks))
          (worker_cout (worker_thread target opencv id tasks)).
Proof.
  unfold worker_thread. destruct (SIFT_create opencv) as [sift|e].
  - apply worker_loop_decodable. constructor.
  - constructor.
Qed.

Lemma worker_thread_results_length (target : endianness) (opencv : OpenCV) (id : Z)
    (tasks : list ImageTask) :
  (length (result_queue (worker_thread target opencv id tasks)) <= length tasks)%nat.
Proof.
  unfold worker_thread. destruct (SIFT_create opencv) as [sift|e]; [|cbn; lia].
  destruct (worker_loop_trace target opencv id sift tasks worker_start)
    as (k & Hk & _ & Hq & _).
  rewrite Hq. cbn [worker_start result_queue app].
  transitivity (length (firstn k tasks)); [|rewrite length_firstn; lia].
  generalize (firstn k tasks). intros l.
  induction l as [|task l IH]; [reflexivity|].
  cbn [flat_map]. rewrite length_app. cbn [length].
  destruct (process_item target opencv sift task); cbn [length]; lia.
Qed.

(** X10: every buffer of keypoints that the worker pushes is one the decoder
    takes, and the number of records it holds is the number that the worker
    printed on [std::cout] for that result. *)
Theorem worker_thread_results_decodable (target : endianness) (opencv : OpenCV) (id : Z)
    (tasks : list ImageTask) :
  let w := worker_thread target opencv id tasks in
  Forall2 (fun result line =>
             exists keypoints,
               deserialize_keypoints target (keypoints_buffer result) = Returns keypoints /\
               line = Worker_processed id (length keypoints))
          (result_queue w) (worker_cout w).
Proof. cbv zeta. apply worker_thread_decodable. Qed.

Lemma worker_thread_results_witness :
  SIFT_create demo_opencv = Returns tt /\
  (popped (worker_thread LittleEndian demo_opencv 1 [good_task; corrupt_task; poison_task; good_task])
   <= 4)%nat /\
  result_queue (worker_thread LittleEndian demo_opencv 1
                  [good_task; corrupt_task; poison_task; good_task])
  = [mkProcessedTask name_a jpeg_a (serialize_keypoints LittleEndian [kp1])].
Proof.
  split; [reflexivity|].
  exact (worker_thread_results LittleEndian demo_opencv 1 tt
           [good_task; corrupt_task; poison_task; good_task] eq_refl).
Defined.


(** ** The sender *)

Section SenderFacts.

Variable send_error : nat -> option exception.

Lemma send_result_published (result : ProcessedTask) (s : sender) :
  exists sent unsent,
    published (fst (send_result send_error result s)) = published s ++ sent /\
    frames_of_result result = sent ++ unsent /\
    (snd (send_result send_error result s) = None -> unsent = []).
Proof.
  unfold send_result, send, frames_of_result.
  destruct (send_error (length (published s))) as [e|].
  { exists [], [(filename result, sndmore); (img_buffer result, sndmore);
                (keypoints_buffer result, none)].
    cbn. rewrite app_nil_r. repeat split. discriminate. }
  cbn [published].
  destruct (send_error (length (published s ++ [(filename result, sndmore)]))) as [e|].
  { exists [(filename result, sndmore)],
           [(img_buffer result, sndmore); (keypoints_buffer result, none)].
    cbn. repeat split. discriminate. }
  cbn [published].
  destruct (send_error (length ((published s ++ [(filename result, sndmore)])
                                  ++ [(img_buffer result, sndmore)]))) as [e|].
  { exists [(filename result, sndmore); (img_buffer result, sndmore)],
           [(keypoints_buffer result, none)].
    cbn. rewrite <- app_assoc. repeat split. discriminate. }
  exists [(filename result, sndmore); (img_buffer result, sndmore);
          (keypoints_buffer result, none)], [].
  cbn. rewrite <- !app_assoc. repeat split.
Qed.

(** Whatever the socket does, what has gone out is a run of whole messages,
    in the order of the results, and at most the first frames of one more. *)
Lemma sender_loop_prefix (results : list ProcessedTask) :
  forall s : sender,
  exists unsent,
    published s ++ flat_map frames_of_result results
    = published (sender_loop send_error results s) ++ unsent.
Proof.
  induction results as [|result results IH]; intros s; cbn [sender_loop flat_map].
  - exists []. reflexivity.
  - destruct (send_result_published result s) as (sent & unsent & Hpub & Hframes & Hall).
    destruct (send_result send_error result s) as [s1 [e|]]; cbn [fst snd] in Hpub, Hall.
    + exists (unsent ++ flat_map frames_of_result results).
      cbn [sender_catch published]. rewrite Hpub, Hframes, <- !app_assoc. reflexivity.
    + rewrite (Hall eq_refl), app_nil_r in Hframes.
      destruct (IH s1) as [rest Hrest]. exists rest.
      rewrite <- Hrest, Hpub, Hframes, <- app_assoc. reflexivity.
Qed.

End SenderFacts.

(** A publisher whose second send throws: the first frame of the first result
    is out, the handler has logged the error, the thread function has returned
    and the second result is never sent. *)
Example sender_thread_second_send_throws :
  sender_thread (fun n => if Nat.eqb n 1 then Some (zmq_error_t "Context was terminated") else None)
                (Returns tt)
                [mkProcessedTask name_a jpeg_a []; mkProcessedTask name_a jpeg_b []]
  = mkSender [(name_a, sndmore)] [Sender_publishing]
             [Sender_zmq_error "Context was terminated"] Returned.
Proof. reflexivity. Qed.

(** With sends that return, every result goes out whole and the loop is still
    running. *)
Lemma sender_loop_all (results : list ProcessedTask) :
  forall s : sender,
  sender_loop sends_return results s
  = mkSender (published s ++ flat_map frames_of_result results)
             (sender_cout s) (sender_cerr s) (sender_status s).
Proof.
  induction results as [|result results IH]; intros s; cbn [sender_loop flat_map].
  - rewrite app_nil_r. destruct s; reflexivity.
  - unfold send_result, send, sends_return. rewrite IH.
    cbn [published sender_cout sender_cerr sender_status frames_of_result].
    rewrite <- !app_assoc. reflexivity.
Qed.

Lemma worker_thread_single (target : endianness) (opencv : OpenCV) (id : Z)
    (task : ImageTask) :
  result_queue (worker_thread target opencv id [task]) = [] \/
  exists keypoints,
    result_queue (worker_thread target opencv id [task])
    = [mkProcessedTask (task_filename task) (task_img_buffer task)
                       (serialize_keypoints target keypoints)].
Proof.
  unfold worker_thread. destruct (SIFT_create opencv) as [sift|e]; [|left; reflexivity].
  cbn [worker_loop].
  destruct (process_item target opencv sift task) as [|result n|e] eqn:Hitem.
  - left. reflexivity.
  - right. destruct (process_item_pushed _ _ _ _ _ _ Hitem) as [keypoints ->].
    exists keypoints. reflexivity.
  - left. reflexivity.
Qed.

(** C4: for every result it pops, the sender publishes three frames in a row,
    the file name and the image bytes with [sndmore] and the keypoint buffer
    without, as long as its sends return; if one throws, what has gone out is
    still a run of whole messages and the first frames of one more.  The name
    and the image bytes of a result are those of the work item it was made
    from, which are the two frames received from the generator. *)
Theorem sender_thread_frames (target : endianness) (opencv : OpenCV) (id : Z)
    (send_error : nat -> option exception) :
  ((forall n, send_error n = None) ->
   forall results : list ProcessedTask,
     published (sender_thread send_error (Returns tt) results)
     = flat_map (fun result => [(filename result, sndmore);
                                (img_buffer result, sndmore);
                                (keypoints_buffer result, none)]) results /\
     sender_status (sender_thread send_error (Returns tt) results) = Blocked_in_pop) /\
  (forall results : list ProcessedTask,
     exists unsent,
       flat_map frames_of_result results
       = published (sender_thread send_error (Returns tt) results) ++ unsent) /\
  (forall tasks : list ImageTask,
     Forall (forwards target tasks) (result_queue (worker_thread target opencv id tasks))) /\
  (forall (name img : bytes) (rest : list delivery) (stale : bool)
          (queue : list ImageTask) (cerr : list log_line),
     work_queue (fst (receive_pass
                        (mkReceiver (mkSocket (wire [name; img] ++ rest) stale) queue cerr)))
     = queue ++ [mkImageTask name img]) /\
  ((forall n, send_error n = None) ->
   forall name img : bytes,
     let r := fst (receive_pass (mkReceiver (mkSocket (wire [name; img]) false) [] [])) in
     let w := worker_thread target opencv id (work_queue r) in
     let s := sender_thread send_error (Returns tt) (result_queue w) in
     published s = [] \/
     exists keypoints,
       published s = [(name, sndmore); (img, sndmore);
                      (serialize_keypoints target keypoints, none)]).
Proof.
  assert (Hsame : (forall n, send_error n = None) ->
                  forall results s, sender_loop send_error results s
                                    = sender_loop sends_return results s).
  { intros Hnone. induction results as [|result results IH]; intros s; [reflexivity|].
    cbn [sender_loop]. unfold send_result, send, sends_return.
    rewrite !Hnone. apply IH. }
  split; [|split; [|split; [|split]]].
  - intros Hnone results. unfold sender_thread.
    rewrite (Hsame Hnone), sender_loop_all. split; reflexivity.
  - intros results. unfold sender_thread.
    destruct (sender_loop_prefix send_error results
                (mkSender [] [Sender_publishing] [] Blocked_in_pop)) as [unsent Hpre].
    exists unsent. exact Hpre.
  - intros tasks. apply worker_thread_forwards.
  - intros. reflexivity.
  - intros Hnone name img. cbv zeta.
    change (work_queue (fst (receive_pass
              (mkReceiver (mkSocket (wire [name; img]) false) [] []))))
      with [mkImageTask name img].
    unfold sender_thread. rewrite (Hsame Hnone), sender_loop_all. cbn [published app].
    destruct (worker_thread_single target opencv id (mkImageTask name img))
      as [-> | [keypoints ->]].
    + left. reflexivity.
    + right. exists keypoints. reflexivity.
Qed.

Lemma sender_thread_frames_witness :
  (forall n, sends_return n = None) /\
  published (sender_thread sends_return (Returns tt)
               [mkProcessedTask name_a jpeg_a (serialize_keypoints LittleEndian [kp1])])
  = [(name_a, sndmore); (jpeg_a, sndmore); (serialize_keypoints LittleEndian [kp1], none)].
Proof.
  split; [reflexivity|].
  exact (proj1 (proj1 (sender_thread_frames LittleEndian demo_opencv 7 sends_return)
                  (fun n => eq_refl) _)).
Defined.

(** ** More about the sender *)

Section SenderTrace.

Variable send_error : nat -> option exception.

Lemma send_returns (msg : bytes) (flags : send_flags) (s : sender) (n : nat) :
  length (published s) = n -> send_error n = None ->
  send send_error msg flags s
  = Returns (mkSender (published s ++ [(msg, flags)])
                      (sender_cout s) (sender_cerr s) (sender_status s)).
Proof. intros <- Hnone. unfold send. rewrite Hnone. reflexivity. Qed.

Lemma send_throws (msg : bytes) (flags : send_flags) (s : sender) (n : nat) (e : exception) :
  length (published s) = n -> send_error n = Some e ->
  send send_error msg flags s = Throws e.
Proof. intros <- Hsome. unfold send. rewrite Hsome. reflexivity. Qed.

(** The three sends for one result return when the socket lets them. *)
Lemma send_result_returns (result : ProcessedTask) (s : sender) :
  (forall m, (m < 3)%nat -> send_error (length (published s) + m) = None) ->
  send_result send_error result s
  = (mkSender (published s ++ frames_of_result result)
              (sender_cout s) (sender_cerr s) (sender_status s), None).
Proof.
  intros Hnone. unfold send_result.
  rewrite (send_returns _ _ _ (length (published s) + 0))
    by (try apply Hnone; lia).
  rewrite (send_returns _ _ _ (length (published s) + 1))
    by (try apply Hnone; cbn [published]; rewrite ?length_app; cbn [length]; lia).
  rewrite (send_returns _ _ _ (length (published s) + 2))
    by (try apply Hnone; cbn [published]; rewrite ?length_app; cbn [length]; lia).
  cbn [published sender_cout sender_cerr sender_status frames_of_result].
  rewrite <- !app_assoc. reflexivity.
Qed.

(** The send that throws ends the three sends for a result where it stands. *)
Lemma send_result_throws (result : ProcessedTask) (s : sender) (n : nat) (e : exception) :
  (n < 3)%nat ->
  send_error (length (published s) + n) = Some e ->
  (forall m, (m < n)%nat -> send_error (length (published s) + m) = None) ->
  send_result send_error result s
  = (mkSender (published s ++ firstn n (frames_of_result result))
              (sender_cout s) (sender_cerr s) (sender_status s), Some e).
Proof.
  intros Hn Hsome Hnone. unfold send_result.
  destruct n as [|[|[|n]]]; [| | |lia].
  - rewrite (send_throws _ _ _ (length (published s) + 0) e) by (try exact Hsome; lia).
    cbn [firstn]. rewrite app_nil_r. destruct s; reflexivity.
  - rewrite (send_returns _ _ _ (length (published s) + 0))
      by (try apply Hnone; lia).
    rewrite (send_throws _ _ _ (length (published s) + 1) e)
      by (try exact Hsome; cbn [published]; rewrite ?length_app; cbn [length]; lia).
    reflexivity.
  - rewrite (send_returns _ _ _ (length (published s) + 0))
      by (try apply Hnone; lia).
    rewrite (send_returns _ _ _ (length (published s) + 1))
      by (try apply Hnone; cbn [published]; rewrite ?length_app; cbn [length]; lia).
    rewrite (send_throws _ _ _ (length (published s) + 2) e)
      by (try exact Hsome; cbn [published]; rewrite ?length_app; cbn [length]; lia).
    cbn [published sender_cout sender_cerr sender_status frames_of_result firstn].
    rewrite <- !app_assoc. reflexivity.
Qed.

Lemma length_frames_of_result (result : ProcessedTask) :
  length (frames_of_result result) = 3%nat.
Proof. reflexivity. Qed.

Lemma length_flat_frames (results : list ProcessedTask) :
  length (flat_map frames_of_result results) = (3 * length results)%nat.
Proof.
  induction results as [|result results IH]; [reflexivity|].
  cbn [flat_map]. rewrite length_app, IH, length_frames_of_result. cbn [length]. lia.
Qed.

(** As long as the sends return, the loop sends every result whole. *)
Lemma sender_loop_returns (results : list ProcessedTask) :
  forall s : sender,
  (forall m, (m < 3 * length results)%nat ->
             send_error (length (published s) + m) = None) ->
  sender_loop send_error results s
  = mkSender (published s ++ flat_map frames_of_result results)
             (sender_cout s) (sender_cerr s) (sender_status s).
Proof.
  induction results as [|result results IH]; intros s Hnone; cbn [sender_loop flat_map].
  - rewrite app_nil_r. destruct s; reflexivity.
  - cbn [length] in Hnone.
    rewrite send_result_returns by (intros m Hm; apply Hnone; lia).
    rewrite IH.
    + cbn [published sender_cout sender_cerr sender_status].
      rewrite <- app_assoc. reflexivity.
    + intros m Hm. cbn [published]. rewrite length_app, length_frames_of_result.
      rewrite <- Nat.add_assoc. apply Hnone. lia.
Qed.

(** The first send that throws ends the loop: the frames before it are out,
    the handler logs the exception, and the thread function returns. *)
Lemma sender_loop_throws (results : list ProcessedTask) :
  forall (s : sender) (n : nat) (e : exception),
  (n < 3 * length results)%nat ->
  send_error (length (published s) + n) = Some e ->
  (forall m, (m < n)%nat -> send_error (length (published s) + m) = None) ->
  sender_loop send_error results s
  = sender_catch
      (mkSender (published s ++ firstn n (flat_map frames_of_result results))
                (sender_cout s) (sender_cerr s) (sender_status s)) e.
Proof.
  induction results as [|result results IH]; intros s n e Hn Hsome Hnone;
    cbn [sender_loop flat_map length] in *; [lia|].
  destruct (Nat.lt_ge_cases n 3) as [Hlt|Hge].
  - rewrite (send_result_throws result s n e Hlt Hsome Hnone).
    rewrite firstn_app. change (length (frames_of_result result)) with 3%nat.
    replace (n - 3)%nat with 0%nat by lia. cbn [firstn]. rewrite app_nil_r. reflexivity.
  - rewrite send_result_returns by (intros m Hm; apply Hnone; lia).
    rewrite (IH _ (n - 3)%nat e).
    + cbn [published sender_cout sender_cerr sender_status].
      rewrite firstn_app. change (length (frames_of_result result)) with 3%nat.
      rewrite (firstn_all2 (frames_of_result result)) by (cbn; lia).
      rewrite <- app_assoc. reflexivity.
    + lia.
    + cbn [published]. rewrite length_app, length_frames_of_result.
      rewrite <- Nat.add_assoc. replace (3 + (n - 3))%nat with n by lia. exact Hsome.
    + intros m Hm. cbn [published]. rewrite length_app, length_frames_of_result.
      rewrite <- Nat.add_assoc. apply Hnone. lia.
Qed.

End SenderTrace.

(** X11: the first send that throws.  If the send made after [n] frames have
    gone out is the first to throw, the sender has published the first [n]
    frames of the results in order and nothing else, its handler has written
    one line, for a [zmq::error_t] or for another exception, and the thread
    function has returned: the results behind are never sent. *)
Theorem sender_thread_first_throw (send_error : nat -> option exception)
    (results : list ProcessedTask) (n : nat) (e : exception) :
  (n < 3 * length results)%nat ->
  send_error n = Some e ->
  (forall m, (m < n)%nat -> send_error m = None) ->
  sender_thread send_error (Returns tt) results
  = mkSender (firstn n (flat_map frames_of_result results))
             [Sender_publishing]
             [match e with
              | zmq_error_t w => Sender_zmq_error w
              | _ => Sender_error (what e)
              end]
             Returned.
Proof.
  intros Hn Hsome Hnone. unfold sender_thread.
  rewrite (sender_loop_throws send_error results _ n e Hn); [reflexivity|exact Hsome|exact Hnone].
Qed.

Lemma sender_thread_first_throw_witness :
  let send_error := fun n => if Nat.eqb n 4 then Some (zmq_error_t "Context was terminated")
                             else None in
  (4 < 3 * length [mkProcessedTask name_a jpeg_a []; mkProcessedTask name_a jpeg_b []])%nat /\
  send_error 4%nat = Some (zmq_error_t "Context was terminated") /\
  published (sender_thread send_error (Returns tt)
               [mkProcessedTask name_a jpeg_a []; mkProcessedTask name_a jpeg_b []])
  = [(name_a, sndmore); (jpeg_a, sndmore); ([], none); (name_a, sndmore)].
Proof.
  cbv zeta. split; [cbn; lia|]. split; [reflexivity|].
  refine (f_equal published
            (sender_thread_first_throw
               (fun n => if Nat.eqb n 4 then Some (zmq_error_t "Context was terminated")
                         else None)
               [mkProcessedTask name_a jpeg_a []; mkProcessedTask name_a jpeg_b []]
               4 (zmq_error_t "Context was terminated") _ eq_refl _)).
  - cbn. lia.
  - intros m Hm. do 4 (destruct m as [|m]; [reflexivity|]). lia.
Defined.

(** X12: a message left open.  When the send that throws is not the first of
    the three for a result, the last frame that went out carries [sndmore]:
    the sender leaves a message on the wire without its last frame. *)
Theorem sender_thread_open_message (send_error : nat -> option exception)
    (results : list ProcessedTask) (n : nat) (e : exception) :
  (n < 3 * length results)%nat ->
  send_error n = Some e ->
  (forall m, (m < n)%nat -> send_error m = None) ->
  let s := sender_thread send_error (Returns tt) results in
  (n mod 3 <> 0)%nat <->
  exists before data, published s = before ++ [(data, sndmore)].
Proof.
  intros Hn Hsome Hnone. cbv zeta. unfold sender_thread.
  rewrite (sender_loop_throws send_error results _ n e Hn);
    [|exact Hsome|exact Hnone].
  cbn [sender_catch published app]. clear Hsome Hnone.
  revert n Hn. induction results as [|result results IH]; intros n Hn;
    cbn [length flat_map] in *; [lia|].
  destruct (Nat.lt_ge_cases n 3) as [Hlt|Hge].
  - destruct n as [|[|[|n]]]; [| | |lia]; cbn [firstn frames_of_result app].
    + split; [intros H; exfalso; apply H; reflexivity|].
      intros (before & data & Heq). destruct before; discriminate.
    + split; [|intros _; discriminate].
      intros _. exists [], (filename result). reflexivity.
    + split; [|intros _; discriminate].
      intros _. exists [(filename result, sndmore)], (img_buffer result). reflexivity.
  - rewrite firstn_app. change (length (frames_of_result result)) with 3%nat.
    rewrite (firstn_all2 (frames_of_result result)) by (cbn; lia).
    replace (n mod 3)%nat with ((n - 3) mod 3)%nat.
    2:{ replace n with ((n - 3) + 1 * 3)%nat at 2 by lia. symmetry. apply Nat.Div0.mod_add. }
    rewrite (IH (n - 3)%nat) by lia.
    split.
    + intros (before & data & Heq). exists (frames_of_result result ++ before), data.
      rewrite Heq, app_assoc. reflexivity.
    + intros (before & data & Heq).
      destruct (firstn (n - 3) (flat_map frames_of_result results)) as [|x l] eqn:Hfirst.
      * rewrite app_nil_r in Heq.
        assert (Hlast : last (before ++ [(data, sndmore)]) (data, none)
                        = last (frames_of_result result) (data, none))
          by (rewrite Heq; reflexivity).
        rewrite last_last in Hlast. cbn in Hlast. discriminate.
      * destruct (@exists_last _ (x :: l)) as (l' & a & Hl); [discriminate|].
        rewrite Hl in Heq |- *. rewrite app_assoc in Heq.
        apply app_inj_tail in Heq. destruct Heq as [_ ->].
        exists l', data. reflexivity.
Qed.

Lemma sender_thread_open_message_witness :
  let send_error := fun n => if Nat.eqb n 4 then Some (zmq_error_t "Context was terminated")
                             else None in
  (4 < 3 * length [mkProcessedTask name_a jpeg_a []; mkProcessedTask name_a jpeg_b []])%nat /\
  send_error 4%nat = Some (zmq_error_t "Context was terminated") /\
  ((4 mod 3 <> 0)%nat <->
   exists before data,
     published (sender_thread send_error (Returns tt)
                  [mkProcessedTask name_a jpeg_a []; mkProcessedTask name_a jpeg_b []])
     = before ++ [(data, sndmore)]).
Proof.
  cbv zeta. split; [cbn; lia|]. split; [reflexivity|].
  refine (sender_thread_open_message
            (fun n => if Nat.eqb n 4 then Some (zmq_error_t "Context was terminated")
                      else None)
            [mkProcessedTask name_a jpeg_a []; mkProcessedTask name_a jpeg_b []]
            4 (zmq_error_t "Context was terminated") _ eq_refl _).
  - cbn. lia.
  - intros m Hm. do 4 (destruct m as [|m]; [reflexivity|]). lia.
Defined.


(** ** The queue *)

Section SafeQueueFacts.

Import SafeQueue.

Variable T : Type.

(** *** Replacing one thread in the list *)

Lemma nth_error_update_eq {A : Type} (l : list A) (i : nat) (a b : A) :
  nth_error l i = Some b -> nth_error (update l i a) i = Some a.
Proof.
  revert i. induction l as [|c l IH]; intros [|i]; cbn; try discriminate; auto.
Qed.

Lemma nth_error_update_ne {A : Type} (l : list A) (i j : nat) (a : A) :
  i <> j -> nth_error (update l i a) j = nth_error l j.
Proof.
  revert i j. induction l as [|c l IH]; intros [|i] [|j] Hne; cbn; try reflexivity.
  - contradiction.
  - apply IH. congruence.
Qed.

Lemma length_update {A : Type} (l : list A) (i : nat) (a : A) :
  length (update l i a) = length l.
Proof.
  revert i. induction l as [|c l IH]; intros [|i]; cbn; auto.
Qed.

Lemma list_sum_update {A : Type} (f : A -> nat) (l : list A) (i : nat) (a b : A) :
  nth_error l i = Some b ->
  (list_sum (map f (update l i a)) + f b = list_sum (map f l) + f a)%nat.
Proof.
  unfold list_sum.
  revert i. induction l as [|c l IH]; intros [|i]; cbn; try discriminate.
  - intros [= ->]. lia.
  - intros H. specialize (IH i H). lia.
Qed.

(** Every way [run] can succeed, with the state after it spelled out. *)
Ltac run_cases H th Hth Hpc :=
  unfold run in H;
  match type of H with
  | context [nth_error (threads ?s) ?t] =>
    destruct (nth_error (threads s) t) as [th|] eqn:Hth; [|discriminate H]
  end;
  destruct (at_pc th) eqn:Hpc;
  repeat match type of H with
         | context [match ?x with _ => _ end] => destruct x eqn:?
         end;
  try discriminate H;
  injection H as <-.

(** *** One thread at a time under the lock *)

Lemma asleep_no_lock (th : thread T) : asleep th = true -> holds_lock (at_pc th) = false.
Proof. unfold asleep. destruct (at_pc th); try discriminate; reflexivity. Qed.

Lemma holds_lock_wake (th : thread T) : holds_lock (at_pc (wake th)) = holds_lock (at_pc th).
Proof.
  unfold wake. destruct (asleep th) eqn:E; [|reflexivity].
  cbn. symmetry. apply asleep_no_lock. exact E.
Qed.

Lemma mutex_ok_init (programs : list (list (call T))) : mutex_ok (init programs).
Proof.
  split; cbn.
  - intros t th Hth. rewrite nth_error_map in Hth.
    destruct (nth_error programs t); cbn in Hth; [|discriminate].
    injection Hth as <-. discriminate.
  - discriminate.
Qed.

(** Case analysis on which thread a lookup in an updated list finds. *)
Ltac lookup_cases H :=
  repeat match type of H with
  | nth_error (update ?l ?i ?a) ?j = _ =>
    let E := fresh "E" in
    destruct (Nat.eq_dec i j) as [E|E];
    [ first [subst j | subst i];
      erewrite nth_error_update_eq in H
        by (first [eassumption | erewrite nth_error_update_ne by eassumption; eassumption]);
      injection H as H; try subst
    | rewrite (nth_error_update_ne _ _ _ _ E) in H ]
  end.

(** The thread that [notify_one] wakes is not the one that calls it. *)
Ltac sleeper_is_other t th Hth Hpc :=
  try match goal with
  | Hw : nth_error (threads _) ?w = Some ?sl, Ha : asleep ?sl = true |- _ =>
    assert (t <> w)
      by (intros ->; rewrite Hth in Hw; injection Hw as <-;
          unfold asleep in Ha; rewrite Hpc in Ha; discriminate Ha);
    pose proof (asleep_no_lock _ Ha)
  end.

Lemma mutex_ok_run (t w : nat) (s s' : state T) :
  mutex_ok s -> run t w s = Some s' -> mutex_ok s'.
Proof.
  intros [Hho Hoh] Hrun.
  run_cases Hrun th Hth Hpc.
  all: sleeper_is_other t th Hth Hpc.
  all: pose proof (Hho _ _ Hth) as Hown; rewrite Hpc in Hown; cbn in Hown.
  all: try specialize (Hown eq_refl).
  all: try match goal with H : is_free (mutex_ ?x) = true |- _ =>
         destruct (mutex_ x) eqn:Hfree; [discriminate H|] end.
  all: split; cbn [threads mutex_ queue_ history];
    [ intros t' th' Hth' Hl; lookup_cases Hth';
      cbn [at_pc move_to] in Hl; rewrite ?holds_lock_wake in Hl;
      try discriminate Hl; try reflexivity; try congruence;
      try (pose proof (Hho _ _ Hth' Hl); congruence)
    | intros t' Ht'; first [discriminate Ht' |
      destruct (Nat.eq_dec t t') as [<-|Hne];
      [ first [ eexists; split;
                [eapply nth_error_update_eq; eassumption | reflexivity]
              | exfalso; destruct (Hoh _ Ht') as (th0 & Hth0 & Hh0);
                rewrite Hth in Hth0; injection Hth0 as <-;
                rewrite Hpc in Hh0; discriminate Hh0 ]
      | first [ congruence
              | destruct (Hoh _ Ht') as (th0 & Hth0 & Hh0);
                exists th0; split; [|exact Hh0];
                first [ rewrite !nth_error_update_ne by congruence; exact Hth0
                      | exfalso; congruence ] ] ] ] ].
Qed.

Lemma mutex_ok_spurious (t : nat) (s s' : state T) :
  mutex_ok s -> spurious_wakeup t s = Some s' -> mutex_ok s'.
Proof.
  intros [Hho Hoh]. unfold spurious_wakeup.
  destruct (nth_error (threads s) t) as [th|] eqn:Hth; [|discriminate].
  destruct (asleep th) eqn:Hasleep; [|discriminate].
  intros [= <-]. pose proof (asleep_no_lock _ Hasleep) as Hno.
  split; cbn [threads mutex_].
  - intros t' th' Hth' Hl. lookup_cases Hth'.
    + rewrite holds_lock_wake in Hl. congruence.
    + eapply Hho; eassumption.
  - intros t' Ht'. destruct (Hoh _ Ht') as (th0 & Hth0 & Hh0).
    exists th0. split; [|exact Hh0].
    rewrite nth_error_update_ne; [exact Hth0|]. congruence.
Qed.

(** *** What is at the front of the queue belongs to the thread that looked *)

Lemma front_ready_run (t w : nat) (s s' : state T) :
  mutex_ok s -> front_ready s -> run t w s = Some s' -> front_ready s'.
Proof.
  intros [Hho Hoh] Hfr Hrun.
  pose proof (Hfr t) as Hmine.
  run_cases Hrun th Hth Hpc.
  all: sleeper_is_other t th Hth Hpc.
  all: specialize (Hmine _ eq_refl); rewrite Hpc in Hmine.
  all: pose proof (Hho _ _ Hth) as Hown; rewrite Hpc in Hown; cbn in Hown.
  all: try specialize (Hown eq_refl).
  all: intros t' th' Hth'; cbn [threads mutex_ queue_ history] in *.
  all: lookup_cases Hth'; cbn [at_pc move_to].
  all: try exact I.
  all: try (unfold wake; match goal with H : asleep _ = true |- _ => rewrite H end; exact I).
  all: try (specialize (Hfr _ _ Hth'); exact Hfr).
  all: try discriminate.
  all: try (eexists; reflexivity).
  all: destruct (at_pc th') eqn:Hpc'; try exact I; exfalso.
  all: pose proof (Hho _ _ Hth') as Hother; rewrite Hpc' in Hother; cbn in Hother.
  all: specialize (Hother eq_refl); congruence.
Qed.

Lemma front_ready_spurious (t : nat) (s s' : state T) :
  front_ready s -> spurious_wakeup t s = Some s' -> front_ready s'.
Proof.
  intros Hfr. unfold spurious_wakeup.
  destruct (nth_error (threads s) t) as [th|] eqn:Hth; [|discriminate].
  destruct (asleep th) eqn:Hasleep; [|discriminate].
  intros [= <-] t' th' Hth'. cbn [threads queue_] in *. lookup_cases Hth'.
  - unfold wake. rewrite Hasleep. exact I.
  - apply (Hfr _ _ Hth').
Qed.

Lemma front_ready_init (programs : list (list (call T))) : front_ready (init programs).
Proof.
  intros t th Hth. cbn in Hth. rewrite nth_error_map in Hth.
  destruct (nth_error programs t); cbn in Hth; [|discriminate].
  injection Hth as <-. exact I.
Qed.

(** *** Every statement run brings the threads closer to the end *)

Lemma asleep_pc (th : thread T) : asleep th = true -> at_pc th = pop_wait_sleep.
Proof. unfold asleep. destruct (at_pc th); try discriminate; reflexivity. Qed.

Lemma list_sum_cons (a : nat) (l : list nat) : list_sum (a :: l) = (a + list_sum l)%nat.
Proof. reflexivity. Qed.

Lemma sum_update (f : thread T -> nat) (l : list (thread T)) (i : nat)
    (a b : thread T) (x y : nat) :
  nth_error l i = Some b -> f b = x -> f a = y ->
  (list_sum (map f (update l i a)) + x = list_sum (map f l) + y)%nat.
Proof. intros Hb <- <-. apply list_sum_update. exact Hb. Qed.

(** The sum of [f] over the threads after a step of thread [t]; [simp]
    computes [f] on a thread whose statement is known. *)
Ltac sum_after f simp Hth :=
  match type of Hth with
  | nth_error (threads ?s) ?t = Some ?th =>
    match goal with
    | Hw : nth_error (threads s) ?w = Some ?sl, Hs : asleep ?sl = true, Hne : t <> ?w
      |- context [update (update (threads s) t ?a) ?w (wake ?sl)] =>
      let H1 := fresh "Hsum" in
      let H2 := fresh "Hsum" in
      let Ha := fresh "Hat" in
      pose proof (asleep_pc _ Hs) as Ha;
      eassert (H1 : _) by
        (eapply (sum_update f (threads s) t a th);
         [exact Hth | simp; reflexivity | simp; reflexivity]);
      eassert (H2 : _) by
        (eapply (sum_update f (update (threads s) t a) w (wake sl) sl);
         [ exact (eq_trans (nth_error_update_ne _ _ _ _ Hne) Hw)
         | simp; rewrite ?Ha; simp; reflexivity
         | unfold wake; rewrite Hs; simp; reflexivity ])
    | |- context [update (threads s) t ?a] =>
      let H1 := fresh "Hsum" in
      eassert (H1 : _) by
        (eapply (sum_update f (threads s) t a th);
         [exact Hth | simp; reflexivity | simp; reflexivity])
    end
  end.

Lemma weight_run (t w : nat) (s s' : state T) :
  run t w s = Some s' -> (weight s' < weight s)%nat.
Proof.
  intros Hrun. run_cases Hrun th Hth Hpc.
  all: sleeper_is_other t th Hth Hpc.
  all: unfold weight; cbn [threads].
  all: sum_after (@thread_weight T)
         ltac:(unfold thread_weight; cbn [at_pc calls move_to];
               repeat match goal with
                      | H : at_pc _ = _ |- _ => rewrite H
                      | H : calls _ = _ |- _ => rewrite H
                      end;
               cbn [pc_weight call_weight map]; rewrite ?list_sum_cons) Hth.
  all: lia.
Qed.

(** *** No wake-up is lost *)

Ltac simp_owes :=
  unfold owes, sleeping, asleep; cbn [at_pc calls move_to];
  repeat match goal with H : at_pc _ = _ |- _ => rewrite H end.

Lemma nobody_asleep (l : list (thread T)) :
  existsb asleep l = false <-> list_sum (map sleeping l) = 0%nat.
Proof.
  induction l as [|th l IH]; cbn [existsb map]; rewrite ?list_sum_cons.
  - split; reflexivity.
  - unfold sleeping at 1. destruct (asleep th); cbn [orb].
    + split; [discriminate | lia].
    + rewrite IH. split; lia.
Qed.

Lemma wakeups_pending_run (t w : nat) (s s' : state T) :
  wakeups_pending s -> run t w s = Some s' -> wakeups_pending s'.
Proof.
  unfold wakeups_pending. intros Hinv Hrun. run_cases Hrun th Hth Hpc.
  all: sleeper_is_other t th Hth Hpc.
  all: cbn [threads queue_].
  all: sum_after (@owes T) ltac:(simp_owes) Hth.
  all: sum_after (@sleeping T) ltac:(simp_owes) Hth.
  all: rewrite ?length_app; cbn [length] in *.
  all: repeat match goal with H : queue_ _ = _ |- _ => rewrite H in Hinv end.
  all: cbn [length] in *.
  all: repeat match goal with H : existsb asleep _ = false |- _ =>
         apply nobody_asleep in H end.
  all: lia.
Qed.

Lemma wakeups_pending_spurious (t : nat) (s s' : state T) :
  wakeups_pending s -> spurious_wakeup t s = Some s' -> wakeups_pending s'.
Proof.
  unfold wakeups_pending, spurious_wakeup. intros Hinv.
  destruct (nth_error (threads s) t) as [th|] eqn:Hth; [|discriminate].
  destruct (asleep th) eqn:Hasleep; [|discriminate].
  intros [= <-]. cbn [threads queue_].
  pose proof (asleep_pc _ Hasleep) as Hpc.
  assert (Ho : (list_sum (map owes (update (threads s) t (wake th))) + 0
                = list_sum (map owes (threads s)) + 1)%nat).
  { apply (sum_update owes _ _ _ th); [exact Hth | simp_owes; reflexivity |].
    unfold wake. rewrite Hasleep. reflexivity. }
  assert (Hs : (list_sum (map sleeping (update (threads s) t (wake th))) + 1
                = list_sum (map sleeping (threads s)) + 0)%nat).
  { apply (sum_update sleeping _ _ _ th); [exact Hth | simp_owes; reflexivity |].
    unfold wake. rewrite Hasleep. reflexivity. }
  lia.
Qed.

Lemma wakeups_pending_init (programs : list (list (call T))) :
  wakeups_pending (init programs).
Proof. intros _. cbn. lia. Qed.

(** *** What went in is what came out, what is on its way out, and what is left *)

Ltac simp_history :=
  unfold values, enqueued, dequeued, returned in *;
  rewrite ?flat_map_app, ?map_app in *;
  cbn [flat_map app map snd] in *;
  rewrite ?app_nil_r in *.

Lemma conserved_run (t w : nat) (s s' : state T) :
  front_ready s -> conserved s -> run t w s = Some s' -> conserved s'.
Proof.
  unfold conserved. intros Hfr Hinv Hrun.
  pose proof (Hfr t) as Hmine.
  run_cases Hrun th Hth Hpc.
  all: specialize (Hmine _ eq_refl); rewrite Hpc in Hmine.
  all: cbn [queue_ history]; simp_history; try exact Hinv.
  - rewrite Hinv, <- app_assoc. reflexivity.
  - destruct Hmine as [q Hq]. injection Hq as -> ->.
    rewrite Hinv, <- app_assoc. reflexivity.
Qed.

Lemma conserved_spurious (t : nat) (s s' : state T) :
  conserved s -> spurious_wakeup t s = Some s' -> conserved s'.
Proof.
  unfold conserved, spurious_wakeup. intros Hinv.
  destruct (nth_error (threads s) t) as [th|]; [|discriminate].
  destruct (asleep th); [|discriminate].
  intros [= <-]. exact Hinv.
Qed.

Lemma handed_over_run (t w : nat) (s s' : state T) :
  mutex_ok s -> handed_over s -> run t w s = Some s' -> handed_over s'.
Proof.
  unfold handed_over, in_flight. intros [Hho Hoh] Hinv Hrun.
  run_cases Hrun th Hth Hpc.
  all: sleeper_is_other t th Hth Hpc.
  all: pose proof (Hho _ _ Hth) as Hown; rewrite Hpc in Hown; cbn in Hown.
  all: try specialize (Hown eq_refl).
  all: try match goal with H : is_free (mutex_ ?x) = true |- _ =>
         destruct (mutex_ x) eqn:Hfree; [discriminate H|] end.
  all: cbn [mutex_ threads history].
  all: try (rewrite Hown in *; rewrite Hth, Hpc in Hinv).
  all: rewrite ?(nth_error_update_eq _ _ _ _ Hth); cbn [at_pc move_to].
  all: simp_history; try exact Hinv.
  all: try (rewrite Hinv, ?app_nil_r; reflexivity).
  all: destruct (mutex_ s) as [o|] eqn:Howner; try exact Hinv.
  all: destruct (Hoh o eq_refl) as (tho & Htho & Hholds).
  all: assert (Hot : t <> o)
         by (intros ->; rewrite Hth in Htho; injection Htho as <-;
             rewrite Hpc in Hholds; discriminate Hholds).
  all: try assert (How : w <> o) by (intros ->; congruence).
  all: rewrite ?nth_error_update_ne by assumption; exact Hinv.
Qed.

Lemma handed_over_spurious (t : nat) (s s' : state T) :
  mutex_ok s -> handed_over s -> spurious_wakeup t s = Some s' -> handed_over s'.
Proof.
  unfold handed_over, in_flight, spurious_wakeup. intros [Hho Hoh] Hinv.
  destruct (nth_error (threads s) t) as [th|] eqn:Hth; [|discriminate].
  destruct (asleep th) eqn:Hasleep; [|discriminate].
  intros [= <-]. cbn [mutex_ threads history].
  destruct (mutex_ s) as [o|] eqn:Howner; [|exact Hinv].
  destruct (Hoh o eq_refl) as (tho & Htho & Hholds).
  pose proof (asleep_no_lock _ Hasleep) as Hno.
  rewrite nth_error_update_ne by (intros ->; congruence). exact Hinv.
Qed.

(** *** Each thread's pushes reach the queue in the order of its calls *)

Lemma by_thread_snoc (t t' : nat) (v : T) (l : list (nat * T)) :
  by_thread t (l ++ [(t', v)]) = by_thread t l ++ (if Nat.eqb t' t then [v] else []).
Proof.
  unfold by_thread. rewrite filter_app, map_app. cbn [filter fst].
  destruct (Nat.eqb t' t); reflexivity.
Qed.

Lemma enqueued_snoc (h : list (event T)) (e : event T) :
  enqueued (h ++ [e])
  = enqueued h ++ match e with Enqueued t v => [(t, v)] | _ => [] end.
Proof.
  unfold enqueued. rewrite flat_map_app. cbn [flat_map]. rewrite app_nil_r. reflexivity.
Qed.

Lemma in_program_order_run (programs : list (list (call T))) (t w : nat) (s s' : state T) :
  in_program_order programs s -> run t w s = Some s' -> in_program_order programs s'.
Proof.
  intros Hinv Hrun.
  pose proof (Hinv t) as Hmine.
  run_cases Hrun th Hth Hpc.
  all: sleeper_is_other t th Hth Hpc.
  all: destruct (Hmine _ eq_refl) as (cs & Hcs & Hpushes); clear Hmine.
  all: rewrite Hpc in Hpushes.
  all: repeat match goal with H : calls _ = _ |- _ => rewrite H in Hpushes end.
  all: intros t' th' Hth'; cbn [threads history] in *.
  all: rewrite ?enqueued_snoc, ?by_thread_snoc, ?app_nil_r.
  all: lookup_cases Hth'; cbn [at_pc calls move_to pending_push].
  all: rewrite ?Nat.eqb_refl.
  all: try (exists cs; split; [exact Hcs|]; rewrite Hpushes, <- ?app_assoc; reflexivity).
  all: try (apply Nat.eqb_neq in E; rewrite E, app_nil_r).
  all: try (apply (Hinv _ _ Hth')).
  destruct (Hinv _ _ Heqo) as (cs0 & Hcs0 & Hp0).
  exists cs0. split; [exact Hcs0|].
  unfold wake. rewrite Heqb. cbn [at_pc calls move_to pending_push].
  rewrite Hp0, (asleep_pc _ Heqb). reflexivity.
Qed.

Lemma in_program_order_spurious (programs : list (list (call T))) (t : nat) (s s' : state T) :
  in_program_order programs s -> spurious_wakeup t s = Some s' ->
  in_program_order programs s'.
Proof.
  unfold spurious_wakeup. intros Hinv.
  destruct (nth_error (threads s) t) as [th|] eqn:Hth; [|discriminate].
  destruct (asleep th) eqn:Hasleep; [|discriminate].
  intros [= <-] t' th' Hth'. cbn [threads history] in *. lookup_cases Hth'.
  - destruct (Hinv _ _ Hth) as (cs & Hcs & Hp).
    exists cs. split; [exact Hcs|].
    unfold wake. rewrite Hasleep. cbn [at_pc calls move_to pending_push].
    rewrite Hp, (asleep_pc _ Hasleep). reflexivity.
  - apply (Hinv _ _ Hth').
Qed.

Lemma in_program_order_init (programs : list (list (call T))) :
  in_program_order programs (init programs).
Proof.
  intros t th Hth. cbn in Hth. rewrite nth_error_map in Hth.
  destruct (nth_error programs t) as [cs|]; cbn in Hth; [|discriminate].
  injection Hth as <-. exists cs. split; reflexivity.
Qed.

(** *** What a thread's calls of [pop] have returned *)

Lemma returned_snoc (h : list (event T)) (e : event T) :
  returned (h ++ [e])
  = returned h ++ match e with Pop_returned t v => [(t, v)] | _ => [] end.
Proof.
  unfold returned. rewrite flat_map_app. cbn [flat_map]. rewrite app_nil_r. reflexivity.
Qed.

Lemma results_logged_run (t w : nat) (s s' : state T) :
  results_logged s -> run t w s = Some s' -> results_logged s'.
Proof.
  intros Hinv Hrun.
  pose proof (Hinv t) as Hmine.
  run_cases Hrun th Hth Hpc.
  all: sleeper_is_other t th Hth Hpc.
  all: specialize (Hmine _ eq_refl).
  all: intros t' th' Hth'; cbn [threads history] in *.
  all: rewrite ?returned_snoc, ?by_thread_snoc, ?app_nil_r.
  all: lookup_cases Hth'; cbn [popped move_to].
  all: rewrite ?Nat.eqb_refl.
  all: try (apply Nat.eqb_neq in E; rewrite E, app_nil_r).
  all: try exact Hmine.
  all: try (apply (Hinv _ _ Hth')).
  all: try (rewrite Hmine; reflexivity).
  unfold wake. rewrite Heqb. cbn [popped move_to]. apply (Hinv _ _ Heqo).
Qed.

Lemma results_logged_spurious (t : nat) (s s' : state T) :
  results_logged s -> spurious_wakeup t s = Some s' -> results_logged s'.
Proof.
  unfold spurious_wakeup. intros Hinv.
  destruct (nth_error (threads s) t) as [th|] eqn:Hth; [|discriminate].
  destruct (asleep th) eqn:Hasleep; [|discriminate].
  intros [= <-] t' th' Hth'. cbn [threads history] in *. lookup_cases Hth'.
  - unfold wake. rewrite Hasleep. cbn [popped move_to]. apply (Hinv _ _ Hth).
  - apply (Hinv _ _ Hth').
Qed.

Lemma results_logged_init (programs : list (list (call T))) :
  results_logged (init programs).
Proof.
  intros t th Hth. cbn in Hth. rewrite nth_error_map in Hth.
  destruct (nth_error programs t) as [cs|]; cbn in Hth; [|discriminate].
  injection Hth as <-. reflexivity.
Qed.

(** *** All of it, along every schedule *)

Lemma sound_init (programs : list (list (call T))) : sound programs (init programs).
Proof.
  split.
  - apply mutex_ok_init.
  - apply front_ready_init.
  - reflexivity.
  - reflexivity.
  - apply in_program_order_init.
  - apply results_logged_init.
  - apply wakeups_pending_init.
Qed.

Lemma sound_step (programs : list (list (call T))) (l : label) (s s' : state T) :
  sound programs s -> step l s = Some s' -> sound programs s'.
Proof.
  intros [Hm Hf Hc Hh Ho Hr Hw] Hstep. destruct l as [t w|t]; cbn [step] in Hstep.
  - split.
    + eapply mutex_ok_run; eassumption.
    + eapply front_ready_run; eassumption.
    + eapply conserved_run; eassumption.
    + eapply handed_over_run; eassumption.
    + eapply in_program_order_run; eassumption.
    + eapply results_logged_run; eassumption.
    + eapply wakeups_pending_run; eassumption.
  - split.
    + eapply mutex_ok_spurious; eassumption.
    + eapply front_ready_spurious; eassumption.
    + eapply conserved_spurious; eassumption.
    + eapply handed_over_spurious; eassumption.
    + eapply in_program_order_spurious; eassumption.
    + eapply results_logged_spurious; eassumption.
    + eapply wakeups_pending_spurious; eassumption.
Qed.

Lemma sound_exec (programs : list (list (call T))) (schedule : list label) :
  forall s s', sound programs s -> exec schedule s = Some s' -> sound programs s'.
Proof.
  induction schedule as [|l schedule IH]; intros s s' Hs Hexec; cbn [exec] in Hexec.
  - injection Hexec as <-. exact Hs.
  - destruct (step l s) as [s1|] eqn:Hstep; [|discriminate].
    eapply IH; [|exact Hexec]. eapply sound_step; eassumption.
Qed.

(** *** A call of [pop] does not get past an empty queue *)

Lemma enqueued_step (l : label) (s s' : state T) :
  step l s = Some s' ->
  (length (enqueued (history s)) <= length (enqueued (history s')))%nat.
Proof.
  destruct l as [t w|t]; cbn [step].
  - intros Hrun. run_cases Hrun th Hth Hpc.
    all: cbn [history]; rewrite ?enqueued_snoc, ?length_app; lia.
  - unfold spurious_wakeup.
    destruct (nth_error (threads s) t) as [th|]; [|discriminate].
    destruct (asleep th); [|discriminate].
    intros [= <-]. cbn [history]. lia.
Qed.

Lemma enqueued_exec (schedule : list label) :
  forall s s' : state T, exec schedule s = Some s' ->
  (length (enqueued (history s)) <= length (enqueued (history s')))%nat.
Proof.
  induction schedule as [|l schedule IH]; intros s s' Hexec; cbn [exec] in Hexec.
  - injection Hexec as <-. lia.
  - destruct (step l s) as [s1|] eqn:Hstep; [|discriminate].
    pose proof (enqueued_step _ _ _ Hstep). pose proof (IH _ _ Hexec). lia.
Qed.

Lemma blocked_step (l : label) (s s' : state T) (t0 : nat) (th0 : thread T) :
  step l s = Some s' -> queue_ s = [] ->
  nth_error (threads s) t0 = Some th0 -> waiting (at_pc th0) = true ->
  length (enqueued (history s')) = length (enqueued (history s)) ->
  queue_ s' = [] /\
  exists th', nth_error (threads s') t0 = Some th' /\ waiting (at_pc th') = true /\
              popped th' = popped th0 /\ calls th' = calls th0.
Proof.
  intros Hstep Hempty Hth0 Hwait Hsame.
  destruct l as [t w|t]; cbn [step] in Hstep.
  - run_cases Hstep th Hth Hpc.
    all: sleeper_is_other t th Hth Hpc.
    all: cbn [queue_ threads history] in *.
    all: rewrite ?enqueued_snoc, ?length_app in Hsame; cbn [length] in Hsame.
    all: try lia.
    all: try congruence.
    all: split; [assumption|].
    all: destruct (Nat.eq_dec t t0) as [->|Hne];
      [ rewrite Hth in Hth0; injection Hth0 as <-; rewrite Hpc in Hwait;
        try discriminate Hwait
      | ].
    all: try (eexists; split;
              [ erewrite ?nth_error_update_ne by eassumption;
                eapply nth_error_update_eq; eassumption
              | repeat split; reflexivity ]).
    all: try (exists th0; split;
              [ rewrite nth_error_update_ne by assumption; exact Hth0
              | repeat split; assumption ]).
    all: destruct (Nat.eq_dec w t0) as [->|Hw].
    all: try (rewrite Heqo in Hth0; injection Hth0 as <-).
    all: try (eexists; split;
              [ eapply nth_error_update_eq;
                rewrite nth_error_update_ne by assumption; eassumption
              | unfold wake; rewrite Heqb; repeat split; reflexivity ]).
    all: exists th0; split;
           [ rewrite !nth_error_update_ne by assumption; exact Hth0
           | repeat split; assumption ].
  - unfold spurious_wakeup in Hstep.
    destruct (nth_error (threads s) t) as [th|] eqn:Hth; [|discriminate].
    destruct (asleep th) eqn:Hasleep; [|discriminate].
    injection Hstep as <-. cbn [queue_ threads]. split; [exact Hempty|].
    destruct (Nat.eq_dec t t0) as [->|Hne].
    + rewrite Hth in Hth0. injection Hth0 as <-.
      eexists. split; [eapply nth_error_update_eq; eassumption|].
      unfold wake. rewrite Hasleep. repeat split; reflexivity.
    + exists th0. split; [|repeat split; assumption].
      rewrite nth_error_update_ne by assumption. exact Hth0.
Qed.

Lemma blocked_exec (schedule : list label) :
  forall (s s' : state T) (t : nat) (th : thread T),
  exec schedule s = Some s' -> queue_ s = [] ->
  nth_error (threads s) t = Some th -> waiting (at_pc th) = true ->
  length (enqueued (history s')) = length (enqueued (history s)) ->
  queue_ s' = [] /\
  exists th', nth_error (threads s') t = Some th' /\ waiting (at_pc th') = true /\
              popped th' = popped th /\ calls th' = calls th.
Proof.
  induction schedule as [|l schedule IH]; intros s s' t th Hexec Hempty Hth Hwait Hsame;
    cbn [exec] in Hexec.
  - injection Hexec as <-. split; [exact Hempty|]. exists th. repeat split; assumption.
  - destruct (step l s) as [s1|] eqn:Hstep; [|discriminate].
    pose proof (enqueued_step _ _ _ Hstep) as Hle1.
    pose proof (enqueued_exec _ _ _ Hexec) as Hle2.
    destruct (blocked_step _ _ _ _ _ Hstep Hempty Hth Hwait ltac:(lia))
      as (Hempty1 & th1 & Hth1 & Hwait1 & Hpopped1 & Hcalls1).
    destruct (IH _ _ _ _ Hexec Hempty1 Hth1 Hwait1 ltac:(lia))
      as (Hempty' & th' & Hth' & Hwait' & Hpopped' & Hcalls').
    split; [exact Hempty'|]. exists th'. repeat split; congruence.
Qed.

(** *** When nothing can run any more *)

Lemma holder_can_run (t w : nat) (s : state T) (th : thread T) :
  front_ready s -> nth_error (threads s) t = Some th ->
  holds_lock (at_pc th) = true -> run t w s <> None.
Proof.
  intros Hfr Hth Hholds. specialize (Hfr _ _ Hth).
  unfold run. rewrite Hth.
  destruct (at_pc th); try discriminate Hholds; try discriminate.
  - destruct (queue_ s); discriminate.
  - destruct (queue_ s); [contradiction | discriminate].
  - destruct Hfr as [q ->]. discriminate.
Qed.

Lemma notify_can_run (t : nat) (s : state T) (th : thread T) :
  nth_error (threads s) t = Some th -> at_pc th = push_notify ->
  exists w, run t w s <> None.
Proof.
  intros Hth Hpc. destruct (existsb asleep (threads s)) eqn:Hsleepers.
  - apply existsb_exists in Hsleepers. destruct Hsleepers as (sl & Hin & Hasleep).
    apply In_nth_error in Hin. destruct Hin as [w Hw].
    exists w. unfold run. rewrite Hth, Hpc, Hw, Hasleep. discriminate.
  - exists 0%nat. unfold run. rewrite Hth, Hpc, Hsleepers.
    destruct (nth_error (threads s) 0) as [sl|] eqn:Hsl; [|discriminate].
    destruct (asleep sl) eqn:Hasleep; [|discriminate].
    apply nth_error_In in Hsl.
    assert (existsb asleep (threads s) = true)
      by (apply existsb_exists; exists sl; split; assumption).
    congruence.
Qed.

Lemma quiescent_free (programs : list (list (call T))) (s : state T) :
  sound programs s -> quiescent s -> mutex_ s = None.
Proof.
  intros Hs Hq. destruct (mutex_ s) as [o|] eqn:Ho; [|reflexivity].
  destruct (owner_is_holder _ (sound_mutex _ _ Hs) _ Ho) as (th & Hth & Hholds).
  exfalso. apply (holder_can_run o 0 s th (sound_front _ _ Hs) Hth Hholds). apply Hq.
Qed.

Lemma quiescent_threads (programs : list (list (call T))) (s : state T) :
  sound programs s -> quiescent s ->
  forall t th, nth_error (threads s) t = Some th ->
    (at_pc th = idle /\ calls th = []) \/ at_pc th = pop_wait_sleep.
Proof.
  intros Hs Hq t th Hth.
  pose proof (quiescent_free _ _ Hs Hq) as Hfree.
  pose proof (holder_is_owner _ (sound_mutex _ _ Hs) _ _ Hth) as Hown.
  pose proof (Hq t 0%nat) as Hstuck. unfold run in Hstuck.
  rewrite Hth, Hfree in Hstuck. cbn [is_free] in Hstuck.
  destruct (at_pc th) eqn:Hpc; cbn in Hown;
    try discriminate Hstuck; try (specialize (Hown eq_refl); congruence).
  - left. split; [reflexivity|].
    destruct (calls th) as [|[v|] rest]; [reflexivity | discriminate | discriminate].
  - exfalso. destruct (notify_can_run t s th Hth Hpc) as [w Hw]. apply Hw, Hq.
  - right. reflexivity.
Qed.

Lemma sum_zero (f : thread T -> nat) (l : list (thread T)) :
  (forall t th, nth_error l t = Some th -> f th = 0%nat) -> list_sum (map f l) = 0%nat.
Proof.
  induction l as [|th l IH]; intros Hall; [reflexivity|].
  cbn [map]. rewrite list_sum_cons, (Hall 0%nat th eq_refl), IH; [reflexivity|].
  intros t th' Hth'. apply (Hall (S t)). exact Hth'.
Qed.

Lemma quiescent_outcome (programs : list (list (call T))) (s : state T) :
  sound programs s -> quiescent s ->
  (queue_ s = [] /\
   values (returned (history s)) = values (enqueued (history s))) \/
  (forall t th, nth_error (threads s) t = Some th -> at_pc th = idle /\ calls th = []).
Proof.
  intros Hs Hq.
  pose proof (quiescent_threads _ _ Hs Hq) as Hthreads.
  assert (Howes : list_sum (map owes (threads s)) = 0%nat).
  { apply sum_zero. intros t th Hth. unfold owes.
    destruct (Hthreads _ _ Hth) as [[-> _] | ->]; reflexivity. }
  destruct (existsb asleep (threads s)) eqn:Hsleepers.
  - left.
    assert (Hpos : (0 < list_sum (map sleeping (threads s)))%nat).
    { destruct (list_sum (map sleeping (threads s))) eqn:Hsum; [|lia].
      apply nobody_asleep in Hsum. congruence. }
    pose proof (sound_wakeups _ _ Hs Hpos) as Hlen. rewrite Howes in Hlen.
    assert (Hempty : queue_ s = []) by (destruct (queue_ s); [reflexivity | cbn in Hlen; lia]).
    split; [exact Hempty|].
    pose proof (sound_conserved _ _ Hs) as Hc. pose proof (sound_handed_over _ _ Hs) as Hh.
    unfold conserved, handed_over, in_flight in *.
    rewrite (quiescent_free _ _ Hs Hq) in Hh. rewrite Hempty in Hc.
    rewrite !app_nil_r in *. congruence.
  - right. intros t th Hth.
    destruct (Hthreads _ _ Hth) as [Hdone | Hsleep]; [exact Hdone|].
    exfalso.
    assert (existsb asleep (threads s) = true); [|congruence].
    apply existsb_exists. exists th. split; [eapply nth_error_In; eassumption|].
    unfold asleep. rewrite Hsleep. reflexivity.
Qed.

(** *** Counting statements: with no wake-up out of the blue, every run ends *)

Lemma weight_exec (schedule : list label) :
  forall s s' : state T,
  forallb is_run schedule = true -> exec schedule s = Some s' ->
  (length schedule + weight s' <= weight s)%nat.
Proof.
  induction schedule as [|l schedule IH]; intros s s' Hruns Hexec;
    cbn [exec forallb length] in *.
  - injection Hexec as <-. lia.
  - apply andb_prop in Hruns. destruct Hruns as [Hrun Hruns].
    destruct l as [t w|t]; [|discriminate Hrun]. cbn [step] in Hexec.
    destruct (run t w s) as [s1|] eqn:Hstep; [|discriminate].
    pose proof (weight_run _ _ _ _ Hstep). pose proof (IH _ _ Hruns Hexec). lia.
Qed.

Lemma threads_step (l : label) (s s' : state T) :
  step l s = Some s' -> length (threads s') = length (threads s).
Proof.
  destruct l as [t w|t]; cbn [step].
  - intros Hrun. run_cases Hrun th Hth Hpc.
    all: cbn [threads]; rewrite ?length_update; reflexivity.
  - unfold spurious_wakeup.
    destruct (nth_error (threads s) t) as [th|]; [|discriminate].
    destruct (asleep th); [|discriminate].
    intros [= <-]. cbn [threads]. apply length_update.
Qed.

Lemma threads_exec (schedule : list label) :
  forall s s' : state T,
  exec schedule s = Some s' -> length (threads s') = length (threads s).
Proof.
  induction schedule as [|l schedule IH]; intros s s' Hexec; cbn [exec] in Hexec.
  - injection Hexec as <-. reflexivity.
  - destruct (step l s) as [s1|] eqn:Hstep; [|discriminate].
    rewrite (IH _ _ Hexec). eapply threads_step. exact Hstep.
Qed.

Lemma by_thread_app (t : nat) (l1 l2 : list (nat * T)) :
  by_thread t (l1 ++ l2) = by_thread t l1 ++ by_thread t l2.
Proof. unfold by_thread. rewrite filter_app, map_app. reflexivity. Qed.

Lemma program_thread (programs : list (list (call T))) (schedule : list label)
    (s : state T) (t : nat) (cs : list (call T)) :
  exec schedule (init programs) = Some s -> nth_error programs t = Some cs ->
  exists th, nth_error (threads s) t = Some th.
Proof.
  intros Hexec Hcs. pose proof (threads_exec _ _ _ Hexec) as Hlen.
  cbn [init threads] in Hlen. rewrite length_map in Hlen.
  destruct (nth_error (threads s) t) as [th|] eqn:Hth; [exists th; reflexivity|].
  apply nth_error_None in Hth.
  assert (t < length programs)%nat by (apply nth_error_Some; congruence). lia.
Qed.

(** C8: threads that push and pop on one queue, under any schedule.  The values
    returned by the calls of [pop], in the order of the returns, are the first
    values that went into the queue, in the order they went in; what was pushed
    and not returned is in the queue, or in the hands of the one call of [pop]
    that is about to return it.  No push is lost: the pushes of a thread's
    program are those that have gone into the queue, in the order of its calls,
    then the one it is making, if the value has not gone in yet, then those of
    the calls it has not come to; so every call of [push] that has returned has
    put its value into the queue.  The pushes of one thread go in, and so come
    out, in the order of its calls.  A call of [pop] that finds the queue empty
    stays in [pop] for as long as nothing is pushed.  When no thread can run any
    more, either the queue is empty and all that was pushed has been returned,
    or no call of [pop] is left waiting; and without wake-ups out of the blue,
    that point is reached after a bounded number of steps. *)
Theorem SafeQueue_handoff (programs : list (list (call T))) (schedule : list label)
    (s : state T) :
  exec schedule (init programs) = Some s ->
  let pushed := enqueued (history s) in
  let handed := returned (history s) in
  values pushed = values handed ++ in_flight s ++ queue_ s /\
  (length handed <= length pushed)%nat /\
  values (firstn (length handed) pushed) = values handed /\
  (forall t th, nth_error (threads s) t = Some th -> popped th = by_thread t handed) /\
  (forall t cs th, nth_error programs t = Some cs -> nth_error (threads s) t = Some th ->
     pushes cs = by_thread t pushed ++ pending_push (at_pc th) ++ pushes (calls th)) /\
  (forall t cs, nth_error programs t = Some cs ->
     exists later, pushes cs = by_thread t pushed ++ later) /\
  (forall t cs, nth_error programs t = Some cs ->
     exists later, pushes cs = by_thread t (firstn (length handed) pushed) ++ later) /\
  (forall (more : list label) (s' : state T) (t : nat) (th : thread T),
     exec more s = Some s' -> queue_ s = [] ->
     nth_error (threads s) t = Some th -> waiting (at_pc th) = true ->
     length (enqueued (history s')) = length pushed ->
     queue_ s' = [] /\
     exists th', nth_error (threads s') t = Some th' /\ waiting (at_pc th') = true /\
                 popped th' = popped th /\ calls th' = calls th) /\
  (quiescent s ->
     (queue_ s = [] /\ values handed = values pushed) \/
     (forall t th, nth_error (threads s) t = Some th -> at_pc th = idle /\ calls th = [])) /\
  (forallb is_run schedule = true ->
     length schedule + weight s <= weight (init programs))%nat.
Proof.
  intros Hexec. cbv zeta.
  pose proof (sound_exec programs schedule _ _ (sound_init programs) Hexec) as Hs.
  assert (Hall : values (enqueued (history s))
                 = values (returned (history s)) ++ in_flight s ++ queue_ s).
  { rewrite (sound_conserved _ _ Hs), (sound_handed_over _ _ Hs), <- app_assoc.
    reflexivity. }
  assert (Hfirst : values (firstn (length (returned (history s))) (enqueued (history s)))
                   = values (returned (history s))).
  { unfold values in *. rewrite <- firstn_map, Hall.
    rewrite <- (length_map snd (returned (history s))).
    rewrite firstn_app, firstn_all, Nat.sub_diag, firstn_O. apply app_nil_r. }
  assert (Horder : forall t cs, nth_error programs t = Some cs ->
            exists later, pushes cs = by_thread t (enqueued (history s)) ++ later).
  { intros t cs Hcs. destruct (program_thread _ _ _ _ _ Hexec Hcs) as [th Hth].
    destruct (sound_order _ _ Hs _ _ Hth) as (cs' & Hcs' & Hpushes).
    rewrite Hcs in Hcs'. injection Hcs' as <-. eexists. exact Hpushes. }
  split; [exact Hall|]. split; [|split; [exact Hfirst|]].
  { apply (f_equal (@length T)) in Hall. unfold values in Hall.
    rewrite !length_app, !length_map in Hall. lia. }
  split; [exact (sound_results _ _ Hs)|]. split.
  { intros t cs th Hcs Hth.
    destruct (sound_order _ _ Hs _ _ Hth) as (cs' & Hcs' & Hpushes).
    rewrite Hcs in Hcs'. injection Hcs' as <-. exact Hpushes. }
  split; [exact Horder|]. split.
  { intros t cs Hcs. destruct (Horder t cs Hcs) as [later Hlater].
    rewrite <- (firstn_skipn (length (returned (history s))) (enqueued (history s)))
      in Hlater at 1.
    rewrite by_thread_app, <- app_assoc in Hlater. eexists. exact Hlater. }
  split.
  { intros more s' t th Hmore Hempty Hth Hwait Hsame.
    eapply blocked_exec; eassumption. }
  split.
  { intros Hq. apply (quiescent_outcome programs s Hs Hq). }
  intros Hruns. apply weight_exec; assumption.
Qed.

End SafeQueueFacts.

Lemma SafeQueue_handoff_witness :
  SafeQueue.exec two_consumers_schedule (SafeQueue.init two_consumers)
    = Some two_consumers_state /\
  SafeQueue.values (SafeQueue.enqueued (SafeQueue.history two_consumers_state))
  = SafeQueue.values (SafeQueue.returned (SafeQueue.history two_consumers_state))
      ++ SafeQueue.in_flight two_consumers_state ++ SafeQueue.queue_ two_consumers_state /\
  SafeQueue.pushes [SafeQueue.Push 10%nat; SafeQueue.Push 11%nat]
  = SafeQueue.by_thread 0 (SafeQueue.enqueued (SafeQueue.history two_consumers_state))
      ++ SafeQueue.pending_push (SafeQueue.idle (T := nat))
      ++ SafeQueue.pushes [SafeQueue.Push 11%nat].
Proof.
  split; [reflexivity|].
  pose (H := SafeQueue_handoff nat two_consumers two_consumers_schedule
               two_consumers_state eq_refl).
  split; [exact (proj1 H)|].
  exact (proj1 (proj2 (proj2 (proj2 (proj2 H)))) 0%nat _ _ eq_refl eq_refl).
Defined.

(** ** More about the queue *)

Section SafeQueueMore.

Import SafeQueue.

Variable T : Type.

Lemma update_same {A : Type} (l : list A) (i : nat) (a : A) :
  nth_error l i = Some a -> update l i a = l.
Proof.
  revert i. induction l as [|c l IH]; intros [|i]; cbn; try discriminate.
  - intros [= ->]. reflexivity.
  - intros Hnth. f_equal. apply IH. exact Hnth.
Qed.

Lemma update_update {A : Type} (l : list A) (i : nat) (a b : A) :
  update (update l i a) i b = update l i b.
Proof.
  revert i. induction l as [|c l IH]; intros [|i]; cbn; try reflexivity.
  f_equal. apply IH.
Qed.

Lemma exec_app (a b : list label) (s : state T) :
  exec (a ++ b) s = match exec a s with Some s' => exec b s' | None => None end.
Proof.
  revert s. induction a as [|l a IH]; intros s; cbn [app exec]; [reflexivity|].
  destruct (step l s); [apply IH | reflexivity].
Qed.

(** X13: mutual exclusion.  In every state that the threads can reach, at most
    one thread is at a statement between taking the mutex and giving it up, and
    that thread is the one recorded as the owner of the mutex. *)
Theorem SafeQueue_mutual_exclusion (programs : list (list (call T)))
    (schedule : list label) (s : state T) (t1 t2 : nat) (th1 th2 : thread T) :
  exec schedule (init programs) = Some s ->
  nth_error (threads s) t1 = Some th1 -> holds_lock (at_pc th1) = true ->
  nth_error (threads s) t2 = Some th2 -> holds_lock (at_pc th2) = true ->
  t1 = t2 /\ mutex_ s = Some t1.
Proof.
  intros Hexec Hth1 Hl1 Hth2 Hl2.
  pose proof (sound_exec T programs schedule _ _ (sound_init T programs) Hexec) as Hs.
  pose proof (holder_is_owner _ (sound_mutex _ _ Hs) _ _ Hth1 Hl1) as H1.
  pose proof (holder_is_owner _ (sound_mutex _ _ Hs) _ _ Hth2 Hl2) as H2.
  split; [congruence | exact H1].
Qed.

(** X14: [front] and [pop] of the [std::queue] are never called on an empty
    queue.  A thread that has come to [queue_.front()] finds an item; a thread
    that has come to [queue_.pop()] removes the very item that it has read
    with [front]; and the thread under the lock can always run its
    statement. *)
Theorem SafeQueue_front_defined (programs : list (list (call T)))
    (schedule : list label) (s : state T) (t : nat) (th : thread T) :
  exec schedule (init programs) = Some s ->
  nth_error (threads s) t = Some th ->
  (at_pc th = pop_front -> queue_ s <> []) /\
  (forall v, at_pc th = pop_pop v -> exists q, queue_ s = v :: q) /\
  (holds_lock (at_pc th) = true -> forall w, exists s', run t w s = Some s').
Proof.
  intros Hexec Hth.
  pose proof (sound_exec T programs schedule _ _ (sound_init T programs) Hexec) as Hs.
  pose proof (sound_front _ _ Hs _ _ Hth) as Hfront.
  split; [|split].
  - intros Hpc. rewrite Hpc in Hfront. exact Hfront.
  - intros v Hpc. rewrite Hpc in Hfront. exact Hfront.
  - intros Hholds w.
    pose proof (holder_can_run T t w s th (sound_front _ _ Hs) Hth Hholds) as Hrun.
    destruct (run t w s) as [s'|]; [exists s'; reflexivity | contradiction].
Qed.

(** X15: no deadlock.  In every state that the threads can reach, if some
    thread is neither through with its calls nor asleep in [cond_.wait], then
    some thread can run a statement. *)
Theorem SafeQueue_progress (programs : list (list (call T)))
    (schedule : list label) (s : state T) (t : nat) (th : thread T) :
  exec schedule (init programs) = Some s ->
  nth_error (threads s) t = Some th ->
  asleep th = false ->
  (at_pc th <> idle \/ calls th <> []) ->
  exists t' w s', run t' w s = Some s'.
Proof.
  intros Hexec Hth Hawake Hbusy.
  pose proof (sound_exec T programs schedule _ _ (sound_init T programs) Hexec) as Hs.
  assert (Hsome : forall t' w, run t' w s <> None -> exists t' w s', run t' w s = Some s').
  { intros t' w Hrun. destruct (run t' w s) as [s'|] eqn:E; [|contradiction].
    exists t', w, s'. exact E. }
  destruct (mutex_ s) as [o|] eqn:Hmutex.
  - destruct (owner_is_holder _ (sound_mutex _ _ Hs) _ Hmutex) as (tho & Htho & Hholds).
    apply (Hsome o 0%nat).
    apply (holder_can_run T o 0%nat s tho (sound_front _ _ Hs) Htho Hholds).
  - destruct (holds_lock (at_pc th)) eqn:Hholds.
    { pose proof (holder_is_owner _ (sound_mutex _ _ Hs) _ _ Hth Hholds). congruence. }
    destruct (at_pc th) eqn:Hpc; try discriminate Hholds.
    + destruct Hbusy as [Hne|Hne]; [contradiction|].
      apply (Hsome t 0%nat). unfold run. rewrite Hth, Hpc.
      destruct (calls th) as [|[v|] rest]; [contradiction | discriminate | discriminate].
    + apply (Hsome t 0%nat). unfold run. rewrite Hth, Hpc, Hmutex. discriminate.
    + destruct (notify_can_run T t s th Hth Hpc) as [w Hw]. apply (Hsome t w Hw).
    + apply (Hsome t 0%nat). unfold run. rewrite Hth, Hpc, Hmutex. discriminate.
    + unfold asleep in Hawake. rewrite Hpc in Hawake. discriminate.
    + apply (Hsome t 0%nat). unfold run. rewrite Hth, Hpc, Hmutex. discriminate.
Qed.

(** One thread on its own: a call of [push] is five statements, and leaves the
    value at the back of the queue. *)
Lemma push_alone (q : list T) (v : T) (cs : list (call T)) (p : list T) (h : list (event T)) :
  exec (repeat (Run 0 0) 5) (mkState q None [mkThread idle (Push v :: cs) p] h)
  = Some (mkState (q ++ [v]) None [mkThread idle cs p] (h ++ [Enqueued 0 v])).
Proof. reflexivity. Qed.

(** A call of [pop] on a queue that is not empty is six statements, and takes
    the value at the front. *)
Lemma pop_alone (q : list T) (v : T) (cs : list (call T)) (p : list T) (h : list (event T)) :
  exec (repeat (Run 0 0) 6) (mkState (v :: q) None [mkThread idle (Pop :: cs) p] h)
  = Some (mkState q None [mkThread idle cs (p ++ [v])]
            ((h ++ [Dequeued 0 v]) ++ [Pop_returned 0 v])).
Proof. reflexivity. Qed.

Lemma pushes_alone (vs : list T) :
  forall (q : list T) (cs : list (call T)) (p : list T) (h : list (event T)),
  exec (repeat (Run 0 0) (5 * length vs))
       (mkState q None [mkThread idle (map Push vs ++ cs) p] h)
  = Some (mkState (q ++ vs) None [mkThread idle cs p] (h ++ map (Enqueued 0) vs)).
Proof.
  induction vs as [|v vs IH]; intros q cs p h.
  - cbn. rewrite !app_nil_r. reflexivity.
  - replace (5 * length (v :: vs))%nat with (5 + 5 * length vs)%nat by (cbn [length]; lia).
    rewrite repeat_app, exec_app. cbn [map app].
    rewrite push_alone, IH, <- !app_assoc. reflexivity.
Qed.

Lemma pops_alone (vs : list T) :
  forall (q : list T) (cs : list (call T)) (p : list T) (h : list (event T)),
  exec (repeat (Run 0 0) (6 * length vs))
       (mkState (vs ++ q) None [mkThread idle (repeat Pop (length vs) ++ cs) p] h)
  = Some (mkState q None [mkThread idle cs (p ++ vs)]
            (h ++ flat_map (fun v => [Dequeued 0 v; Pop_returned 0 v]) vs)).
Proof.
  induction vs as [|v vs IH]; intros q cs p h.
  - cbn. rewrite !app_nil_r. reflexivity.
  - replace (6 * length (v :: vs))%nat with (6 + 6 * length vs)%nat by (cbn [length]; lia).
    rewrite repeat_app, exec_app. cbn [length repeat app flat_map].
    rewrite pop_alone, IH, <- !app_assoc. reflexivity.
Qed.

(** X16: first in, first out.  A thread that pushes the values [vs] and then
    calls [pop] as many times, with no other thread about, gets the values back
    in the order it pushed them, after eleven statements for each; the queue is
    empty again and the mutex free. *)
Theorem SafeQueue_sequential_fifo (vs : list T) :
  exec (repeat (Run 0 0) (11 * length vs))
       (init [map Push vs ++ repeat Pop (length vs)])
  = Some (mkState [] None [mkThread idle [] vs]
            (map (Enqueued 0) vs
               ++ flat_map (fun v => [Dequeued 0 v; Pop_returned 0 v]) vs)).
Proof.
  replace (11 * length vs)%nat with (5 * length vs + 6 * length vs)%nat by lia.
  rewrite repeat_app, exec_app. unfold init. cbn [map].
  rewrite pushes_alone. cbn [app].
  pose proof (pops_alone vs [] [] [] (map (Enqueued 0) vs)) as Hpops.
  rewrite !app_nil_r in Hpops. cbn [app] in Hpops. exact Hpops.
Qed.

(** X17: a wake-up out of the blue does no harm.  A thread asleep in
    [cond_.wait] that wakes up with no [notify_one], while the queue is empty
    and the mutex free, takes the lock, tests the predicate and goes back to
    sleep: three steps later the state is the one it woke up in. *)
Theorem SafeQueue_spurious_wakeup_harmless (s : state T) (t w1 w2 : nat) (th : thread T) :
  nth_error (threads s) t = Some th -> asleep th = true ->
  queue_ s = [] -> mutex_ s = None ->
  exec [Spurious t; Run t w1; Run t w2] s = Some s.
Proof.
  intros Hth Hasleep Hempty Hfree.
  assert (Hpc : at_pc th = pop_wait_sleep)
    by (unfold asleep in Hasleep; destruct (at_pc th); try discriminate; reflexivity).
  destruct s as [q m ths h]. cbn [threads queue_ mutex_] in *. subst q m.
  cbn [exec step]. unfold spurious_wakeup. cbn [threads].
  rewrite Hth, Hasleep. cbn [queue_ mutex_ history exec step].
  unfold run at 1. cbn [threads queue_ mutex_ history].
  rewrite (nth_error_update_eq _ _ _ _ Hth).
  unfold wake. rewrite Hasleep. cbn [move_to at_pc is_free calls popped].
  rewrite update_update.
  unfold run. cbn [threads queue_ mutex_ history].
  rewrite (nth_error_update_eq _ _ _ _ Hth). cbn [move_to at_pc calls popped].
  rewrite update_update.
  destruct th as [pc0 cs p]. cbn [at_pc calls popped] in *. subst pc0.
  unfold move_to. cbn [calls popped]. rewrite (update_same _ _ _ Hth). reflexivity.
Qed.

End SafeQueueMore.

Lemma SafeQueue_mutual_exclusion_witness :
  exists s th,
    SafeQueue.exec [SafeQueue.Run 1 0; SafeQueue.Run 1 0] (SafeQueue.init two_consumers)
    = Some s /\
    nth_error (SafeQueue.threads s) 1 = Some th /\
    SafeQueue.holds_lock (SafeQueue.at_pc th) = true /\
    SafeQueue.mutex_ s = Some 1%nat.
Proof.
  eexists. eexists. split; [reflexivity|]. split; [reflexivity|]. split; [reflexivity|].
  exact (proj2 (SafeQueue_mutual_exclusion nat two_consumers
                  [SafeQueue.Run 1 0; SafeQueue.Run 1 0] _ 1 1 _ _
                  eq_refl eq_refl eq_refl eq_refl eq_refl)).
Defined.

Lemma SafeQueue_front_defined_witness :
  exists s th,
    SafeQueue.exec (repeat (SafeQueue.Run 0 0) 8)
      (SafeQueue.init [[SafeQueue.Push 10%nat; SafeQueue.Pop]]) = Some s /\
    nth_error (SafeQueue.threads s) 0 = Some th /\
    SafeQueue.at_pc th = SafeQueue.pop_front /\
    SafeQueue.queue_ s <> [].
Proof.
  eexists. eexists. split; [reflexivity|]. split; [reflexivity|]. split; [reflexivity|].
  exact (proj1 (SafeQueue_front_defined nat [[SafeQueue.Push 10%nat; SafeQueue.Pop]]
                  (repeat (SafeQueue.Run 0 0) 8) _ 0 _ eq_refl eq_refl) eq_refl).
Defined.

Lemma SafeQueue_progress_witness :
  SafeQueue.exec two_consumers_schedule (SafeQueue.init two_consumers)
  = Some two_consumers_state /\
  exists t' w s', SafeQueue.run t' w two_consumers_state = Some s'.
Proof.
  split; [reflexivity|].
  refine (SafeQueue_progress nat two_consumers two_consumers_schedule two_consumers_state
            0 _ eq_refl eq_refl eq_refl _).
  right. discriminate.
Defined.

Lemma SafeQueue_spurious_wakeup_harmless_witness :
  SafeQueue.queue_ two_consumers_state = [] /\
  SafeQueue.mutex_ two_consumers_state = None /\
  SafeQueue.exec [SafeQueue.Spurious 1; SafeQueue.Run 1 0; SafeQueue.Run 1 2]
    two_consumers_state
  = Some two_consumers_state.
Proof.
  split; [reflexivity|]. split; [reflexivity|].
  exact (SafeQueue_spurious_wakeup_harmless nat two_consumers_state 1 0 2 _
           eq_refl eq_refl eq_refl eq_refl).
Defined.

(** ** The logger *)

Lemma up_to_nul_prefix (s : bytes) :
  exists rest, s = Logger.up_to_nul s ++ rest /\
               (rest = [] \/ exists rest', rest = Byte.x00 :: rest').
Proof.
  induction s as [|b s (rest & IH & Hrest)]; cbn [Logger.up_to_nul].
  - exists []. split; [reflexivity | left; reflexivity].
  - destruct (Byte.eqb b Byte.x00) eqn:E.
    + apply Byte.byte_dec_bl in E. subst b.
      exists (Byte.x00 :: s). split; [reflexivity | right; exists s; reflexivity].
    + exists rest. split; [cbn [app]; f_equal; exact IH | exact Hrest].
Qed.

Lemma up_to_nul_no_nul (s : bytes) : ~ In Byte.x00 (Logger.up_to_nul s).
Proof.
  induction s as [|b s IH]; cbn [Logger.up_to_nul]; [intros []|].
  destruct (Byte.eqb b Byte.x00) eqn:E; [intros []|].
  intros [Hb|Hin]; [|exact (IH Hin)].
  subst b. discriminate E.
Qed.

Lemma up_to_nul_all (s : bytes) : ~ In Byte.x00 s -> Logger.up_to_nul s = s.
Proof.
  induction s as [|b s IH]; cbn [Logger.up_to_nul]; [reflexivity|].
  intros Hnot. destruct (Byte.eqb b Byte.x00) eqn:E.
  - apply Byte.byte_dec_bl in E. subst b. exfalso. apply Hnot. left. reflexivity.
  - f_equal. apply IH. intros Hin. apply Hnot. right. exact Hin.
Qed.

(** The length that [sqlite3_bind_blob] is given is the size of the message
    when that is below [2^31], and in general its low 32 bits when they are
    below [2^31]. *)
Lemma int_of_size_low (size : nat) :
  Z.of_nat size mod 2 ^ 32 < 2 ^ 31 ->
  Logger.int_of_size size = Z.of_nat size mod 2 ^ 32.
Proof.
  intros Hlow. unfold Logger.int_of_size, int_of_bits.
  destruct (Z.of_nat size mod 2 ^ 32 <? 2 ^ 31) eqn:E; [reflexivity|].
  apply Z.ltb_ge in E. lia.
Qed.

Lemma int_of_size_fits (size : nat) :
  Z.of_nat size < 2 ^ 31 -> Logger.int_of_size size = Z.of_nat size.
Proof.
  intros Hfits. rewrite int_of_size_low; rewrite Z.mod_small; lia.
Qed.

Section LoggerFacts.

Variable target : endianness.
Variable sqlite_ok : nat -> Logger.sqlite_call -> bool.
Variable kept : nat -> Logger.sqlite_call -> bytes -> bytes.

(** A message that has not three frames: a warning, and SQLite is not called. *)
Lemma logger_pass_warns (frame1 : bytes) (more_frames : list bytes) (rest : list delivery)
    (stale : bool) (table : list Logger.row) (cerr cout : list Logger.line) (n : nat) :
  length (frame1 :: more_frames) <> 3%nat ->
  Logger.logger_pass target sqlite_ok kept
    (Logger.mkLogger (mkSocket (wire (frame1 :: more_frames) ++ rest) stale) table cerr cout n)
  = (Logger.mkLogger (mkSocket rest false) table
       (cerr ++ Logger.warnings_of_message (frame1 :: more_frames)) cout n,
     Continue).
Proof.
  intros Hlen. destruct more_frames as [|frame2 [|frame3 [|frame4 extras]]].
  - reflexivity.
  - reflexivity.
  - contradiction Hlen. reflexivity.
  - change (wire (frame1 :: frame2 :: frame3 :: frame4 :: extras))
      with (Frame frame1 true :: Frame frame2 true :: Frame frame3 true
              :: wire (frame4 :: extras)).
    unfold Logger.logger_pass, recv.
    cbn [Logger.subscriber incoming rcvmore app negb].
    rewrite flush_extras_wire. reflexivity.
Qed.

(** A message of three frames goes to SQLite. *)
Lemma logger_pass_inserts (frame1 frame2 frame3 : bytes) (rest : list delivery)
    (stale : bool) (table : list Logger.row) (cerr cout : list Logger.line) (n : nat) :
  Logger.logger_pass target sqlite_ok kept
    (Logger.mkLogger (mkSocket (wire [frame1; frame2; frame3] ++ rest) stale) table cerr cout n)
  = (Logger.insert target sqlite_ok kept frame1 frame2 frame3 (mkSocket rest false)
       (Logger.mkLogger (mkSocket (wire [frame1; frame2; frame3] ++ rest) stale)
          table cerr cout n),
     Continue).
Proof. reflexivity. Qed.

(** A negative length apart, what is bound is the first bytes of the message,
    as many as the low 32 bits of its size say. *)
Lemma bound_blob_low (n : nat) (c : Logger.sqlite_call) (msg : bytes) :
  Z.of_nat (length msg) mod 2 ^ 32 < 2 ^ 31 ->
  Logger.bound_blob kept n c msg
  = firstn (Z.to_nat (Z.of_nat (length msg) mod 2 ^ 32)) msg.
Proof.
  intros Hlow. unfold Logger.bound_blob. rewrite int_of_size_low by exact Hlow.
  destruct (Z.of_nat (length msg) mod 2 ^ 32 <? 0) eqn:E; [|reflexivity].
  apply Z.ltb_lt in E.
  pose proof (Z.mod_pos_bound (Z.of_nat (length msg)) (2 ^ 32)). lia.
Qed.

(** A message shorter than [2^31] bytes is bound whole. *)
Lemma bound_blob_fits (n : nat) (c : Logger.sqlite_call) (msg : bytes) :
  Logger.fits_int msg -> Logger.bound_blob kept n c msg = msg.
Proof.
  unfold Logger.fits_int. intros Hfits.
  rewrite bound_blob_low by (rewrite Z.mod_small; lia).
  rewrite Z.mod_small by lia. rewrite Nat2Z.id. apply firstn_all.
Qed.

Lemma insert_works (frame1 frame2 frame3 : bytes) (s : socket) (l : Logger.logger) :
  (forall c, sqlite_ok (Logger.resets l) c = true) ->
  Logger.insert target sqlite_ok kept frame1 frame2 frame3 s l
  = Logger.mkLogger s
      (Logger.table l
         ++ [Logger.mkRow (Logger.up_to_nul frame1)
               (Logger.bound_blob kept (Logger.resets l) Logger.bind_image_blob frame2)
               (Logger.bound_blob kept (Logger.resets l) Logger.bind_keypoints_blob frame3)])
      (Logger.cerr l)
      (Logger.cout l ++ [Logger.Logged_image frame1 (length frame2 / 1024)
                           (Logger.keypoint_count target frame3)])
      (S (Logger.resets l)).
Proof. intros Hok. unfold Logger.insert. rewrite !Hok. reflexivity. Qed.

Lemma insert_fails (frame1 frame2 frame3 : bytes) (s : socket) (l : Logger.logger)
    (c : Logger.sqlite_call) :
  sqlite_ok (Logger.resets l) c = false ->
  exists line,
    Logger.insert target sqlite_ok kept frame1 frame2 frame3 s l
    = Logger.mkLogger s (Logger.table l) (Logger.cerr l ++ [line]) (Logger.cout l)
        (S (Logger.resets l)).
Proof.
  intros Hfail. unfold Logger.insert.
  destruct (sqlite_ok (Logger.resets l) Logger.bind_filename) eqn:H1;
    [|eexists; reflexivity].
  destruct (sqlite_ok (Logger.resets l) Logger.bind_image_blob) eqn:H2;
    [|eexists; reflexivity].
  destruct (sqlite_ok (Logger.resets l) Logger.bind_keypoints_blob) eqn:H3;
    [|eexists; reflexivity].
  destruct (sqlite_ok (Logger.resets l) Logger.step_insert) eqn:H4;
    [|eexists; reflexivity].
  destruct c; congruence.
Qed.

End LoggerFacts.

(** X18: the logger's framing check.  A message of exactly three frames is
    handed to SQLite, once; a message of one or two frames is logged and
    dropped; a message of four or more frames is logged, drained to its last
    frame and dropped; for these SQLite is not called and nothing is stored
    or printed.  In every case the pass ends with the socket at the next
    message and the loop goes on. *)
Theorem logger_pass_framing (target : endianness)
    (sqlite_ok : nat -> Logger.sqlite_call -> bool)
    (kept : nat -> Logger.sqlite_call -> bytes -> bytes)
    (frame1 : bytes) (more_frames : list bytes) (rest : list delivery) (stale : bool)
    (table : list Logger.row) (cerr cout : list Logger.line) (n : nat) :
  let frames := frame1 :: more_frames in
  let l := Logger.mkLogger (mkSocket (wire frames ++ rest) stale) table cerr cout n in
  exists stored logged printed n',
    Logger.logger_pass target sqlite_ok kept l
    = (Logger.mkLogger (mkSocket rest false) (table ++ stored) (cerr ++ logged)
         (cout ++ printed) n',
       Continue) /\
    (n' = S n <-> length frames = 3%nat) /\
    (length frames <> 3%nat -> stored = [] /\ printed = [] /\ n' = n) /\
    (length frames = 1%nat -> logged = [Logger.Warning_expected_3_parts_got_1]) /\
    (length frames = 2%nat -> logged = [Logger.Warning_expected_3_parts_got_2]) /\
    (4 <= length frames -> logged = [Logger.Warning_received_more_than_3_parts])%nat.
Proof.
  cbv zeta.
  destruct (Nat.eq_dec (length (frame1 :: more_frames)) 3) as [H3|H3].
  - destruct more_frames as [|frame2 [|frame3 [|frame4 extras]]]; try discriminate H3.
    rewrite logger_pass_inserts.
    destruct (forallb (sqlite_ok n)
                [Logger.bind_filename; Logger.bind_image_blob;
                 Logger.bind_keypoints_blob; Logger.step_insert]) eqn:Hall.
    + rewrite insert_works.
      2:{ intros c. rewrite forallb_forall in Hall. apply Hall.
          destruct c; cbn; tauto. }
      cbn [Logger.table Logger.cerr Logger.cout Logger.resets].
      exists [Logger.mkRow (Logger.up_to_nul frame1)
                (Logger.bound_blob kept n Logger.bind_image_blob frame2)
                (Logger.bound_blob kept n Logger.bind_keypoints_blob frame3)], [],
             [Logger.Logged_image frame1 (length frame2 / 1024)
                (Logger.keypoint_count target frame3)], (S n).
      rewrite app_nil_r. split; [reflexivity|]. cbn [length].
      repeat split; intros; try reflexivity; try discriminate; try lia.
    + assert (Hc : exists c, sqlite_ok n c = false).
      { cbn [forallb] in Hall.
        destruct (sqlite_ok n Logger.bind_filename) eqn:H1; [|eexists; exact H1].
        destruct (sqlite_ok n Logger.bind_image_blob) eqn:H2; [|eexists; exact H2].
        destruct (sqlite_ok n Logger.bind_keypoints_blob) eqn:H4; [|eexists; exact H4].
        destruct (sqlite_ok n Logger.step_insert) eqn:H5; [|eexists; exact H5].
        discriminate Hall. }
      destruct Hc as [c Hc].
      destruct (insert_fails target sqlite_ok kept frame1 frame2 frame3 (mkSocket rest false)
                  (Logger.mkLogger (mkSocket (wire [frame1; frame2; frame3] ++ rest) stale)
                     table cerr cout n) c Hc) as [line Hins].
      rewrite Hins. cbn [Logger.table Logger.cerr Logger.cout Logger.resets].
      exists [], [line], [], (S n). rewrite !app_nil_r.
      split; [reflexivity|]. cbn [length].
      repeat split; intros; try reflexivity; try discriminate; try lia.
  - rewrite logger_pass_warns by exact H3.
    exists [], (Logger.warnings_of_message (frame1 :: more_frames)), [], n.
    rewrite !app_nil_r. split; [reflexivity|].
    destruct more_frames as [|frame2 [|frame3 [|frame4 extras]]];
      cbn [length Logger.warnings_of_message] in *;
      repeat split; intros; try reflexivity; try discriminate; try lia.
Qed.

(** X19: what the logger stores.  When SQLite takes a message of three
    frames, one row is added.  Its file name is the first frame up to its
    first zero byte, so the whole of it exactly when it has none.  Its two
    blobs are the second and the third frame, byte for byte, when these are
    shorter than [2^31] bytes; [sqlite3_bind_blob] is given their sizes as
    [int], so of a longer frame the row holds the first bytes only, as many as
    the low 32 bits of its size say when these are below [2^31].  The line
    printed names the whole first frame, the size of the whole second frame in
    units of 1024 bytes, rounded down, and the number of keypoints in the
    whole third frame. *)
Theorem logger_stores_message (target : endianness)
    (sqlite_ok : nat -> Logger.sqlite_call -> bool)
    (kept : nat -> Logger.sqlite_call -> bytes -> bytes)
    (frame1 frame2 frame3 : bytes) (rest : list delivery) (stale : bool)
    (table : list Logger.row) (cerr cout : list Logger.line) (n : nat) :
  (forall c, sqlite_ok n c = true) ->
  let l := Logger.mkLogger (mkSocket (wire [frame1; frame2; frame3] ++ rest) stale)
             table cerr cout n in
  exists name image keypoints,
    Logger.logger_pass target sqlite_ok kept l
    = (Logger.mkLogger (mkSocket rest false)
         (table ++ [Logger.mkRow name image keypoints]) cerr
         (cout ++ [Logger.Logged_image frame1 (length frame2 / 1024)
                     (Logger.keypoint_count target frame3)])
         (S n),
       Continue) /\
    ~ In Byte.x00 name /\
    (exists cut, frame1 = name ++ cut /\ (cut = [] \/ exists cut', cut = Byte.x00 :: cut')) /\
    (name = frame1 <-> ~ In Byte.x00 frame1) /\
    (Z.of_nat (length frame2) < 2 ^ 31 -> image = frame2) /\
    (Z.of_nat (length frame3) < 2 ^ 31 -> keypoints = frame3) /\
    (Z.of_nat (length frame2) mod 2 ^ 32 < 2 ^ 31 ->
     image = firstn (Z.to_nat (Z.of_nat (length frame2) mod 2 ^ 32)) frame2) /\
    (Z.of_nat (length frame3) mod 2 ^ 32 < 2 ^ 31 ->
     keypoints = firstn (Z.to_nat (Z.of_nat (length frame3) mod 2 ^ 32)) frame3).
Proof.
  intros Hok. cbv zeta.
  exists (Logger.up_to_nul frame1),
         (Logger.bound_blob kept n Logger.bind_image_blob frame2),
         (Logger.bound_blob kept n Logger.bind_keypoints_blob frame3).
  rewrite logger_pass_inserts, insert_works by exact Hok.
  split; [reflexivity|]. split; [apply up_to_nul_no_nul|].
  split; [apply up_to_nul_prefix|]. split; [split|].
  - intros Heq. rewrite <- Heq. apply up_to_nul_no_nul.
  - apply up_to_nul_all.
  - split; [apply bound_blob_fits|]. split; [apply bound_blob_fits|].
    split; apply bound_blob_low.
Qed.

(** A frame of [2^32 + 5] bytes: the low 32 bits of its size are [5]. *)
Lemma long_frame_size (b : byte) :
  Z.of_nat (length (repeat b (Z.to_nat (2 ^ 32 + 5)))) mod 2 ^ 32 = 5.
Proof. rewrite repeat_length, Z2Nat.id by lia. reflexivity. Qed.

Lemma long_frame_first_bytes (b : byte) :
  firstn 5 (repeat b (Z.to_nat (2 ^ 32 + 5))) = repeat b 5.
Proof.
  replace (2 ^ 32 + 5) with (5 + 2 ^ 32) by reflexivity.
  rewrite Z2Nat.inj_add by lia. change (Z.to_nat 5) with 5%nat.
  rewrite repeat_app, firstn_app, repeat_length, Nat.sub_diag.
  cbn [firstn repeat]. rewrite app_nil_r. reflexivity.
Qed.

Lemma logger_stores_message_witness :
  let long_frame := repeat Byte.xff (Z.to_nat (2 ^ 32 + 5)) in
  (forall c, Logger.sqlite_works 0 c = true) /\
  exists name image keypoints,
    Logger.logger_pass LittleEndian Logger.sqlite_works Logger.keeps_nothing
      (Logger.mkLogger
         (mkSocket (wire [name_with_nul; long_frame; sample_buffer] ++ []) false)
         [] [] [] 0)
    = (Logger.mkLogger (mkSocket [] false)
         ([] ++ [Logger.mkRow name image keypoints]) []
         ([] ++ [Logger.Logged_image name_with_nul (length long_frame / 1024)
                   (Logger.keypoint_count LittleEndian sample_buffer)])
         1,
       Continue) /\
    ~ In Byte.x00 name /\
    image = repeat Byte.xff 5 /\
    keypoints = sample_buffer.
Proof.
  cbv zeta. split; [reflexivity|].
  destruct (logger_stores_message LittleEndian Logger.sqlite_works Logger.keeps_nothing
              name_with_nul (repeat Byte.xff (Z.to_nat (2 ^ 32 + 5))) sample_buffer
              [] false [] [] [] 0 (fun c => eq_refl))
    as (name & image & keypoints & Hpass & Hnul & _ & _ & _ & Hwhole & Hlow & _).
  exists name, image, keypoints.
  split; [exact Hpass|]. split; [exact Hnul|]. split.
  - rewrite Hlow by (rewrite long_frame_size; lia).
    rewrite long_frame_size. apply long_frame_first_bytes.
  - apply Hwhole. vm_compute. reflexivity.
Defined.

(** X20: a call into SQLite that fails.  When one of the four calls made for
    a message of three frames fails, nothing is stored and nothing is printed;
    one line goes to [std::cerr], the message is off the wire and the loop goes
    on with the next. *)
Theorem logger_pass_sqlite_failure (target : endianness)
    (sqlite_ok : nat -> Logger.sqlite_call -> bool)
    (kept : nat -> Logger.sqlite_call -> bytes -> bytes)
    (frame1 frame2 frame3 : bytes) (rest : list delivery) (stale : bool)
    (table : list Logger.row) (cerr cout : list Logger.line) (n : nat)
    (c : Logger.sqlite_call) :
  sqlite_ok n c = false ->
  exists line,
    Logger.logger_pass target sqlite_ok kept
      (Logger.mkLogger (mkSocket (wire [frame1; frame2; frame3] ++ rest) stale)
         table cerr cout n)
    = (Logger.mkLogger (mkSocket rest false) table (cerr ++ [line]) cout (S n), Continue) /\
    In line [Logger.SQLite_bind_error_filename; Logger.SQLite_bind_error_image_blob;
             Logger.SQLite_bind_error_keypoints_blob; Logger.Error_inserting_data].
Proof.
  intros Hfail. rewrite logger_pass_inserts. unfold Logger.insert.
  cbn [Logger.table Logger.cerr Logger.cout Logger.resets].
  destruct (sqlite_ok n Logger.bind_filename) eqn:H1; cbn [negb];
    [|eexists; split; [reflexivity | cbn; tauto]].
  destruct (sqlite_ok n Logger.bind_image_blob) eqn:H2; cbn [negb];
    [|eexists; split; [reflexivity | cbn; tauto]].
  destruct (sqlite_ok n Logger.bind_keypoints_blob) eqn:H3; cbn [negb];
    [|eexists; split; [reflexivity | cbn; tauto]].
  destruct (sqlite_ok n Logger.step_insert) eqn:H4; cbn [negb];
    [|eexists; split; [reflexivity | cbn; tauto]].
  destruct c; congruence.
Qed.

Lemma logger_pass_sqlite_failure_witness :
  let sqlite_ok := fun (n : nat) (c : Logger.sqlite_call) =>
                     match c with Logger.step_insert => false | _ => true end in
  sqlite_ok 0%nat Logger.step_insert = false /\
  exists line,
    Logger.logger_pass LittleEndian sqlite_ok Logger.keeps_nothing
      (Logger.mkLogger (mkSocket (wire [name_a; jpeg_a; sample_buffer] ++ []) false)
         [] [] [] 0)
    = (Logger.mkLogger (mkSocket [] false) [] ([] ++ [line]) [] 1, Continue).
Proof.
  cbv zeta. split; [reflexivity|].
  destruct (logger_pass_sqlite_failure LittleEndian
              (fun (n : nat) (c : Logger.sqlite_call) =>
                 match c with Logger.step_insert => false | _ => true end)
              Logger.keeps_nothing
              name_a jpeg_a sample_buffer [] false [] [] [] 0 Logger.step_insert eq_refl)
    as (line & Hpass & _).
  exists line. exact Hpass.
Defined.


(** X21: the number of keypoints that the logger prints is the number of
    28-byte records in the third frame, and [0] for a frame whose size is not
    a multiple of 28, whatever the byte order of the machine. *)
Theorem logger_keypoint_count (target : endianness) (kps_msg : bytes) :
  Logger.keypoint_count target kps_msg
  = if (length kps_msg mod SIZEOF_SERIALIZED_KEYPOINT =? 0)%nat
    then (length kps_msg / SIZEOF_SERIALIZED_KEYPOINT)%nat
    else 0%nat.
Proof.
  unfold Logger.keypoint_count.
  destruct (length kps_msg mod SIZEOF_SERIALIZED_KEYPOINT =? 0)%nat eqn:E.
  - apply Nat.eqb_eq in E. rewrite deserialize_keypoints_spec by exact E.
    rewrite length_map, length_seq. reflexivity.
  - apply Nat.eqb_neq in E. rewrite deserialize_keypoints_throws by exact E. reflexivity.
Qed.

Section LoggerStream.

Variable target : endianness.
Variable sqlite_ok : nat -> Logger.sqlite_call -> bool.
Variable kept : nat -> Logger.sqlite_call -> bytes -> bytes.
Hypothesis sqlite_always : forall n c, sqlite_ok n c = true.

Lemma logger_pass_message (frame1 : bytes) (more_frames : list bytes) (rest : list delivery)
    (stale : bool) (table : list Logger.row) (cerr cout : list Logger.line) (n : nat) :
  Forall Logger.fits_int more_frames ->
  Logger.logger_pass target sqlite_ok kept
    (Logger.mkLogger (mkSocket (wire (frame1 :: more_frames) ++ rest) stale) table cerr cout n)
  = (Logger.mkLogger (mkSocket rest false)
       (table ++ Logger.rows_of_message (frame1 :: more_frames))
       (cerr ++ Logger.warnings_of_message (frame1 :: more_frames))
       (cout ++ Logger.printed_of_message target (frame1 :: more_frames))
       (n + length (Logger.rows_of_message (frame1 :: more_frames))),
     Continue).
Proof.
  intros Hfits.
  destruct (Nat.eq_dec (length (frame1 :: more_frames)) 3) as [H3|H3].
  - destruct more_frames as [|frame2 [|frame3 [|frame4 extras]]]; try discriminate H3.
    rewrite logger_pass_inserts, insert_works by (intros c; apply sqlite_always).
    inversion Hfits as [|? ? Hfit2 Hfits3]; subst.
    inversion Hfits3 as [|? ? Hfit3 _]; subst.
    rewrite !bound_blob_fits by assumption.
    cbn [Logger.table Logger.cerr Logger.cout Logger.resets Logger.rows_of_message
         Logger.warnings_of_message Logger.printed_of_message length].
    rewrite app_nil_r, Nat.add_1_r. reflexivity.
  - rewrite logger_pass_warns by exact H3.
    destruct more_frames as [|frame2 [|frame3 [|frame4 extras]]];
      try (contradiction H3; reflexivity);
      cbn [Logger.rows_of_message Logger.printed_of_message length];
      rewrite !app_nil_r, Nat.add_0_r; reflexivity.
Qed.

Lemma logger_loop_passes (messages : list (list bytes)) :
  Forall (fun frames => frames <> [] /\ Forall Logger.fits_int (tl frames)) messages ->
  forall (passes : nat) (stale : bool) (table : list Logger.row)
         (cerr cout : list Logger.line) (n : nat),
  exists last_flag,
    Logger.logger_loop target sqlite_ok kept passes
      (Logger.mkLogger (mkSocket (flat_map wire messages) stale) table cerr cout n)
    = (Logger.mkLogger (mkSocket (flat_map wire (skipn passes messages)) last_flag)
         (table ++ flat_map Logger.rows_of_message (firstn passes messages))
         (cerr ++ flat_map Logger.warnings_of_message (firstn passes messages))
         (cout ++ flat_map (Logger.printed_of_message target) (firstn passes messages))
         (n + length (flat_map Logger.rows_of_message (firstn passes messages))),
       if (length messages <? passes)%nat then Blocked else Continue).
Proof.
  induction 1 as [|frames messages [Hframes Hfits] Hrest IH];
    intros passes stale table cerr cout n.
  - exists stale. destruct passes; cbn; rewrite !app_nil_r, Nat.add_0_r; reflexivity.
  - destruct passes as [|passes].
    + exists stale. cbn [Logger.logger_loop firstn skipn flat_map length].
      rewrite !app_nil_r, Nat.add_0_r. reflexivity.
    + destruct frames as [|frame1 more_frames]; [contradiction|].
      cbn [Logger.logger_loop flat_map firstn skipn length].
      rewrite logger_pass_message by exact Hfits.
      match goal with |- context [Logger.logger_loop _ _ _ _ (Logger.mkLogger _ ?t ?e ?o ?k)] =>
        destruct (IH passes false t e o k) as [last_flag Hloop] end.
      exists last_flag. rewrite Hloop, <- !app_assoc, length_app, Nat.add_assoc.
      reflexivity.
Qed.

End LoggerStream.

Lemma flat_map_rows_of_message (messages : list (list bytes)) :
  flat_map Logger.rows_of_message messages
  = map (fun frames => Logger.mkRow (Logger.up_to_nul (nth 0 frames []))
                                    (nth 1 frames []) (nth 2 frames []))
        (filter (fun frames => (length frames =? 3)%nat) messages).
Proof.
  induction messages as [|frames messages IH]; [reflexivity|].
  cbn [flat_map filter]. rewrite IH.
  destruct frames as [|f1 [|f2 [|f3 [|f4 frames]]]]; reflexivity.
Qed.

(** X22: the logger's loop on a stream of messages whose frames after the
    first are shorter than [2^31] bytes, with an SQLite whose calls succeed.
    After any number of passes the table holds one row for each three-frame
    message among the messages taken off the wire so far, in the order of
    arrival, with the second and the third frame as blobs, byte for byte; the
    messages not yet taken are still on the wire; and the loop is blocked in
    [recv] exactly when it has made more passes than there were messages. *)
Theorem logger_loop_stream (target : endianness)
    (sqlite_ok : nat -> Logger.sqlite_call -> bool)
    (kept : nat -> Logger.sqlite_call -> bytes -> bytes)
    (messages : list (list bytes)) (passes : nat) :
  (forall n c, sqlite_ok n c = true) ->
  Forall (fun frames => frames <> []) messages ->
  Forall (fun frames => Forall (fun frame => Z.of_nat (length frame) < 2 ^ 31) (tl frames))
         messages ->
  let taken := firstn passes messages in
  exists l p,
    Logger.logger_loop target sqlite_ok kept passes (Logger.start (flat_map wire messages))
    = (l, p) /\
    Logger.table l
    = map (fun frames => Logger.mkRow (Logger.up_to_nul (nth 0 frames []))
                                      (nth 1 frames []) (nth 2 frames []))
          (filter (fun frames => (length frames =? 3)%nat) taken) /\
    length (Logger.cout l) = length (Logger.table l) /\
    Logger.resets l = length (Logger.table l) /\
    incoming (Logger.subscriber l) = flat_map wire (skipn passes messages) /\
    (p = Blocked <-> (length messages < passes)%nat).
Proof.
  intros Hok Hne Hfits. cbv zeta. unfold Logger.start.
  assert (Hboth : Forall (fun frames => frames <> [] /\ Forall Logger.fits_int (tl frames))
                         messages).
  { apply Forall_forall. intros frames Hin. split.
    - exact (proj1 (Forall_forall _ _) Hne frames Hin).
    - exact (proj1 (Forall_forall _ _) Hfits frames Hin). }
  destruct (logger_loop_passes target sqlite_ok kept Hok messages Hboth passes
              false [] [] [] 0) as [last_flag Hloop].
  eexists. eexists. split; [exact Hloop|].
  cbn [Logger.table Logger.cout Logger.resets Logger.subscriber incoming app Nat.add].
  split; [apply flat_map_rows_of_message|].
  split.
  { generalize (firstn passes messages). intros l.
    induction l as [|frames l IH]; [reflexivity|].
    cbn [flat_map]. rewrite !length_app, IH.
    destruct frames as [|f1 [|f2 [|f3 [|f4 frames]]]]; reflexivity. }
  split; [reflexivity|]. split; [reflexivity|].
  destruct (length messages <? passes)%nat eqn:E;
    [apply Nat.ltb_lt in E | apply Nat.ltb_ge in E]; split; intros H;
    try reflexivity; try discriminate; try assumption; lia.
Qed.

Lemma logger_loop_stream_witness :
  (forall n c, Logger.sqlite_works n c = true) /\
  Forall (fun frames : list bytes => frames <> [])
         [[name_a; jpeg_a; sample_buffer]; [name_a; jpeg_a]; [name_a; jpeg_b; []]] /\
  Forall (fun frames => Forall (fun frame : bytes => Z.of_nat (length frame) < 2 ^ 31)
                               (tl frames))
         [[name_a; jpeg_a; sample_buffer]; [name_a; jpeg_a]; [name_a; jpeg_b; []]] /\
  exists l p,
    Logger.logger_loop BigEndian Logger.sqlite_works Logger.keeps_nothing 3
      (Logger.start (flat_map wire [[name_a; jpeg_a; sample_buffer]; [name_a; jpeg_a];
                                    [name_a; jpeg_b; []]]))
    = (l, p) /\
    Logger.table l = [Logger.mkRow name_a jpeg_a sample_buffer; Logger.mkRow name_a jpeg_b []].
Proof.
  assert (Hne : Forall (fun frames : list bytes => frames <> [])
                  [[name_a; jpeg_a; sample_buffer]; [name_a; jpeg_a]; [name_a; jpeg_b; []]])
    by (repeat constructor; discriminate).
  assert (Hfits : Forall (fun frames =>
                            Forall (fun frame : bytes => Z.of_nat (length frame) < 2 ^ 31)
                                   (tl frames))
                    [[name_a; jpeg_a; sample_buffer]; [name_a; jpeg_a]; [name_a; jpeg_b; []]])
    by (repeat constructor).
  split; [reflexivity|]. split; [exact Hne|]. split; [exact Hfits|].
  destruct (logger_loop_stream BigEndian Logger.sqlite_works Logger.keeps_nothing
              [[name_a; jpeg_a; sample_buffer]; [name_a; jpeg_a]; [name_a; jpeg_b; []]] 3
              (fun n c => eq_refl) Hne Hfits) as (l & p & Hloop & Htable & _).
  exists l, p. split; [exact Hloop | exact Htable].
Defined.

(** ** From the sender to the logger *)

Lemma on_wire_frames_of_result (results : list ProcessedTask) :
  on_wire (flat_map frames_of_result results)
  = flat_map wire (map (fun result => [filename result; img_buffer result;
                                       keypoints_buffer result]) results).
Proof.
  induction results as [|result results IH]; [reflexivity|].
  cbn [flat_map map]. unfold on_wire in *. rewrite map_app, IH. reflexivity.
Qed.

Lemma logger_reads_sender (target : endianness) (send_error : nat -> option exception)
    (sqlite_ok : nat -> Logger.sqlite_call -> bool)
    (kept : nat -> Logger.sqlite_call -> bytes -> bytes) (results : list ProcessedTask) :
  (forall n, send_error n = None) ->
  (forall n c, sqlite_ok n c = true) ->
  Forall (fun result => Z.of_nat (length (img_buffer result)) < 2 ^ 31 /\
                        Z.of_nat (length (keypoints_buffer result)) < 2 ^ 31) results ->
  exists last_flag,
    Logger.logger_loop target sqlite_ok kept (length results)
      (Logger.start (on_wire (published (sender_thread send_error (Returns tt) results))))
    = (Logger.mkLogger (mkSocket [] last_flag)
         (map Logger.row_of_result results) []
         (map (fun result => Logger.Logged_image (filename result)
                               (length (img_buffer result) / 1024)
                               (Logger.keypoint_count target (keypoints_buffer result)))
              results)
         (length results),
       Continue).
Proof.
  intros Hsend Hok Hfits. unfold sender_thread.
  rewrite (sender_loop_returns send_error results) by (intros m _; apply Hsend).
  cbn [published app]. rewrite on_wire_frames_of_result. unfold Logger.start.
  set (messages := map (fun result => [filename result; img_buffer result;
                                       keypoints_buffer result]) results).
  assert (Hne : Forall (fun frames : list bytes =>
                          frames <> [] /\ Forall Logger.fits_int (tl frames)) messages).
  { apply Forall_forall. intros frames Hin. apply in_map_iff in Hin.
    destruct Hin as (result & <- & Hin). split; [discriminate|].
    destruct (proj1 (Forall_forall _ _) Hfits result Hin) as [Himg Hkps].
    cbn [tl]. repeat constructor; assumption. }
  destruct (logger_loop_passes target sqlite_ok kept Hok messages Hne (length results)
              false [] [] [] 0) as [last_flag Hloop].
  exists last_flag. rewrite Hloop.
  assert (Hlen : length messages = length results) by (unfold messages; apply length_map).
  rewrite <- Hlen at 1 2 3 4 5 6. rewrite firstn_all, skipn_all, Nat.ltb_irrefl.
  unfold messages. clear. cbn [app flat_map Nat.add].
  f_equal. f_equal.
  - induction results as [|result results IH]; cbn; [reflexivity | rewrite IH; reflexivity].
  - induction results as [|result results IH]; cbn; [reflexivity | rewrite IH; reflexivity].
  - induction results as [|result results IH]; cbn; [reflexivity | rewrite IH; reflexivity].
  - induction results as [|result results IH]; cbn; [reflexivity | rewrite IH; reflexivity].
Qed.

(** X23: from the sender to the logger.  When the sends return, SQLite takes
    every row and the buffers of the results are shorter than [2^31] bytes, the
    logger that reads what the sender published stores one row for each
    result, in the order of the results: the image and the keypoint buffer byte
    for byte, and the file name up to its first zero byte.  It writes no
    warning: the messages of the sender pass the framing check of the
    logger. *)
Theorem sender_to_logger (target : endianness) (send_error : nat -> option exception)
    (sqlite_ok : nat -> Logger.sqlite_call -> bool)
    (kept : nat -> Logger.sqlite_call -> bytes -> bytes) (results : list ProcessedTask) :
  (forall n, send_error n = None) ->
  (forall n c, sqlite_ok n c = true) ->
  Forall (fun result => Z.of_nat (length (img_buffer result)) < 2 ^ 31 /\
                        Z.of_nat (length (keypoints_buffer result)) < 2 ^ 31) results ->
  let s := sender_thread send_error (Returns tt) results in
  let l := fst (Logger.logger_loop target sqlite_ok kept (length results)
                  (Logger.start (on_wire (published s)))) in
  Logger.table l = map Logger.row_of_result results /\
  Logger.cerr l = [] /\
  Logger.cout l
  = map (fun result => Logger.Logged_image (filename result)
                         (length (img_buffer result) / 1024)
                         (Logger.keypoint_count target (keypoints_buffer result)))
        results /\
  incoming (Logger.subscriber l) = [].
Proof.
  intros Hsend Hok Hfits. cbv zeta.
  destruct (logger_reads_sender target send_error sqlite_ok kept results Hsend Hok Hfits)
    as [last_flag Hloop].
  rewrite Hloop. repeat split.
Qed.

Lemma sender_to_logger_witness :
  (forall n, sends_return n = None) /\
  (forall n c, Logger.sqlite_works n c = true) /\
  Forall (fun result => Z.of_nat (length (img_buffer result)) < 2 ^ 31 /\
                        Z.of_nat (length (keypoints_buffer result)) < 2 ^ 31)
         [mkProcessedTask name_a jpeg_a sample_buffer; mkProcessedTask name_with_nul jpeg_b []] /\
  Logger.table
    (fst (Logger.logger_loop LittleEndian Logger.sqlite_works Logger.keeps_nothing 2
            (Logger.start
               (on_wire (published (sender_thread sends_return (Returns tt)
                                      [mkProcessedTask name_a jpeg_a sample_buffer;
                                       mkProcessedTask name_with_nul jpeg_b []]))))))
  = [Logger.mkRow name_a jpeg_a sample_buffer; Logger.mkRow [Byte.x61] jpeg_b []].
Proof.
  assert (Hfits : Forall (fun result =>
                     Z.of_nat (length (img_buffer result)) < 2 ^ 31 /\
                     Z.of_nat (length (keypoints_buffer result)) < 2 ^ 31)
                    [mkProcessedTask name_a jpeg_a sample_buffer;
                     mkProcessedTask name_with_nul jpeg_b []])
    by (repeat constructor).
  split; [reflexivity|]. split; [reflexivity|]. split; [exact Hfits|].
  exact (proj1 (sender_to_logger LittleEndian sends_return Logger.sqlite_works
                  Logger.keeps_nothing
                  [mkProcessedTask name_a jpeg_a sample_buffer;
                   mkProcessedTask name_with_nul jpeg_b []]
                  (fun n => eq_refl) (fun n c => eq_refl) Hfits)).
Defined.

(** ** The generator *)

Lemma byte_unsigned_inj (a b : byte) : byte.unsigned a = byte.unsigned b -> a = b.
Proof.
  intros H. rewrite <- (byte.of_Z_unsigned a), <- (byte.of_Z_unsigned b), H. reflexivity.
Qed.

Lemma tolower_same_letter (a b : byte) :
  ~ (0x41 <= byte.unsigned b <= 0x5a) ->
  Generator.tolower a = b <-> Generator.same_letter a b.
Proof.
  intros Hb. unfold Generator.tolower, Generator.same_letter.
  pose proof (byte.unsigned_range a) as Ha.
  destruct ((0x41 <=? byte.unsigned a) && (byte.unsigned a <=? 0x5a)) eqn:E.
  - apply andb_prop in E. destruct E as [E1 E2].
    apply Z.leb_le in E1. apply Z.leb_le in E2.
    split.
    + intros <-. right. split; [lia|].
      rewrite byte.unsigned_of_Z. unfold byte.wrap. apply Z.mod_small. lia.
    + intros [<-|[_ Hu]]; [exfalso; apply Hb; lia|].
      apply byte_unsigned_inj. rewrite byte.unsigned_of_Z. unfold byte.wrap.
      rewrite Z.mod_small by lia. lia.
  - apply andb_false_iff in E. split.
    + intros <-. left. reflexivity.
    + intros [<-|[Hup _]]; [reflexivity|].
      exfalso. destruct E as [E|E]; apply Z.leb_gt in E; lia.
Qed.

Lemma map_tolower_same_letter (ext want : bytes) :
  Forall (fun b => ~ (0x41 <= byte.unsigned b <= 0x5a)) want ->
  map Generator.tolower ext = want <-> Forall2 Generator.same_letter ext want.
Proof.
  intros Hwant. revert ext. induction Hwant as [|b want Hb Hwant IH]; intros ext.
  - destruct ext; cbn; split; intros H; try constructor; try discriminate;
      try reflexivity; inversion H.
  - destruct ext as [|a ext]; cbn [map].
    + split; intros H; [discriminate | inversion H].
    + split.
      * intros [= Ha Hext]. constructor; [apply tolower_same_letter; assumption|].
        apply IH. exact Hext.
      * intros H. inversion H as [|? ? ? ? Hab Hrest]; subst.
        f_equal; [apply tolower_same_letter; assumption | apply IH; exact Hrest].
Qed.

Lemma string_eqb_eq (a b : bytes) : Generator.string_eqb a b = true <-> a = b.
Proof.
  unfold Generator.string_eqb. destruct (list_eq_dec Byte.byte_eq_dec a b); split;
    intros H; try reflexivity; try assumption; try discriminate; contradiction.
Qed.

Lemma extensions_lower_case :
  Forall (fun want => Forall (fun b => ~ (0x41 <= byte.unsigned b <= 0x5a)) want)
         [Generator.dot_jpg; Generator.dot_jpeg; Generator.dot_png].
Proof. repeat constructor; cbn; lia. Qed.

Section ScanFacts.

Variable extension : bytes -> bytes.

Lemma scan_entries_returns (entries : list Generator.entry) :
  Forall Generator.status_known entries ->
  forall image_paths,
  Generator.scan_entries extension entries None image_paths
  = Returns (image_paths
               ++ map Generator.path (filter (Generator.is_image extension) entries)).
Proof.
  induction 1 as [|e entries He Hrest IH]; intros image_paths;
    cbn [Generator.scan_entries filter map].
  - rewrite app_nil_r. reflexivity.
  - unfold Generator.status_known in He. unfold Generator.is_image at 1.
    destruct (Generator.is_regular_file e); [| |contradiction].
    + destruct (Generator.is_image_path extension (Generator.path e)).
      * rewrite IH, <- app_assoc. reflexivity.
      * apply IH.
    + apply IH.
Qed.

Lemma scan_entries_broken (entries : list Generator.entry) (what : string) :
  Forall Generator.status_known entries ->
  forall image_paths,
  Generator.scan_entries extension entries (Some what) image_paths
  = Throws (runtime_error what).
Proof.
  induction 1 as [|e entries He Hrest IH]; intros image_paths;
    cbn [Generator.scan_entries]; [reflexivity|].
  unfold Generator.status_known in He.
  destruct (Generator.is_regular_file e); [| |contradiction].
  - destruct (Generator.is_image_path extension (Generator.path e)); apply IH.
  - apply IH.
Qed.

Lemma scan_entries_status_error (before : list Generator.entry) (e : Generator.entry)
    (after : list Generator.entry) (broken : option string) (what : string) :
  Forall Generator.status_known before ->
  Generator.is_regular_file e = Generator.Status_error what ->
  forall image_paths,
  Generator.scan_entries extension (before ++ e :: after) broken image_paths
  = Throws (runtime_error what).
Proof.
  intros Hbefore He. induction Hbefore as [|e' before He' Hrest IH]; intros image_paths;
    cbn [app Generator.scan_entries].
  - rewrite He. reflexivity.
  - unfold Generator.status_known in He'.
    destruct (Generator.is_regular_file e'); [| |contradiction].
    + destruct (Generator.is_image_path extension (Generator.path e')); apply IH.
    + apply IH.
Qed.

(** Whatever the scan throws is a [std::runtime_error]. *)
Lemma scan_entries_throws (entries : list Generator.entry) (broken : option string) :
  forall image_paths e,
  Generator.scan_entries extension entries broken image_paths = Throws e ->
  exists what, e = runtime_error what.
Proof.
  induction entries as [|e' entries IH]; intros image_paths e;
    cbn [Generator.scan_entries].
  - destruct broken as [what|]; [|discriminate]. intros [= <-]. exists what. reflexivity.
  - destruct (Generator.is_regular_file e') as [| |what].
    + destruct (Generator.is_image_path extension (Generator.path e')); apply IH.
    + apply IH.
    + intros [= <-]. exists what. reflexivity.
Qed.

Lemma find_available_images_throws (dir_path : string) (dir : Generator.directory)
    (e : exception) :
  Generator.find_available_images extension dir_path dir = Throws e ->
  exists what, e = runtime_error what.
Proof.
  destruct dir as [| |what|entries broken]; cbn [Generator.find_available_images].
  - intros [= <-]. eexists. reflexivity.
  - intros [= <-]. eexists. reflexivity.
  - intros [= <-]. eexists. reflexivity.
  - apply scan_entries_throws.
Qed.

Lemma is_image_letters (e : Generator.entry) :
  Generator.is_image extension e = true <->
  Generator.is_regular_file e = Generator.Regular_file /\
  exists want,
    In want [Generator.dot_jpg; Generator.dot_jpeg; Generator.dot_png] /\
    Forall2 Generator.same_letter (extension (Generator.path e)) want.
Proof.
  pose proof extensions_lower_case as Hlow.
  inversion Hlow as [|? ? Hjpg Hlow1]; subst.
  inversion Hlow1 as [|? ? Hjpeg Hlow2]; subst.
  inversion Hlow2 as [|? ? Hpng _]; subst.
  unfold Generator.is_image, Generator.is_image_path. split.
  - destruct (Generator.is_regular_file e); [|discriminate|discriminate].
    intros Hext. split; [reflexivity|].
    apply orb_prop in Hext. destruct Hext as [Hext|Hext];
      [apply orb_prop in Hext; destruct Hext as [Hext|Hext]|];
      apply string_eqb_eq in Hext.
    + exists Generator.dot_jpg. split; [left; reflexivity|].
      apply map_tolower_same_letter; assumption.
    + exists Generator.dot_jpeg. split; [right; left; reflexivity|].
      apply map_tolower_same_letter; assumption.
    + exists Generator.dot_png. split; [right; right; left; reflexivity|].
      apply map_tolower_same_letter; assumption.
  - intros (Hreg & want & Hwant & Hsame). rewrite Hreg.
    destruct Hwant as [<-|[<-|[<-|[]]]];
      apply map_tolower_same_letter in Hsame; try assumption;
      rewrite Hsame; cbn; rewrite ?orb_true_r; reflexivity.
Qed.

End ScanFacts.

(** X24: which files the generator takes.  [find_available_images] throws
    its own [std::runtime_error] when there is no directory at the path, and
    lets through the [fs::filesystem_error] that a call to the file system
    throws: before the first entry, at the increment of the iterator, or at
    [is_regular_file] on an entry, whatever it had collected by then.  When no
    call throws it returns, in the order of the directory, the paths of the
    regular files whose extension is [.jpg], [.jpeg] or [.png] in any mixture
    of small and capital letters, and of no other entry. *)
Theorem find_available_images_listing (extension : bytes -> bytes) (dir_path : string)
    (dir : Generator.directory) :
  match dir with
  | Generator.Missing | Generator.Not_a_directory =>
    Generator.find_available_images extension dir_path dir
    = Throws (runtime_error ("Demo directory not found: " ++ dir_path))
  | Generator.Cannot_scan what =>
    Generator.find_available_images extension dir_path dir = Throws (runtime_error what)
  | Generator.Listing entries broken =>
    (forall before e after what,
       entries = before ++ e :: after ->
       Forall Generator.status_known before ->
       Generator.is_regular_file e = Generator.Status_error what ->
       Generator.find_available_images extension dir_path dir
       = Throws (runtime_error what)) /\
    (forall what,
       Forall Generator.status_known entries -> broken = Some what ->
       Generator.find_available_images extension dir_path dir
       = Throws (runtime_error what)) /\
    (Forall Generator.status_known entries -> broken = None ->
     exists kept,
       Generator.find_available_images extension dir_path dir
       = Returns (map Generator.path kept) /\
       kept = filter (Generator.is_image extension) entries /\
       forall e,
         In e kept <->
         In e entries /\
         Generator.is_regular_file e = Generator.Regular_file /\
         exists want,
           In want [Generator.dot_jpg; Generator.dot_jpeg; Generator.dot_png] /\
           Forall2 Generator.same_letter (extension (Generator.path e)) want)
  end.
Proof.
  destruct dir as [| |what|entries broken]; [reflexivity | reflexivity | reflexivity |].
  cbn [Generator.find_available_images]. split; [|split].
  - intros before e after what -> Hbefore He.
    apply scan_entries_status_error; assumption.
  - intros what Hknown ->. apply scan_entries_broken. exact Hknown.
  - intros Hknown ->. exists (filter (Generator.is_image extension) entries).
    split; [rewrite scan_entries_returns by exact Hknown; reflexivity|].
    split; [reflexivity|].
    intros e. rewrite filter_In, is_image_letters. reflexivity.
Qed.

Section GeneratorFacts.

Variable extension : bytes -> bytes.
Variable filename : bytes -> bytes.
Variable imgcodecs : Generator.Imgcodecs.
Variable send_error : nat -> option exception.
Hypothesis sends_return : forall n, send_error n = None.

Lemma publish_image_returns (g : Generator.generator) (full_path : bytes) :
  Generator.frame_count g < Generator.INT_MAX ->
  Generator.returns extension imgcodecs full_path = true ->
  Generator.publish_image extension filename imgcodecs send_error g full_path
  = (match Generator.encoded extension imgcodecs full_path with
     | Some img_buffer =>
       Generator.mkGenerator
         (Generator.published g ++ [(filename full_path, sndmore); (img_buffer, none)])
         (Generator.cout g ++ [Generator.Sent_image (filename full_path)
                                 (Generator.frame_count g + 1)
                                 (length img_buffer / 1024)])
         (Generator.cerr g) (Generator.frame_count g + 1)
     | None =>
       Generator.mkGenerator (Generator.published g) (Generator.cout g)
         (Generator.cerr g ++ [Generator.Warning_could_not_read full_path])
         (Generator.frame_count g + 1)
     end, Generator.Running).
Proof.
  intros Hcount. unfold Generator.returns, Generator.encoded, Generator.publish_image.
  apply Z.leb_gt in Hcount. rewrite Hcount.
  destruct (Generator.imread imgcodecs full_path) as [image|e]; [|discriminate].
  destruct (Generator.Mat_empty imgcodecs image); [reflexivity|]. cbn [orb].
  destruct (Generator.imencode imgcodecs (extension full_path) image) as [img_buffer|e];
    [|discriminate].
  intros _. unfold Generator.send. cbn [Generator.published]. rewrite !sends_return.
  cbn [Generator.published Generator.cout Generator.cerr Generator.frame_count].
  rewrite <- app_assoc. reflexivity.
Qed.

(** The frames, the lines and the count after a batch in which no call
    throws and the count stays an [int]. *)
Lemma publish_batch_returns (image_paths : list bytes) :
  Forall (fun full_path => Generator.returns extension imgcodecs full_path = true)
         image_paths ->
  forall g,
  Generator.frame_count g + Z.of_nat (length image_paths) <= Generator.INT_MAX ->
  exists cout cerr,
    Generator.publish_batch extension filename imgcodecs send_error image_paths g
    = (Generator.mkGenerator
         (Generator.published g
            ++ flat_map (Generator.frames_of_image extension filename imgcodecs)
                 image_paths)
         (Generator.cout g ++ cout) (Generator.cerr g ++ cerr)
         (Generator.frame_count g + Z.of_nat (length image_paths)),
       Generator.Running).
Proof.
  induction 1 as [|full_path image_paths Hret Hrest IH]; intros g Hcount.
  - exists [], []. cbn. rewrite !app_nil_r, Z.add_0_r. destruct g. reflexivity.
  - cbn [length] in Hcount.
    cbn [Generator.publish_batch flat_map].
    rewrite publish_image_returns by (try exact Hret; lia).
    unfold Generator.frames_of_image at 1.
    destruct (Generator.encoded extension imgcodecs full_path) as [img_buffer|].
    + match goal with |- context [Generator.publish_batch _ _ _ _ _ ?g1] =>
        destruct (IH g1) as (cout & cerr & Hbatch) end.
      { cbn [Generator.frame_count]. lia. }
      cbn [Generator.published Generator.cout Generator.cerr Generator.frame_count] in *.
      eexists (_ :: cout), cerr. rewrite Hbatch.
      rewrite <- !app_assoc. cbn [app length]. do 2 f_equal. lia.
    + match goal with |- context [Generator.publish_batch _ _ _ _ _ ?g1] =>
        destruct (IH g1) as (cout & cerr & Hbatch) end.
      { cbn [Generator.frame_count]. lia. }
      cbn [Generator.published Generator.cout Generator.cerr Generator.frame_count] in *.
      eexists cout, (_ :: cerr). rewrite Hbatch.
      rewrite <- !app_assoc. cbn [app length]. do 2 f_equal. lia.
Qed.

End GeneratorFacts.

Section GeneratorLoop.

Variable extension : bytes -> bytes.
Variable filename : bytes -> bytes.
Variable dir_path : string.
Variable imgcodecs : Generator.Imgcodecs.
Variable send_error : nat -> option exception.
Hypothesis sends_return : forall n, send_error n = None.

Lemma scan_pass_returns (dir : Generator.directory) (g : Generator.generator) :
  Forall (fun full_path => Generator.returns extension imgcodecs full_path = true)
         (Generator.found extension dir_path dir) ->
  Generator.frame_count g + Z.of_nat (length (Generator.found extension dir_path dir))
  <= Generator.INT_MAX ->
  exists cout cerr,
    Generator.scan_pass extension filename dir_path imgcodecs send_error dir g
    = (Generator.mkGenerator
         (Generator.published g
            ++ flat_map (Generator.frames_of_image extension filename imgcodecs)
                 (Generator.found extension dir_path dir))
         (Generator.cout g ++ cout) (Generator.cerr g ++ cerr)
         (Generator.frame_count g
          + Z.of_nat (length (Generator.found extension dir_path dir))),
       Generator.Running).
Proof.
  unfold Generator.found, Generator.scan_pass.
  destruct (Generator.find_available_images extension dir_path dir)
    as [[|full_path image_paths]|e] eqn:Hfind; intros Hret Hcount.
  - exists [Generator.Waiting_for_images], [].
    cbn. rewrite !app_nil_r, Z.add_0_r. reflexivity.
  - destruct (publish_batch_returns extension filename imgcodecs send_error sends_return
                (full_path :: image_paths) Hret g Hcount) as (cout & cerr & Hbatch).
    exists cout, cerr. exact Hbatch.
  - destruct (find_available_images_throws _ _ _ _ Hfind) as [what ->].
    exists [], [Generator.Scan_error what].
    cbn. rewrite !app_nil_r, Z.add_0_r. reflexivity.
Qed.

Lemma scan_loop_returns (scans : list Generator.directory) :
  Forall (fun dir =>
            Forall (fun full_path => Generator.returns extension imgcodecs full_path = true)
                   (Generator.found extension dir_path dir)) scans ->
  forall g,
  Generator.frame_count g
  + Z.of_nat (length (flat_map (Generator.found extension dir_path) scans))
  <= Generator.INT_MAX ->
  exists cout cerr,
    Generator.scan_loop extension filename dir_path imgcodecs send_error scans g
    = (Generator.mkGenerator
         (Generator.published g
            ++ flat_map (Generator.frames_of_image extension filename imgcodecs)
                 (flat_map (Generator.found extension dir_path) scans))
         (Generator.cout g ++ cout) (Generator.cerr g ++ cerr)
         (Generator.frame_count g
          + Z.of_nat (length (flat_map (Generator.found extension dir_path) scans))),
       Generator.Running).
Proof.
  induction 1 as [|dir scans Hdir Hrest IH]; intros g Hcount.
  - exists [], []. cbn. rewrite !app_nil_r, Z.add_0_r. destruct g. reflexivity.
  - cbn [Generator.scan_loop flat_map] in *. rewrite length_app, Nat2Z.inj_add in Hcount.
    destruct (scan_pass_returns dir g Hdir) as (cout1 & cerr1 & Hpass); [lia|].
    rewrite Hpass.
    match goal with |- context [Generator.scan_loop _ _ _ _ _ _ ?g1] =>
      destruct (IH g1) as (cout & cerr & Hloop) end.
    { cbn [Generator.frame_count]. lia. }
    cbn [Generator.published Generator.cout Generator.cerr Generator.frame_count] in Hloop.
    exists (cout1 ++ cout), (cerr1 ++ cerr). rewrite Hloop.
    rewrite flat_map_app, length_app, Nat2Z.inj_add, <- !app_assoc, Z.add_assoc.
    reflexivity.
Qed.

End GeneratorLoop.

Lemma scan_loop_start (extension filename : bytes -> bytes) (dir_path : string)
    (imgcodecs : Generator.Imgcodecs) (send_error : nat -> option exception)
    (scans : list Generator.directory) :
  (forall n, send_error n = None) ->
  Forall (fun full_path => Generator.returns extension imgcodecs full_path = true)
         (flat_map (Generator.found extension dir_path) scans) ->
  Z.of_nat (length (flat_map (Generator.found extension dir_path) scans)) < 2 ^ 31 ->
  exists cout cerr,
    Generator.scan_loop extension filename dir_path imgcodecs send_error scans
      Generator.start
    = (Generator.mkGenerator
         (flat_map (Generator.frames_of_image extension filename imgcodecs)
            (flat_map (Generator.found extension dir_path) scans))
         cout cerr
         (Z.of_nat (length (flat_map (Generator.found extension dir_path) scans))),
       Generator.Running).
Proof.
  intros Hsend Hret Hcount.
  assert (Hscans : Forall (fun dir =>
            Forall (fun full_path => Generator.returns extension imgcodecs full_path = true)
                   (Generator.found extension dir_path dir)) scans).
  { clear Hcount. induction scans as [|dir scans IH]; [constructor|].
    cbn [flat_map] in Hret. apply Forall_app in Hret. destruct Hret as [Hdir Hrest].
    constructor; [exact Hdir | apply IH; exact Hrest]. }
  destruct (scan_loop_returns extension filename dir_path imgcodecs send_error Hsend
              scans Hscans Generator.start) as (cout & cerr & Hloop).
  { unfold Generator.INT_MAX. cbn [Generator.start Generator.frame_count]. lia. }
  exists cout, cerr. exact Hloop.
Qed.


Lemma demo_scans_return :
  Forall (fun full_path => Generator.returns demo_extension demo_imgcodecs full_path = true)
         (flat_map (Generator.found demo_extension "images") demo_scans).
Proof. repeat constructor. Qed.

Lemma demo_scans_count :
  Z.of_nat (length (flat_map (Generator.found demo_extension "images") demo_scans)) < 2 ^ 31.
Proof. reflexivity. Qed.


Section GeneratorThrows.

Variable extension : bytes -> bytes.
Variable filename : bytes -> bytes.
Variable dir_path : string.
Variable imgcodecs : Generator.Imgcodecs.
Variable send_error : nat -> option exception.

(** One image, whatever the calls do: either every call returns, and the
    frames of the image are out; or one throws, and at most the frame with the
    file name is out; or the count cannot be raised, and nothing is done. *)
Lemma publish_image_cases (g : Generator.generator) (full_path : bytes) :
  let '(g', ended) :=
    Generator.publish_image extension filename imgcodecs send_error g full_path in
  match ended with
  | Generator.Running =>
    Generator.frame_count g' = Generator.frame_count g + 1 /\
    Generator.published g'
    = Generator.published g
        ++ Generator.frames_of_image extension filename imgcodecs full_path
  | Generator.Uncaught _ =>
    Generator.frame_count g' = Generator.frame_count g + 1 /\
    (Generator.published g' = Generator.published g \/
     Generator.published g' = Generator.published g ++ [(filename full_path, sndmore)])
  | Generator.Overflow => g' = g /\ Generator.INT_MAX <= Generator.frame_count g
  end.
Proof.
  unfold Generator.publish_image, Generator.frames_of_image, Generator.encoded.
  destruct (Generator.INT_MAX <=? Generator.frame_count g) eqn:Hcount.
  { apply Z.leb_le in Hcount. split; [reflexivity | exact Hcount]. }
  destruct (Generator.imread imgcodecs full_path) as [image|e];
    [|split; [reflexivity | left; reflexivity]].
  destruct (Generator.Mat_empty imgcodecs image).
  { cbn. rewrite app_nil_r. split; reflexivity. }
  destruct (Generator.imencode imgcodecs (extension full_path) image) as [img_buffer|e];
    [|split; [reflexivity | left; reflexivity]].
  unfold Generator.send. cbn [Generator.published].
  destruct (send_error (length (Generator.published g))) as [e|];
    [split; [reflexivity | left; reflexivity]|].
  cbn [Generator.published Generator.cout Generator.cerr Generator.frame_count].
  destruct (send_error (length (Generator.published g ++ [(filename full_path, sndmore)])))
    as [e|]; [split; [reflexivity | right; reflexivity]|].
  cbn [Generator.published Generator.cout Generator.cerr Generator.frame_count].
  split; [reflexivity|]. rewrite <- app_assoc. reflexivity.
Qed.

Lemma publish_batch_cases (image_paths : list bytes) :
  forall g,
  let '(g', ended) :=
    Generator.publish_batch extension filename imgcodecs send_error image_paths g in
  match ended with
  | Generator.Running =>
    Generator.frame_count g' = Generator.frame_count g + Z.of_nat (length image_paths) /\
    Generator.published g'
    = Generator.published g
        ++ flat_map (Generator.frames_of_image extension filename imgcodecs) image_paths
  | Generator.Uncaught _ =>
    exists (k : nat) (full_path : bytes) dangling,
      nth_error image_paths k = Some full_path /\
      Generator.frame_count g' = Generator.frame_count g + Z.of_nat k + 1 /\
      Generator.published g'
      = Generator.published g
          ++ flat_map (Generator.frames_of_image extension filename imgcodecs)
               (firstn k image_paths)
          ++ dangling /\
      (dangling = [] \/ dangling = [(filename full_path, sndmore)])
  | Generator.Overflow => True
  end.
Proof.
  induction image_paths as [|full_path image_paths IH]; intros g.
  - cbn. rewrite app_nil_r, Z.add_0_r. split; reflexivity.
  - cbn [Generator.publish_batch].
    pose proof (publish_image_cases g full_path) as Himage.
    destruct (Generator.publish_image extension filename imgcodecs send_error g full_path)
      as [g1 [|e|]].
    + destruct Himage as [Hcount Hpub]. specialize (IH g1).
      destruct (Generator.publish_batch extension filename imgcodecs send_error
                  image_paths g1) as [g' [|e|]].
      * destruct IH as [Hc Hp]. cbn [length flat_map]. split; [lia|].
        rewrite Hp, Hpub, <- app_assoc. reflexivity.
      * destruct IH as (k & path_k & dangling & Hnth & Hc & Hp & Hd).
        exists (S k), path_k, dangling. cbn [nth_error firstn flat_map].
        split; [exact Hnth|]. split; [lia|]. split; [|exact Hd].
        rewrite Hp, Hpub, <- !app_assoc. reflexivity.
      * exact I.
    + destruct Himage as [Hcount Hpub].
      exists 0%nat, full_path.
      destruct Hpub as [Hpub|Hpub]; [exists [] | exists [(filename full_path, sndmore)]];
        cbn [nth_error firstn flat_map app]; rewrite ?app_nil_r;
        (split; [reflexivity|]); (split; [cbn; lia|]); (split; [exact Hpub|]);
        [left | right]; reflexivity.
    + exact I.
Qed.

Lemma scan_pass_cases (dir : Generator.directory) (g : Generator.generator) :
  let image_paths := Generator.found extension dir_path dir in
  let '(g', ended) :=
    Generator.scan_pass extension filename dir_path imgcodecs send_error dir g in
  match ended with
  | Generator.Running =>
    Generator.frame_count g' = Generator.frame_count g + Z.of_nat (length image_paths) /\
    Generator.published g'
    = Generator.published g
        ++ flat_map (Generator.frames_of_image extension filename imgcodecs) image_paths
  | Generator.Uncaught _ =>
    exists (k : nat) (full_path : bytes) dangling,
      nth_error image_paths k = Some full_path /\
      Generator.frame_count g' = Generator.frame_count g + Z.of_nat k + 1 /\
      Generator.published g'
      = Generator.published g
          ++ flat_map (Generator.frames_of_image extension filename imgcodecs)
               (firstn k image_paths)
          ++ dangling /\
      (dangling = [] \/ dangling = [(filename full_path, sndmore)])
  | Generator.Overflow => True
  end.
Proof.
  cbv zeta. unfold Generator.scan_pass, Generator.found.
  destruct (Generator.find_available_images extension dir_path dir)
    as [[|full_path image_paths]|e] eqn:Hfind.
  - cbn. rewrite app_nil_r, Z.add_0_r. split; reflexivity.
  - pose proof (publish_batch_cases (full_path :: image_paths) g) as Hbatch.
    destruct (Generator.publish_batch extension filename imgcodecs send_error
                (full_path :: image_paths) g) as [g' [|e|]]; [exact Hbatch | exact Hbatch|].
    exact I.
  - destruct (find_available_images_throws _ _ _ _ Hfind) as [what ->].
    cbn. rewrite app_nil_r, Z.add_0_r. split; reflexivity.
Qed.

Lemma scan_loop_cases (scans : list Generator.directory) :
  forall g,
  let image_paths := flat_map (Generator.found extension dir_path) scans in
  let '(g', ended) :=
    Generator.scan_loop extension filename dir_path imgcodecs send_error scans g in
  match ended with
  | Generator.Running =>
    Generator.frame_count g' = Generator.frame_count g + Z.of_nat (length image_paths) /\
    Generator.published g'
    = Generator.published g
        ++ flat_map (Generator.frames_of_image extension filename imgcodecs) image_paths
  | Generator.Uncaught _ =>
    exists (k : nat) (full_path : bytes) dangling,
      nth_error image_paths k = Some full_path /\
      Generator.frame_count g' = Generator.frame_count g + Z.of_nat k + 1 /\
      Generator.published g'
      = Generator.published g
          ++ flat_map (Generator.frames_of_image extension filename imgcodecs)
               (firstn k image_paths)
          ++ dangling /\
      (dangling = [] \/ dangling = [(filename full_path, sndmore)])
  | Generator.Overflow => True
  end.
Proof.
  induction scans as [|dir scans IH]; intros g; cbv zeta.
  - cbn. rewrite app_nil_r, Z.add_0_r. split; reflexivity.
  - cbn [Generator.scan_loop flat_map].
    pose proof (scan_pass_cases dir g) as Hpass. cbv zeta in Hpass.
    destruct (Generator.scan_pass extension filename dir_path imgcodecs send_error dir g)
      as [g1 [|e|]]; [| |exact I].
    + destruct Hpass as [Hc Hp]. specialize (IH g1). cbv zeta in IH.
      destruct (Generator.scan_loop extension filename dir_path imgcodecs send_error
                  scans g1) as [g' [|e|]]; [| |exact I].
      * destruct IH as [Hc' Hp']. split; [rewrite length_app; lia|].
        rewrite Hp', Hp, flat_map_app, <- app_assoc. reflexivity.
      * destruct IH as (k & full_path & dangling & Hnth & Hc' & Hp' & Hd).
        exists (length (Generator.found extension dir_path dir) + k)%nat, full_path, dangling.
        split; [rewrite nth_error_app2 by lia;
                replace (length (Generator.found extension dir_path dir) + k
                         - length (Generator.found extension dir_path dir))%nat
                  with k by lia; exact Hnth|].
        split; [lia|]. split; [|exact Hd].
        rewrite firstn_app.
        replace (length (Generator.found extension dir_path dir) + k
                 - length (Generator.found extension dir_path dir))%nat with k by lia.
        rewrite firstn_all2 by lia.
        rewrite Hp', Hp, flat_map_app, <- !app_assoc. reflexivity.
    + destruct Hpass as (k & full_path & dangling & Hnth & Hc & Hp & Hd).
      assert (Hk : (k < length (Generator.found extension dir_path dir))%nat)
        by (apply nth_error_Some; congruence).
      exists k, full_path, dangling.
      split; [rewrite nth_error_app1 by exact Hk; exact Hnth|].
      split; [exact Hc|]. split; [|exact Hd].
      rewrite firstn_app. replace (k - length (Generator.found extension dir_path dir))%nat
        with 0%nat by lia.
      cbn [firstn]. rewrite app_nil_r. exact Hp.
Qed.

(** [frame_count] stays an [int]. *)
Lemma publish_image_count (g : Generator.generator) (full_path : bytes) :
  Generator.frame_count g <= Generator.INT_MAX ->
  Generator.frame_count
    (fst (Generator.publish_image extension filename imgcodecs send_error g full_path))
  <= Generator.INT_MAX.
Proof.
  intros Hcount. pose proof (publish_image_cases g full_path) as Himage.
  destruct (Generator.publish_image extension filename imgcodecs send_error g full_path)
    as [g1 [|e|]] eqn:Hpub; cbn [fst].
  - unfold Generator.publish_image in Hpub.
    destruct (Generator.INT_MAX <=? Generator.frame_count g) eqn:E; [discriminate|].
    apply Z.leb_gt in E. destruct Himage as [-> _]. lia.
  - unfold Generator.publish_image in Hpub.
    destruct (Generator.INT_MAX <=? Generator.frame_count g) eqn:E; [discriminate|].
    apply Z.leb_gt in E. destruct Himage as [-> _]. lia.
  - destruct Himage as [-> _]. exact Hcount.
Qed.

Lemma publish_batch_count (image_paths : list bytes) :
  forall g,
  Generator.frame_count g <= Generator.INT_MAX ->
  Generator.frame_count
    (fst (Generator.publish_batch extension filename imgcodecs send_error image_paths g))
  <= Generator.INT_MAX.
Proof.
  induction image_paths as [|full_path image_paths IH]; intros g Hcount;
    cbn [Generator.publish_batch]; [exact Hcount|].
  pose proof (publish_image_count g full_path Hcount) as Himage.
  destruct (Generator.publish_image extension filename imgcodecs send_error g full_path)
    as [g1 [|e|]]; cbn [fst] in *; [apply IH | |]; exact Himage.
Qed.

Lemma scan_pass_count (dir : Generator.directory) (g : Generator.generator) :
  Generator.frame_count g <= Generator.INT_MAX ->
  Generator.frame_count
    (fst (Generator.scan_pass extension filename dir_path imgcodecs send_error dir g))
  <= Generator.INT_MAX.
Proof.
  intros Hcount. unfold Generator.scan_pass.
  destruct (Generator.find_available_images extension dir_path dir)
    as [[|full_path image_paths]|[what|what|what]]; try exact Hcount.
  apply publish_batch_count. exact Hcount.
Qed.

Lemma scan_loop_count (scans : list Generator.directory) :
  forall g,
  Generator.frame_count g <= Generator.INT_MAX ->
  Generator.frame_count
    (fst (Generator.scan_loop extension filename dir_path imgcodecs send_error scans g))
  <= Generator.INT_MAX.
Proof.
  induction scans as [|dir scans IH]; intros g Hcount;
    cbn [Generator.scan_loop]; [exact Hcount|].
  pose proof (scan_pass_count dir g Hcount) as Hpass.
  destruct (Generator.scan_pass extension filename dir_path imgcodecs send_error dir g)
    as [g1 [|e|]]; cbn [fst] in *; [apply IH | |]; exact Hpass.
Qed.

End GeneratorThrows.



(** ** From the generator to the extractor *)

Lemma on_wire_frames_of_image (extension filename : bytes -> bytes)
    (imgcodecs : Generator.Imgcodecs) (image_paths : list bytes) :
  exists messages,
    on_wire (flat_map (Generator.frames_of_image extension filename imgcodecs) image_paths)
    = flat_map wire messages /\
    Forall (fun frames : list bytes => frames <> []) messages /\
    flat_map tasks_of_message messages
    = flat_map (Generator.task_of_image extension filename imgcodecs) image_paths /\
    flat_map warnings_of_message messages = [] /\
    length (flat_map (Generator.frames_of_image extension filename imgcodecs) image_paths)
    = (2 * length messages)%nat.
Proof.
  induction image_paths as [|full_path image_paths (messages & Hwire & Hne & Ht & Hw & Hlen)].
  - exists []. repeat split. constructor.
  - cbn [flat_map]. unfold on_wire in *. rewrite map_app, Hwire, length_app, Hlen.
    assert (Hf : Generator.frames_of_image extension filename imgcodecs full_path
                 = match Generator.encoded extension imgcodecs full_path with
                   | Some img_buffer => [(filename full_path, sndmore); (img_buffer, none)]
                   | None => []
                   end) by reflexivity.
    assert (Hi : Generator.task_of_image extension filename imgcodecs full_path
                 = match Generator.encoded extension imgcodecs full_path with
                   | Some img_buffer => [mkImageTask (filename full_path) img_buffer]
                   | None => []
                   end) by reflexivity.
    rewrite Hf, Hi. clear Hf Hi.
    destruct (Generator.encoded extension imgcodecs full_path) as [img_buffer|].
    + exists ([filename full_path; img_buffer] :: messages).
      cbn [flat_map map app fst snd wire tasks_of_message warnings_of_message length].
      rewrite Ht, Hw. repeat split; [|lia]. constructor; [discriminate | exact Hne].
    + exists messages. cbn [map app length]. repeat split; assumption.
Qed.

Lemma extractor_reads_generator (extension filename : bytes -> bytes) (dir_path : string)
    (imgcodecs : Generator.Imgcodecs) (send_error : nat -> option exception)
    (scans : list Generator.directory) :
  (forall n, send_error n = None) ->
  Forall (fun full_path => Generator.returns extension imgcodecs full_path = true)
         (flat_map (Generator.found extension dir_path) scans) ->
  Z.of_nat (length (flat_map (Generator.found extension dir_path) scans)) < 2 ^ 31 ->
  exists last_flag,
    receive_loop
      (length (Generator.published
                 (fst (Generator.scan_loop extension filename dir_path imgcodecs
                         send_error scans Generator.start))) / 2)
      (mkReceiver
         (mkSocket
            (on_wire (Generator.published
                        (fst (Generator.scan_loop extension filename dir_path imgcodecs
                                send_error scans Generator.start)))) false) [] [])
    = (mkReceiver (mkSocket [] last_flag)
         (flat_map (Generator.task_of_image extension filename imgcodecs)
            (flat_map (Generator.found extension dir_path) scans)) [],
       Continue).
Proof.
  intros Hsend Hret Hcount.
  destruct (scan_loop_start extension filename dir_path imgcodecs send_error scans
              Hsend Hret Hcount) as (cout & cerr & Hpub).
  rewrite Hpub. cbn [fst Generator.published].
  destruct (on_wire_frames_of_image extension filename imgcodecs
              (flat_map (Generator.found extension dir_path) scans))
    as (messages & Hwire & Hne & Htasks & Hwarn & Hlen).
  rewrite Hwire, Hlen.
  replace (2 * length messages / 2)%nat with (length messages)
    by (rewrite Nat.mul_comm, Nat.div_mul; [reflexivity | discriminate]).
  destruct (receive_loop_messages messages false [] [] Hne) as [last_flag Hloop].
  exists last_flag. rewrite Hloop, Htasks, Hwarn. reflexivity.
Qed.





Lemma task_of_image_In (extension filename : bytes -> bytes)
    (imgcodecs : Generator.Imgcodecs) (image_paths : list bytes) (task : ImageTask) :
  In task (flat_map (Generator.task_of_image extension filename imgcodecs) image_paths) ->
  exists full_path img_buffer,
    In full_path image_paths /\
    Generator.encoded extension imgcodecs full_path = Some img_buffer /\
    task = mkImageTask (filename full_path) img_buffer.
Proof.
  intros Hin. apply in_flat_map in Hin. destruct Hin as (full_path & Hpath & Htask).
  unfold Generator.task_of_image in Htask.
  destruct (Generator.encoded extension imgcodecs full_path) as [img_buffer|] eqn:Henc;
    [|contradiction].
  destruct Htask as [<-|[]]. exists full_path, img_buffer. repeat split; assumption.
Qed.

Lemma length_task_of_image (extension filename : bytes -> bytes)
    (imgcodecs : Generator.Imgcodecs) (image_paths : list bytes) :
  (length (flat_map (Generator.task_of_image extension filename imgcodecs) image_paths)
   <= length image_paths)%nat.
Proof.
  induction image_paths as [|full_path image_paths IH]; [reflexivity|].
  cbn [flat_map]. rewrite length_app. unfold Generator.task_of_image at 1.
  destruct (Generator.encoded extension imgcodecs full_path); cbn [length]; lia.
Qed.

Lemma printed_counts_agree (target : endianness) (id : Z)
    (results : list ProcessedTask) (lines : list log_line) :
  Forall2 (fun result line =>
             exists keypoints,
               deserialize_keypoints target (keypoints_buffer result) = Returns keypoints /\
               line = Worker_processed id (length keypoints)) results lines ->
  Forall2 (fun printed logged =>
             exists name kilobytes n,
               printed = Worker_processed id n /\
               logged = Logger.Logged_image name kilobytes n)
          lines
          (map (fun result => Logger.Logged_image (filename result)
                                (length (img_buffer result) / 1024)
                                (Logger.keypoint_count target (keypoints_buffer result)))
               results).
Proof.
  induction 1 as [|result line results lines (keypoints & Hkps & ->) Hrest IH];
    cbn [map]; constructor; [|exact IH].
  exists (filename result), (length (img_buffer result) / 1024)%nat, (length keypoints).
  split; [reflexivity|]. unfold Logger.keypoint_count. rewrite Hkps. reflexivity.
Qed.

(** ** From the directory to the table *)


